(** * Policy-based [Vector] of [11.cpp]: a shallow embedding and its properties

    The development models the class template
    [Vector<T, AllocPolicy, ThreadPolicy, DebugPolicy>] of [src/11.cpp]:
    a raw buffer obtained from an allocation policy, elements constructed
    and destructed in place, and the three counters/pointers
    [data_], [size_], [capacity_].

    - [size_t] is a 64-bit unsigned integer: a [Z] in [0, 2^64) whose
      arithmetic wraps ([wrap]).
    - A pointer is a [Z]; [0] is [nullptr].  The heap maps the base address of
      every live block to its slots; a slot is [Some v] while an object of
      type [T] lives in it and [None] while it is raw storage.
    - An element is modelled by its value: a copy or a move construction
      from a slot constructs an object with the value of that slot, and a
      moved-from object keeps its value until it is destructed (as for the
      element types the source instantiates, [int] and [double]).
    - [Vector] objects live in a store indexed by their own address
      ([this]), so that [this != &other] is a comparison of addresses.
    - Every operation is a function in the monad [M]: it either returns
      ([Done]), leaves with [std::bad_alloc] in flight ([Raise]) or has
      undefined behaviour ([Undef]).
    - The calls that the claims speak about (locking, allocation, element
      construction and destruction) are recorded in a trace of events.
      [DebugPolicy::log] and the messages of the allocation policies only
      print and are left out; [print] returns the items it writes.
    - A call [mutex_.lock()] is modelled as the call it spells, also where
      it is made through a reference to [const]. *)

From Stdlib Require Import ZArith Lia List.
From stdpp Require Import base numbers option list gmap strings.

Local Open Scope Z_scope.

(** ** [size_t] *)

Definition SIZE_MOD : Z := 2 ^ 64.

Definition wrap (z : Z) : Z := z mod SIZE_MOD.

(** The string of the escape [\n]. *)
Definition newline : string := String (Ascii.ascii_of_nat 10) EmptyString.

(** ** Policies and events *)

(** The two allocation policies of the source. *)
Inductive AllocPolicy : Type :=
| MallocAllocator
| NewAllocator.

(** What a run does besides changing the state.  [EvLock m] is the call
    [mutex_.lock()] on the mutex of the [Vector] at address [m]. *)
Inductive event : Type :=
| EvLock (m : Z)
| EvUnlock (m : Z)
| EvAlloc (p : Z) (n : Z)
| EvDealloc (p : Z)
| EvDefault (p i : Z)
| EvCopy (p i : Z)
| EvMove (p i : Z)
| EvDestroy (p i : Z).

(** The data members of a [Vector] (the mutex has no state of its own in a
    sequential run; its calls are events). *)
Record vec : Type := Vec { data_ : Z; size_ : Z; capacity_ : Z }.

Section Model.

Context {T : Type}.

(** [T()] *)
Variable dflt : T.

(** [sizeof(T)] *)
Variable sizeofT : Z.

Variable AP : AllocPolicy.

(** ** The state of a run *)

Record world : Type := World {
  heap : gmap Z (list (option T));
  next_addr : Z;
  oracle : list bool;
  objs : gmap Z vec;
  trace : list event
}.

Definition set_heap (h : gmap Z (list (option T))) (w : world) : world :=
  World h (next_addr w) (oracle w) (objs w) (trace w).

Definition set_objs (o : gmap Z vec) (w : world) : world :=
  World (heap w) (next_addr w) (oracle w) o (trace w).

Definition add_event (e : event) (w : world) : world :=
  World (heap w) (next_addr w) (oracle w) (objs w) (trace w ++ [e]).

(** ** The monad of operations *)

Inductive res (A : Type) : Type :=
| Done (a : A) (w : world)
| Raise (w : world)
| Undef.

Arguments Done {A} a w.
Arguments Raise {A} w.
Arguments Undef {A}.

Definition M (A : Type) : Type := world -> res A.

Definition ret {A : Type} (a : A) : M A := fun w => Done a w.

Definition bind {A B : Type} (m : M A) (k : A -> M B) : M B :=
  fun w =>
    match m w with
    | Done a w' => k a w'
    | Raise w' => Raise w'
    | Undef => Undef
    end.

Notation "'do' x <- m ; k" := (bind m (fun x => k))
  (at level 10, x name, m at level 100, k at level 200, only parsing).

Definition throw {A : Type} : M A := fun w => Raise w.

Definition emit (e : event) : M unit := fun w => Done tt (add_event e w).

(** [for (size_t i = 0; i < n; ++i) body(i)]; no loop of the source changes
    its bound in its body. *)
Fixpoint for_loop (count : nat) (i : Z) (body : Z -> M unit) : M unit :=
  match count with
  | O => ret tt
  | S count' => do _ <- body i ; for_loop count' (wrap (i + 1)) body
  end.

Definition for_upto (n : Z) (body : Z -> M unit) : M unit :=
  for_loop (Z.to_nat n) 0 body.

(** ** The system allocator *)

(** A request for [slots] slots.  The next answer of [oracle] tells whether
    the system can satisfy it (an exhausted oracle always can).  A satisfied
    request yields a fresh block of raw slots; a refused one yields [0]. *)
Definition sys_alloc (slots : Z) : M Z :=
  fun w =>
    if hd true (oracle w) then
      Done (next_addr w)
        (World (<[next_addr w := replicate (Z.to_nat slots) None]> (heap w))
               (next_addr w + 1) (tl (oracle w)) (objs w)
               (trace w ++ [EvAlloc (next_addr w) slots]))
    else
      Done 0 (World (heap w) (next_addr w) (tl (oracle w)) (objs w) (trace w)).

(** [AllocPolicy<T>::allocate(n)].
    - [MallocAllocator]: [std::malloc(n * sizeof(T))]; the product is computed
      in [size_t], and a refusal is the null pointer, returned as it is.
    - [NewAllocator]: [new T[n]], which throws when the size overflows or the
      system refuses.  For the element types the source instantiates ([int],
      [double]) [new[]] and [delete[]] run no element code. *)
Definition allocate (n : Z) : M Z :=
  match AP with
  | MallocAllocator => sys_alloc (wrap (n * sizeofT) / sizeofT)
  | NewAllocator =>
      if SIZE_MOD <=? n * sizeofT then throw
      else do p <- sys_alloc n ; if p =? 0 then throw else ret p
  end.

(** [AllocPolicy<T>::deallocate(p)]: [std::free(p)] or [delete[] p]. *)
Definition deallocate (p : Z) : M unit :=
  fun w =>
    if p =? 0 then Done tt w
    else match heap w !! p with
         | Some _ => Done tt (add_event (EvDealloc p) (set_heap (delete p (heap w)) w))
         | None => Undef
         end.

(** ** Elements in raw storage *)

Definition in_block (b : list (option T)) (i : Z) : bool :=
  (0 <=? i) && (i <? Z.of_nat (length b)).

(** The value of the live object [p[i]]. *)
Definition load (p i : Z) : M T :=
  fun w =>
    match heap w !! p with
    | Some b =>
        if in_block b i then
          match b !! Z.to_nat i with
          | Some (Some v) => Done v w
          | _ => Undef
          end
        else Undef
    | None => Undef
    end.

(** [new (&p[i]) T(...)] with the resulting value [v]; [e] names the
    constructor that ran. *)
Definition placement_new (e : event) (p i : Z) (v : T) : M unit :=
  fun w =>
    match heap w !! p with
    | Some b =>
        if in_block b i then
          Done tt (add_event e
                     (set_heap (<[p := <[Z.to_nat i := Some v]> b]> (heap w)) w))
        else Undef
    | None => Undef
    end.

(** [p[i].~T()] *)
Definition destroy (p i : Z) : M unit :=
  fun w =>
    match heap w !! p with
    | Some b =>
        if in_block b i then
          match b !! Z.to_nat i with
          | Some (Some _) =>
              Done tt (add_event (EvDestroy p i)
                         (set_heap (<[p := <[Z.to_nat i := None]> b]> (heap w)) w))
          | _ => Undef
          end
        else Undef
    | None => Undef
    end.

(** [*r = v] through a reference to a live element. *)
Definition store (p i : Z) (v : T) : M unit :=
  fun w =>
    match heap w !! p with
    | Some b =>
        if in_block b i then
          match b !! Z.to_nat i with
          | Some (Some _) =>
              Done tt (set_heap (<[p := <[Z.to_nat i := Some v]> b]> (heap w)) w)
          | _ => Undef
          end
        else Undef
    | None => Undef
    end.

(** ** Data members *)

Definition get_obj (this : Z) : M vec :=
  fun w =>
    match objs w !! this with
    | Some v => Done v w
    | None => Undef
    end.

Definition put_obj (this : Z) (v : vec) : M unit :=
  fun w => Done tt (set_objs (<[this := v]> (objs w)) w).

Definition get {A : Type} (field : vec -> A) (this : Z) : M A :=
  do v <- get_obj this ; ret (field v).

Definition set_data_ (this p : Z) : M unit :=
  do v <- get_obj this ; put_obj this (Vec p (size_ v) (capacity_ v)).

Definition set_size_ (this n : Z) : M unit :=
  do v <- get_obj this ; put_obj this (Vec (data_ v) n (capacity_ v)).

Definition set_capacity_ (this n : Z) : M unit :=
  do v <- get_obj this ; put_obj this (Vec (data_ v) (size_ v) n).

(** Storage for a new [Vector] object at address [this], with the default
    member initialisers [data_ = nullptr], [size_ = 0], [capacity_ = 0]. *)
Definition new_object (this : Z) : M unit :=
  fun w =>
    match objs w !! this with
    | Some _ => Undef
    | None => Done tt (set_objs (<[this := Vec 0 0 0]> (objs w)) w)
    end.

Definition lock (m : Z) : M unit := emit (EvLock m).

Definition unlock (m : Z) : M unit := emit (EvUnlock m).

(** ** The member functions of [Vector] *)

(** [Vector()] *)
Definition Vector_default (this : Z) : M unit :=
  new_object this.

(** [explicit Vector(size_t initial_size)] *)
Definition Vector_sized (this initial_size : Z) : M unit :=
  do _ <- new_object this ;
  do _ <- set_size_ this initial_size ;
  do _ <- set_capacity_ this initial_size ;
  if 0 <? initial_size then
    do p <- allocate initial_size ;
    do _ <- set_data_ this p ;
    do n <- get size_ this ;
    for_upto n (fun i =>
      do d <- get data_ this ;
      placement_new (EvDefault d i) d i dflt)
  else ret tt.

(** [~Vector()] *)
Definition Vector_destroy (this : Z) : M unit :=
  do d <- get data_ this ;
  do _ <- (if d =? 0 then ret tt
   else
     do n <- get size_ this ;
     do _ <- for_upto n (fun i => do d <- get data_ this ; destroy d i) ;
     do d <- get data_ this ;
     deallocate d) ;
  fun w => Done tt (set_objs (delete this (objs w)) w).

(** The loop [new (&data_[i]) T(other.data_[i])] shared by the two copies. *)
Definition copy_elements (this other : Z) : M unit :=
  do n <- get size_ this ;
  for_upto n (fun i =>
    do src <- get data_ other ;
    do v <- load src i ;
    do d <- get data_ this ;
    placement_new (EvCopy d i) d i v).

(** [Vector(const Vector& other)] *)
Definition Vector_copy (this other : Z) : M unit :=
  do _ <- new_object this ;
  do _ <- lock this ;
  do _ <- lock other ;
  do n <- get size_ other ;
  do _ <- set_size_ this n ;
  do c <- get capacity_ other ;
  do _ <- set_capacity_ this c ;
  do c <- get capacity_ this ;
  do _ <- (if 0 <? c then
     do p <- allocate c ;
     do _ <- set_data_ this p ;
     copy_elements this other
   else ret tt) ;
  do _ <- unlock other ;
  unlock this.

(** The loop [data_[i].~T()] followed by [if (data_) deallocate(data_)]. *)
Definition clear_storage (this : Z) : M unit :=
  do n <- get size_ this ;
  do _ <- for_upto n (fun i => do d <- get data_ this ; destroy d i) ;
  do d <- get data_ this ;
  if d =? 0 then ret tt else deallocate d.

(** [Vector& operator=(const Vector& other)] *)
Definition copy_assign (this other : Z) : M unit :=
  if decide (this = other) then ret tt
  else
    do _ <- lock this ;
    do _ <- lock other ;
    do _ <- clear_storage this ;
    do n <- get size_ other ;
    do _ <- set_size_ this n ;
    do c <- get capacity_ other ;
    do _ <- set_capacity_ this c ;
    do c <- get capacity_ this ;
    do _ <- (if 0 <? c then
       do p <- allocate c ;
       do _ <- set_data_ this p ;
       copy_elements this other
     else set_data_ this 0) ;
    do _ <- unlock other ;
    unlock this.

(** The transfer shared by the two moves. *)
Definition take_over (this other : Z) : M unit :=
  do d <- get data_ other ;
  do _ <- set_data_ this d ;
  do n <- get size_ other ;
  do _ <- set_size_ this n ;
  do c <- get capacity_ other ;
  do _ <- set_capacity_ this c ;
  do _ <- set_data_ other 0 ;
  do _ <- set_size_ other 0 ;
  set_capacity_ other 0.

(** [Vector(Vector&& other) noexcept] *)
Definition Vector_move (this other : Z) : M unit :=
  do _ <- new_object this ;
  do _ <- lock this ;
  do _ <- lock other ;
  do _ <- take_over this other ;
  do _ <- unlock other ;
  unlock this.

(** [Vector& operator=(Vector&& other) noexcept] *)
Definition move_assign (this other : Z) : M unit :=
  if decide (this = other) then ret tt
  else
    do _ <- lock this ;
    do _ <- lock other ;
    do _ <- clear_storage this ;
    do _ <- take_over this other ;
    do _ <- unlock other ;
    unlock this.

(** [void reserve(size_t new_capacity)] *)
Definition reserve (this new_capacity : Z) : M unit :=
  do c <- get capacity_ this ;
  if new_capacity <=? c then ret tt
  else
    do new_data <- allocate new_capacity ;
    do n <- get size_ this ;
    do _ <- for_upto n (fun i =>
      do d <- get data_ this ;
      do v <- load d i ;
      do _ <- placement_new (EvMove new_data i) new_data i v ;
      destroy d i) ;
    do d <- get data_ this ;
    do _ <- (if d =? 0 then ret tt else deallocate d) ;
    do _ <- set_data_ this new_data ;
    set_capacity_ this new_capacity.

(** [capacity_ == 0 ? 1 : capacity_ * 2] *)
Definition new_capacity (c : Z) : Z :=
  if c =? 0 then 1 else wrap (c * 2).

(** [void push_back(const T& value)] *)
Definition push_back (this : Z) (value : T) : M unit :=
  do _ <- lock this ;
  do n <- get size_ this ;
  do c <- get capacity_ this ;
  do _ <- (if n =? c then
     reserve this (new_capacity c)
   else ret tt) ;
  do d <- get data_ this ;
  do n <- get size_ this ;
  do _ <- placement_new (EvCopy d n) d n value ;
  do _ <- set_size_ this (wrap (n + 1)) ;
  unlock this.

(** [void pop_back()] *)
Definition pop_back (this : Z) : M unit :=
  do _ <- lock this ;
  do n <- get size_ this ;
  do _ <- (if 0 <? n then
     do _ <- set_size_ this (wrap (n - 1)) ;
     do d <- get data_ this ;
     do n' <- get size_ this ;
     destroy d n'
   else ret tt) ;
  unlock this.

(** [T& operator[](size_t index)]: the reference is the pair of the block
    and the index; forming it needs the slot to exist. *)
Definition index (this i : Z) : M (Z * Z) :=
  do _ <- lock this ;
  do d <- get data_ this ;
  do r <- (fun w =>
          match heap w !! d with
          | Some b => if in_block b i then Done (d, i) w else Undef
          | None => Undef
          end) ;
  do _ <- unlock this ;
  ret r.

(** [x = v[i]] *)
Definition index_read (this i : Z) : M T :=
  do r <- index this i ; load (fst r) (snd r).

(** [v[i] = x] *)
Definition index_write (this i : Z) (x : T) : M unit :=
  do r <- index this i ; store (fst r) (snd r) x.

(** [size_t size() const] *)
Definition size (this : Z) : M Z := get size_ this.

(** [size_t capacity() const] *)
Definition capacity (this : Z) : M Z := get capacity_ this.

(** ** Output *)

(** What is inserted into [std::cout]: a string literal, an element
    ([operator<<] of [T]) or a [size_t]. *)
Inductive out_item : Type :=
| OutStr (s : string)
| OutElem (v : T)
| OutNum (n : Z).

(** A [for] loop whose body writes to the stream: the items written, in
    order. *)
Fixpoint for_loop_out (count : nat) (i : Z) (body : Z -> M (list out_item)) :
    M (list out_item) :=
  match count with
  | O => ret []
  | S count' =>
      do o <- body i ;
      do os <- for_loop_out count' (wrap (i + 1)) body ;
      ret (o ++ os)
  end.

(** [void print() const]; the result is what the call wrote. *)
Definition print (this : Z) : M (list out_item) :=
  do _ <- lock this ;
  do n <- get size_ this ;
  do elems <- for_loop_out (Z.to_nat n) 0 (fun i =>
    do d <- get data_ this ;
    do v <- load d i ;
    do n <- get size_ this ;
    ret (OutElem v :: (if i <? wrap (n - 1) then [OutStr ", "] else []))) ;
  do n <- get size_ this ;
  do c <- get capacity_ this ;
  do _ <- unlock this ;
  ret ([OutStr "["] ++ elems ++
       [OutStr "] (size: "; OutNum n; OutStr ", capacity: "; OutNum c;
        OutStr (")" +:+ newline)]).

(** ** Client programs *)

(** [for (v : vs) this.push_back(v);] *)
Fixpoint push_all (this : Z) (vs : list T) : M unit :=
  match vs with
  | [] => ret tt
  | x :: vs' => do _ <- push_back this x ; push_all this vs'
  end.

(** The mutations a client can apply to one [Vector]. *)
Inductive mutation : Type :=
| MPush (x : T)
| MPop
| MWrite (i : Z) (x : T).

Definition mutate (this : Z) (m : mutation) : M unit :=
  match m with
  | MPush x => push_back this x
  | MPop => pop_back this
  | MWrite i x => index_write this i x
  end.

Fixpoint mutate_all (this : Z) (ms : list mutation) : M unit :=
  match ms with
  | [] => ret tt
  | m :: ms' => do _ <- mutate this m ; mutate_all this ms'
  end.

End Model.

Arguments world T : clear implicits.
Arguments res T A : clear implicits.
Arguments M T A : clear implicits.
Arguments Done {T A} a w.
Arguments Raise {T A} w.
Arguments Undef {T A}.
Arguments mutation T : clear implicits.
Arguments MPush {T} x.
Arguments MPop {T}.
Arguments MWrite {T} i x.
Arguments out_item T : clear implicits.
Arguments OutStr {T} s.
Arguments OutElem {T} v.
Arguments OutNum {T} n.

(** ** Predicates and observations of the statements *)

(** The indices [0, 1, ..., n-1] of a loop. *)
Definition iota (n : nat) : list Z := Z.of_nat <$> seq 0 n.

(** The events of the relocation loop of [reserve] over [n] elements. *)
Definition move_events (p d : Z) (n : nat) : list event :=
  flat_map (fun i => [EvMove p i; EvDestroy d i]) (iota n).

Definition is_alloc (e : event) : bool :=
  match e with EvAlloc _ _ => true | _ => false end.

Definition is_copy (e : event) : bool :=
  match e with EvCopy _ _ => true | _ => false end.

(** The number of allocations, that is of growth events, in a trace. *)
Definition growths (t : list event) : nat := length (filter is_alloc t).

(** The capacity after the [k]-th growth of a [Vector] that started empty. *)
Definition doubled (k : nat) : Z :=
  match k with
  | O => 0
  | S k' => 2 ^ Z.of_nat k'
  end.

Definition is_move (e : event) : bool :=
  match e with EvMove _ _ => true | _ => false end.

Definition is_dealloc (e : event) : bool :=
  match e with EvDealloc _ => true | _ => false end.

(** The number of elements that were relocated (move-constructed into a new
    buffer), and the number of buffers that were released, in a trace. *)
Definition relocations (t : list event) : nat := length (filter is_move t).

Definition releases (t : list event) : nat := length (filter is_dealloc t).

(** The invariant of the data members that the specification states. *)
Definition state_inv (v : vec) : Prop :=
  0 <= size_ v <= capacity_ v /\ (data_ v = 0 <-> capacity_ v = 0).

Section Observations.

Context {T : Type}.

Implicit Types (w : world T) (l : list T).

(** The events a run added to the trace of [w]. *)
Definition new_events {A : Type} (w : world T) (r : res T A) : list event :=
  match r with
  | Done _ w' => drop (length (trace w)) (trace w')
  | Raise w' => drop (length (trace w)) (trace w')
  | Undef => []
  end.

(** Every live block lies below the next fresh address, and no block is at
    the null pointer. *)
Definition heap_fresh w : Prop :=
  0 < next_addr w /\ map_Forall (fun p _ => 0 < p < next_addr w) (heap w).

(** The system satisfies the next request, which is for [n] elements of
    [sizeofT] bytes and fits [size_t]. *)
Definition can_alloc (sizeofT n : Z) w : Prop :=
  hd true (oracle w) = true /\ 0 < sizeofT /\ 0 <= n /\ n * sizeofT < SIZE_MOD.

(** The system satisfies every coming request. *)
Definition all_granted w : Prop := Forall (fun a => a = true) (oracle w).

(** The [Vector] at [this] is well formed: its buffer is [d], its live
    elements are [l], in index order, and its capacity is [cap]. *)
Definition holds w (this d : Z) l (cap : Z) : Prop :=
  objs w !! this = Some (Vec d (Z.of_nat (length l)) cap) /\
  cap < SIZE_MOD /\
  ((d = 0 /\ cap = 0 /\ l = []) \/
   (d <> 0 /\ 0 < cap /\ exists rest,
      heap w !! d = Some ((Some <$> l) ++ rest) /\
      Z.of_nat (length l + length rest) = cap)).

(** The world is well formed: addresses are fresh, every [Vector] is well
    formed, and no two of them share a buffer. *)
Definition wf w : Prop :=
  heap_fresh w /\
  (forall this v, objs w !! this = Some v ->
     exists l, holds w this (data_ v) l (capacity_ v)) /\
  (forall a b va vb, objs w !! a = Some va -> objs w !! b = Some vb ->
     a <> b -> data_ va <> 0 -> data_ va <> data_ vb).

(** From [w] to [w'] only the [Vector] at [this] changed, its buffer went
    from [old] to [new], and [new] is [old], null or newly allocated. *)
Definition changes_only w w' (this old new : Z) : Prop :=
  (forall o, o <> this -> objs w' !! o = objs w !! o) /\
  (forall q, q <> old -> q <> new -> heap w' !! q = heap w !! q) /\
  (new = old \/ new = 0 \/ heap w !! new = None).

(** The result [w'] of copying a [Vector] with the live elements [l] and the
    capacity [cap] into the [Vector] at [B], when the heap before the
    allocation is [h]: no buffer for capacity [0], else a fresh buffer of
    [cap] slots that holds copies of [l]. *)
Definition copied w (h : gmap Z (list (option T))) (B : Z) l (cap : Z)
    (lock_events unlock_events : list event) (w' : world T) : Prop :=
  if decide (cap = 0) then
    w' = World h (next_addr w) (oracle w) (<[B := Vec 0 0 0]> (objs w))
               (trace w ++ lock_events ++ unlock_events)
  else
    w' = World (<[next_addr w := (Some <$> l) ++ replicate (Z.to_nat cap - length l) None]> h)
               (next_addr w + 1) (tl (oracle w))
               (<[B := Vec (next_addr w) (Z.of_nat (length l)) cap]> (objs w))
               (trace w ++ lock_events ++ [EvAlloc (next_addr w) cap] ++
                  (EvCopy (next_addr w) <$> iota (length l)) ++ unlock_events).

(** A triple for runs that may also throw or be undefined: from [P], a run
    that returns ends in [Q] and a run that throws ends in [E]. *)
Definition triple {A : Type} (P : world T -> Prop) (m : M T A)
    (Q : A -> world T -> Prop) (E : world T -> Prop) : Prop :=
  forall w, P w ->
    match m w with
    | Done a w' => Q a w'
    | Raise w' => E w'
    | Undef => True
    end.

(** The [Vector] at [A] has the data members [vA] and its buffer the
    contents [bA], as at the start, and the [Vector] at [B] does not point
    into that buffer. *)
Definition untouched (A B : Z) (vA : vec) (bA : option (list (option T))) w : Prop :=
  objs w !! A = Some vA /\ heap w !! data_ vA = bA /\ heap w !! 0 = None /\
  0 < next_addr w /\ data_ vA < next_addr w /\
  (forall vB, objs w !! B = Some vB -> data_ vB <> data_ vA \/ bA = None).

(** The pointer [p] is not the buffer of [A]. *)
Definition apart (vA : vec) (bA : option (list (option T))) (p : Z) : Prop :=
  p <> data_ vA \/ bA = None.

End Observations.

(** The elements of [l] as [print] separates them: a comma and a blank
    between two elements, nothing after the last one. *)
Fixpoint joined {T : Type} (l : list T) : list (out_item T) :=
  match l with
  | [] => []
  | x :: l' =>
      OutElem x :: match l' with [] => [] | _ :: _ => OutStr ", " :: joined l' end
  end.

(** Every [Vector] of the world satisfies the invariant of the data
    members. *)
Definition all_state_inv {T : Type} (w : world T) : Prop :=
  forall o v, objs w !! o = Some v -> state_inv v.

(** ** Lock acquisition by concurrent threads

    Under [MultiThreaded] the calls [mutex_.lock()] and [mutex_.unlock()] act
    on a [std::mutex].  A thread is the sequence of these calls that its
    operation makes; a step of thread [t] performs its next call, and a
    [lock] of a mutex that another thread holds cannot step. *)

Inductive lock_op : Type :=
| Acquire (m : Z)
| Release (m : Z).

Definition lock_ops (t : list event) : list lock_op :=
  omap (fun e => match e with
                 | EvLock m => Some (Acquire m)
                 | EvUnlock m => Some (Release m)
                 | _ => None
                 end) t.

Record cstate : Type := CState {
  held : gmap Z nat;
  threads : list (list lock_op)
}.

Definition cstep (s : cstate) (t : nat) : option cstate :=
  match threads s !! t with
  | Some (Acquire m :: rest) =>
      match held s !! m with
      | None => Some (CState (<[m := t]> (held s)) (<[t := rest]> (threads s)))
      | Some _ => None
      end
  | Some (Release m :: rest) =>
      Some (CState (delete m (held s)) (<[t := rest]> (threads s)))
  | _ => None
  end.

Fixpoint csteps (s : cstate) (schedule : list nat) : option cstate :=
  match schedule with
  | [] => Some s
  | t :: schedule' =>
      match cstep s t with
      | Some s' => csteps s' schedule'
      | None => None
      end
  end.

Definition finished (s : cstate) : bool :=
  forallb (fun ops => match ops with [] => true | _ => false end) (threads s).

(** Some thread has calls left and no thread can step. *)
Definition deadlocked (s : cstate) : bool :=
  negb (finished s) &&
  forallb (fun t => match cstep s t with None => true | Some _ => false end)
          (seq 0 (length (threads s))).

(** The order in which a thread acquires mutexes. *)
Definition acquisitions (ops : list lock_op) : list Z :=
  omap (fun o => match o with Acquire m => Some m | Release _ => None end) ops.

(** The calls on the mutex [m] of a thread that runs [k] operations, each
    of which locks [m] at its start and unlocks it at its end (as
    [push_back], [pop_back] and [operator[]] do on their own instance). *)
Fixpoint calls (m : Z) (k : nat) : list lock_op :=
  match k with
  | O => []
  | S k' => Acquire m :: Release m :: calls m k'
  end.

(** The mutex [m] is free and every thread is between two operations, or
    one thread is inside an operation and holds [m]. *)
Definition one_mutex_inv (m : Z) (s : cstate) : Prop :=
  (held s = ∅ /\
   forall t ops, threads s !! t = Some ops -> exists k, ops = calls m k) \/
  (exists t0 k0,
     held s = {[m := t0]} /\ threads s !! t0 = Some (Release m :: calls m k0) /\
     forall t ops, t <> t0 -> threads s !! t = Some ops -> exists k, ops = calls m k).

(** ** The container at [int]

    The element type of [testSingleThreaded]: [T = int], four bytes. *)

Definition int_size : Z := 4.

(** No [Vector], no block, and a system that satisfies every request. *)
Definition w_init : world Z := World ∅ 1 [] ∅ [].

(** A default-constructed [Vector] and nothing else. *)
Definition w_empty : world Z := World ∅ 1 [] {[100 := Vec 0 0 0]} [].

(** A default-constructed [Vector] at address [100], and a system that
    refuses the next request. *)
Definition w_refused : world Z :=
  World ∅ 1 [false] {[100 := Vec 0 0 0]} [].

(** [v1] of [testSingleThreaded] after its three [push_back] calls. *)
Definition w_v1 : world Z :=
  World {[3 := [Some 10; Some 20; Some 30; None]]} 4 [] {[100 := Vec 3 3 4]} [].

(** The same [Vector] when the system refuses the next request. *)
Definition w_v1_refused : world Z :=
  World {[3 := [Some 10; Some 20; Some 30; None]]} 4 [false] {[100 := Vec 3 3 4]} [].

(** A [Vector] whose buffer of two slots is full. *)
Definition w_full : world Z :=
  World {[1 := [Some 10; Some 20]]} 2 [] {[100 := Vec 1 2 2]} [].

(** Two populated [Vector]s, [A] at [100] and [B] at [200]. *)
Definition w_two : world Z :=
  World {[1 := [Some 10; Some 20]; 2 := [Some 30]]} 3 []
        {[100 := Vec 1 2 2; 200 := Vec 2 1 1]} [].

(** An empty [Vector] with reserved storage, and a system that refuses the
    next request. *)
Definition w_reserved_refused : world Z :=
  World {[1 := [None; None; None; None]]} 2 [false] {[100 := Vec 1 0 4]} [].

(** [w_full] and [w_two] when the system refuses the next request. *)
Definition w_full_refused : world Z :=
  World {[1 := [Some 10; Some 20]]} 2 [false] {[100 := Vec 1 2 2]} [].

Definition w_two_refused : world Z :=
  World {[1 := [Some 10; Some 20]; 2 := [Some 30]]} 3 [false]
        {[100 := Vec 1 2 2; 200 := Vec 2 1 1]} [].

(** * Properties *)

Section Proofs.

Context {T : Type}.
Variable dflt : T.
Variable sizeofT : Z.
Variable AP : AllocPolicy.

Implicit Types (w : world T) (v : vec) (l : list T) (b : list (option T)).

(** ** The monad and [size_t] *)

Lemma wrap_small z : 0 ≤ z < SIZE_MOD → wrap z = z.
Proof. intros H. unfold wrap. by apply Z.mod_small. Qed.

Lemma bind_Done {A B} (m : M T A) (k : A → M T B) w a w' :
  m w = Done a w' → bind m k w = k a w'.
Proof. intros H. unfold bind. by rewrite H. Qed.

Lemma bind_assoc {A B C} (m : M T A) (k : A → M T B) (k' : B → M T C) w :
  bind (bind m k) k' w = bind m (λ a, bind (k a) k') w.
Proof. unfold bind. by destruct (m w). Qed.

Lemma bind_ext {A B} (m : M T A) (k k' : A → M T B) w :
  (∀ a w', k a w' = k' a w') → bind m k w = bind m k' w.
Proof. intros H. unfold bind. destruct (m w); [apply H|done|done]. Qed.

Lemma Done_world_eq {A} (a : A) h1 h2 n o ob1 ob2 t1 t2 :
  h1 = h2 → ob1 = ob2 → t1 = t2 →
  Done (T:=T) a (World h1 n o ob1 t1) = Done a (World h2 n o ob2 t2).
Proof. by intros -> -> ->. Qed.

Ltac map_solve :=
  apply (map_eq (M:=gmap Z)); intros ?;
  repeat (rewrite lookup_insert || rewrite lookup_delete);
  repeat case_decide; subst; try congruence; try done.

Ltac look :=
  cbn [objs heap set_objs set_heap add_event];
  repeat (rewrite lookup_insert_ne by done);
  first [apply lookup_insert_eq | eassumption].

(** Solves the first two parts of [changes_only] for an explicit world. *)
Ltac frame_solve :=
  split;
  [ intros ? ?; cbn [objs set_objs add_event set_heap];
    by rewrite ?lookup_insert_ne by done
  | split;
    [ intros ? ? ?; cbn [heap set_objs add_event set_heap];
      by rewrite ?lookup_insert_ne, ?lookup_delete_ne by done
    | ] ].

(** ** The steps of the primitives *)

Lemma get_Done {A} (f : vec → A) this w v :
  objs w !! this = Some v → get f this w = Done (f v) w.
Proof. intros H. unfold get, bind, get_obj. by rewrite H. Qed.

Lemma set_data_Done this p w v :
  objs w !! this = Some v →
  set_data_ this p w = Done tt (set_objs (<[this := Vec p (size_ v) (capacity_ v)]> (objs w)) w).
Proof. intros H. unfold set_data_, bind, get_obj, put_obj. by rewrite H. Qed.

Lemma set_size_Done this n w v :
  objs w !! this = Some v →
  set_size_ this n w = Done tt (set_objs (<[this := Vec (data_ v) n (capacity_ v)]> (objs w)) w).
Proof. intros H. unfold set_size_, bind, get_obj, put_obj. by rewrite H. Qed.

Lemma set_capacity_Done this n w v :
  objs w !! this = Some v →
  set_capacity_ this n w = Done tt (set_objs (<[this := Vec (data_ v) (size_ v) n]> (objs w)) w).
Proof. intros H. unfold set_capacity_, bind, get_obj, put_obj. by rewrite H. Qed.

Lemma new_object_Done this w :
  objs w !! this = None →
  new_object this w = Done tt (set_objs (<[this := Vec 0 0 0]> (objs w)) w).
Proof. intros H. unfold new_object. by rewrite H. Qed.

Lemma lock_Done this w : lock this w = Done tt (add_event (EvLock this) w).
Proof. done. Qed.

Lemma unlock_Done this w : unlock this w = Done tt (add_event (EvUnlock this) w).
Proof. done. Qed.

Lemma in_block_true b i : (i < length b)%nat → in_block b (Z.of_nat i) = true.
Proof. intros H. unfold in_block. apply andb_true_iff. split; [apply Z.leb_le|apply Z.ltb_lt]; lia. Qed.

Lemma load_Done w p b i x :
  heap w !! p = Some b → b !! i = Some (Some x) →
  load p (Z.of_nat i) w = Done x w.
Proof.
  intros Hp Hi. unfold load. rewrite Hp.
  rewrite in_block_true by (eapply lookup_lt_Some; eauto).
  by rewrite Nat2Z.id, Hi.
Qed.

Lemma placement_new_Done e w p b i x :
  heap w !! p = Some b → (i < length b)%nat →
  placement_new e p (Z.of_nat i) x w =
    Done tt (add_event e (set_heap (<[p := <[i := Some x]> b]> (heap w)) w)).
Proof.
  intros Hp Hi. unfold placement_new. rewrite Hp.
  rewrite in_block_true by done. by rewrite Nat2Z.id.
Qed.

Lemma destroy_Done w p b i x :
  heap w !! p = Some b → b !! i = Some (Some x) →
  destroy p (Z.of_nat i) w =
    Done tt (add_event (EvDestroy p (Z.of_nat i)) (set_heap (<[p := <[i := None]> b]> (heap w)) w)).
Proof.
  intros Hp Hi. unfold destroy. rewrite Hp.
  rewrite in_block_true by (eapply lookup_lt_Some; eauto).
  by rewrite Nat2Z.id, Hi.
Qed.

Lemma store_Done w p b i x y :
  heap w !! p = Some b → b !! i = Some (Some y) →
  store p (Z.of_nat i) x w = Done tt (set_heap (<[p := <[i := Some x]> b]> (heap w)) w).
Proof.
  intros Hp Hi. unfold store. rewrite Hp.
  rewrite in_block_true by (eapply lookup_lt_Some; eauto).
  by rewrite Nat2Z.id, Hi.
Qed.

Lemma deallocate_Done w p b :
  heap w !! p = Some b → p ≠ 0 →
  deallocate p w = Done tt (add_event (EvDealloc p) (set_heap (delete p (heap w)) w)).
Proof.
  intros Hp Hne. unfold deallocate.
  destruct (Z.eqb_spec p 0) as [?|_]; [done|]. by rewrite Hp.
Qed.

Lemma allocate_Done n w :
  can_alloc sizeofT n w → 0 < next_addr w →
  allocate sizeofT AP n w =
    Done (next_addr w)
      (World (<[next_addr w := replicate (Z.to_nat n) None]> (heap w))
             (next_addr w + 1) (tl (oracle w)) (objs w)
             (trace w ++ [EvAlloc (next_addr w) n])).
Proof.
  intros (Ho & Hs & Hn & Hfit) Hpos. unfold allocate. destruct AP.
  - unfold sys_alloc. rewrite Ho. rewrite wrap_small by nia.
    by rewrite Z.div_mul by lia.
  - destruct (Z.leb_spec SIZE_MOD (n * sizeofT)) as [?|_]; [lia|].
    unfold bind, sys_alloc. rewrite Ho.
    destruct (Z.eqb_spec (next_addr w) 0) as [?|_]; [lia|]. done.
Qed.

(** ** Fresh addresses *)

Lemma heap_fresh_lookup w p b :
  heap_fresh w → heap w !! p = Some b → 0 < p < next_addr w.
Proof. intros [_ H] Hp. exact (H p b Hp). Qed.

Lemma heap_fresh_next w : heap_fresh w → heap w !! next_addr w = None.
Proof.
  intros Hf. destruct (heap w !! next_addr w) as [b|] eqn:E; [|done].
  apply (heap_fresh_lookup _ _ _ Hf) in E. lia.
Qed.

Lemma heap_fresh_null w : heap_fresh w → heap w !! 0 = None.
Proof.
  intros Hf. destruct (heap w !! 0) as [b|] eqn:E; [|done].
  apply (heap_fresh_lookup _ _ _ Hf) in E. lia.
Qed.

Lemma heap_fresh_grow w d b o ob t :
  heap_fresh w →
  heap_fresh (World (<[next_addr w := b]> (delete d (heap w))) (next_addr w + 1) o ob t).
Proof.
  intros [Hpos Hall]. split; cbn [next_addr heap]; [lia|].
  apply map_Forall_insert_2; [lia|].
  apply map_Forall_delete. eapply map_Forall_impl; [exact Hall|].
  cbn. intros. lia.
Qed.

Lemma heap_fresh_update w d b b' o ob t :
  heap_fresh w → heap w !! d = Some b →
  heap_fresh (World (<[d := b']> (heap w)) (next_addr w) o ob t).
Proof.
  intros [Hpos Hall] Hd. split; [done|]. cbn [heap next_addr].
  apply map_Forall_insert_2; [|done]. exact (Hall d _ Hd).
Qed.

Lemma heap_fresh_delete w d o ob t :
  heap_fresh w → heap_fresh (World (delete d (heap w)) (next_addr w) o ob t).
Proof.
  intros [Hpos Hall]. split; [done|]. cbn [heap next_addr]. by apply map_Forall_delete.
Qed.

Lemma heap_fresh_alloc w b o ob t :
  heap_fresh w →
  heap_fresh (World (<[next_addr w := b]> (heap w)) (next_addr w + 1) o ob t).
Proof.
  intros [Hpos Hall]. split; cbn [next_addr heap]; [lia|].
  apply map_Forall_insert_2; [lia|].
  eapply map_Forall_impl; [exact Hall|]. cbn. intros. lia.
Qed.

(** Releasing the buffer [dB] leaves the buffer [dA] of another instance. *)
Lemma delete_other w dA dB :
  heap_fresh w → (dA ≠ 0 → dA ≠ dB) → delete dB (heap w) !! dA = heap w !! dA.
Proof.
  intros Hfresh Hshare. destruct (decide (dA = 0)) as [->|Hd].
  - rewrite (heap_fresh_null w Hfresh).
    destruct (decide (dB = 0)) as [->|?];
      [apply lookup_delete_eq | rewrite lookup_delete_ne by done; by apply heap_fresh_null].
  - rewrite lookup_delete_ne; [done|]. intros ->. by apply Hshare.
Qed.

(** ** Loops *)

Lemma for_loop_from (I : nat → world T → Prop) (body : Z → M T unit) (c : nat) :
  Z.of_nat c < SIZE_MOD →
  (∀ j w, (j < c)%nat → I j w → ∃ w', body (Z.of_nat j) w = Done tt w' ∧ I (S j) w') →
  ∀ r j w, (j + r = c)%nat → I j w →
    ∃ w', for_loop r (Z.of_nat j) body w = Done tt w' ∧ I c w'.
Proof.
  intros Hc Hbody r. induction r as [|r IH]; intros j w Hj HI.
  - exists w. replace c with j by lia. done.
  - destruct (Hbody j w) as (w1 & Hw1 & HI1); [lia | done |].
    destruct (IH (S j) w1) as (w2 & Hw2 & HI2); [lia | done |].
    exists w2. split; [|done]. simpl.
    rewrite (bind_Done _ _ _ _ _ Hw1).
    rewrite wrap_small by lia.
    by replace (Z.of_nat j + 1) with (Z.of_nat (S j)) by lia.
Qed.

Lemma for_upto_steps (F : nat → world T) (body : Z → M T unit) (c : nat) :
  Z.of_nat c < SIZE_MOD →
  (∀ j, (j < c)%nat → body (Z.of_nat j) (F j) = Done tt (F (S j))) →
  for_upto (Z.of_nat c) body (F 0%nat) = Done tt (F c).
Proof.
  intros Hc Hbody. unfold for_upto. rewrite Nat2Z.id.
  destruct (for_loop_from (λ j w, w = F j) body c Hc) with (r := c) (j := 0%nat) (w := F 0%nat)
    as (w' & Hrun & ->); [|lia|done|done].
  intros j w Hj ->. eauto.
Qed.

Lemma for_upto_0 (body : Z → M T unit) w : for_upto 0 body w = Done tt w.
Proof. done. Qed.

Lemma lookup_prefix_drop {A} (pre b : list A) (j : nat) :
  length pre = j → (pre ++ drop j b) !! j = b !! j.
Proof.
  intros <-. rewrite lookup_app_r by lia. rewrite Nat.sub_diag, lookup_drop. f_equal. lia.
Qed.

Lemma insert_prefix_drop {A} (pre b : list A) (j : nat) (y : A) :
  length pre = j → (j < length b)%nat →
  <[j := y]> (pre ++ drop j b) = (pre ++ [y]) ++ drop (S j) b.
Proof.
  intros <- Hlt. destruct (lookup_lt_is_Some_2 b (length pre) Hlt) as [x Hx].
  rewrite insert_app_r_alt by lia. rewrite Nat.sub_diag.
  rewrite (drop_S _ _ _ Hx). simpl. by rewrite <- app_assoc.
Qed.

Lemma iota_S n : iota (S n) = iota n ++ [Z.of_nat n].
Proof. unfold iota. rewrite seq_S. by rewrite fmap_app. Qed.

Lemma destroy_loop this w v l rest :
  objs w !! this = Some v →
  heap w !! data_ v = Some ((Some <$> l) ++ rest) →
  Z.of_nat (length l) < SIZE_MOD →
  for_upto (Z.of_nat (length l)) (λ i, bind (get data_ this) (λ d, destroy d i)) w =
    Done tt (World (<[data_ v := replicate (length l) None ++ rest]> (heap w))
                   (next_addr w) (oracle w) (objs w)
                   (trace w ++ (EvDestroy (data_ v) <$> iota (length l)))).
Proof.
  intros Hobj Hblk Hlen. set (b := (Some <$> l) ++ rest) in *.
  pose (F := λ j : nat,
    World (<[data_ v := replicate j None ++ drop j b]> (heap w))
          (next_addr w) (oracle w) (objs w)
          (trace w ++ (EvDestroy (data_ v) <$> iota j))).
  assert (F 0%nat = w) as HF0.
  { unfold F. simpl. rewrite drop_0, insert_id by done. rewrite app_nil_r. by destruct w. }
  assert (F (length l) = World (<[data_ v := replicate (length l) None ++ rest]> (heap w))
                   (next_addr w) (oracle w) (objs w)
                   (trace w ++ (EvDestroy (data_ v) <$> iota (length l)))) as HFn.
  { unfold F, b. f_equal. f_equal. f_equal.
    rewrite drop_app_length'; [done|by rewrite length_fmap]. }
  rewrite <- HFn, <- HF0 at 1. apply for_upto_steps; [done|].
  intros j Hj. destruct (lookup_lt_is_Some_2 l j Hj) as [x Hx].
  erewrite bind_Done by (apply get_Done; exact Hobj).
  erewrite destroy_Done.
  2:{ simpl. apply lookup_insert_eq. }
  2:{ rewrite lookup_prefix_drop by apply length_replicate.
      unfold b. rewrite lookup_app_l by (rewrite length_fmap; lia).
      rewrite list_lookup_fmap, Hx. done. }
  unfold F, add_event, set_heap. cbn [heap next_addr oracle objs trace].
  rewrite insert_insert_eq, iota_S, fmap_app, app_assoc.
  rewrite insert_prefix_drop; [| apply length_replicate |].
  2:{ unfold b. rewrite length_app, length_fmap. lia. }
  by rewrite replicate_S_end.
Qed.

Lemma move_loop this w v p l rest bn :
  objs w !! this = Some v →
  heap w !! data_ v = Some ((Some <$> l) ++ rest) →
  heap w !! p = Some bn → p ≠ data_ v →
  (length l ≤ length bn)%nat →
  Z.of_nat (length l) < SIZE_MOD →
  for_upto (Z.of_nat (length l))
    (λ i, bind (get data_ this) (λ d, bind (load d i) (λ x,
            bind (placement_new (EvMove p i) p i x) (λ _, destroy d i)))) w =
    Done tt (World (<[data_ v := replicate (length l) None ++ rest]>
                      (<[p := (Some <$> l) ++ drop (length l) bn]> (heap w)))
                   (next_addr w) (oracle w) (objs w)
                   (trace w ++ move_events p (data_ v) (length l))).
Proof.
  intros Hobj Hblk Hnew Hne Hfit Hlen. set (b := (Some <$> l) ++ rest) in *.
  set (d := data_ v) in *.
  pose (F := λ j : nat,
    World (<[d := replicate j None ++ drop j b]>
             (<[p := (Some <$> take j l) ++ drop j bn]> (heap w)))
          (next_addr w) (oracle w) (objs w)
          (trace w ++ move_events p d j)).
  assert (F 0%nat = w) as HF0.
  { unfold F. simpl. rewrite !drop_0. rewrite (insert_id (heap w) p) by done.
    rewrite insert_id by done. rewrite app_nil_r. by destruct w. }
  assert (F (length l) = World (<[d := replicate (length l) None ++ rest]>
                      (<[p := (Some <$> l) ++ drop (length l) bn]> (heap w)))
                   (next_addr w) (oracle w) (objs w)
                   (trace w ++ move_events p d (length l))) as HFn.
  { unfold F, b. rewrite firstn_all.
    rewrite drop_app_length'; [done|by rewrite length_fmap]. }
  rewrite <- HFn, <- HF0 at 1. apply for_upto_steps; [done|].
  intros j Hj. destruct (lookup_lt_is_Some_2 l j Hj) as [x Hx].
  assert (b !! j = Some (Some x)) as Hbj.
  { unfold b. rewrite lookup_app_l by (rewrite length_fmap; lia).
    by rewrite list_lookup_fmap, Hx. }
  erewrite bind_Done by (apply get_Done; exact Hobj).
  erewrite bind_Done.
  2:{ eapply load_Done; [apply lookup_insert_eq|].
      rewrite lookup_prefix_drop by apply length_replicate. exact Hbj. }
  erewrite bind_Done.
  2:{ eapply placement_new_Done.
      - unfold F; cbn [heap]. rewrite lookup_insert_ne by done. apply lookup_insert_eq.
      - rewrite length_app, length_fmap, length_take, length_drop. lia. }
  erewrite destroy_Done.
  2:{ unfold F; cbn [heap add_event set_heap]. rewrite lookup_insert_ne by done. apply lookup_insert_eq. }
  2:{ rewrite lookup_prefix_drop by apply length_replicate. exact Hbj. }
  unfold F, add_event, set_heap. cbn [heap next_addr oracle objs trace].
  rewrite (insert_insert_ne _ p d) by done.
  rewrite insert_insert_eq. rewrite (insert_insert_eq _ p).
  rewrite (insert_prefix_drop (replicate j None)); [| apply length_replicate |].
  2:{ unfold b. rewrite length_app, length_fmap. lia. }
  rewrite (insert_prefix_drop (Some <$> take j l)); [| | lia].
  2:{ rewrite length_fmap, length_take. lia. }
  rewrite (take_S_r _ _ _ Hx), fmap_app, replicate_S_end.
  f_equal. unfold move_events. rewrite iota_S, flat_map_app. simpl.
  by rewrite <- !app_assoc.
Qed.

Lemma copy_elements_Done this other w vt vo l rest bn :
  objs w !! this = Some vt → objs w !! other = Some vo →
  size_ vt = Z.of_nat (length l) →
  heap w !! data_ vo = Some ((Some <$> l) ++ rest) →
  heap w !! data_ vt = Some bn → data_ vt ≠ data_ vo →
  (length l ≤ length bn)%nat → Z.of_nat (length l) < SIZE_MOD →
  copy_elements this other w =
    Done tt (World (<[data_ vt := (Some <$> l) ++ drop (length l) bn]> (heap w))
                   (next_addr w) (oracle w) (objs w)
                   (trace w ++ (EvCopy (data_ vt) <$> iota (length l)))).
Proof.
  intros Ht Ho Hsz Hsrc Hdst Hne Hfit Hlen. unfold copy_elements.
  erewrite bind_Done by (apply get_Done; exact Ht). rewrite Hsz.
  set (b := (Some <$> l) ++ rest) in *. set (d := data_ vt) in *.
  pose (F := λ j : nat,
    World (<[d := (Some <$> take j l) ++ drop j bn]> (heap w))
          (next_addr w) (oracle w) (objs w)
          (trace w ++ (EvCopy d <$> iota j))).
  assert (F 0%nat = w) as HF0.
  { unfold F. simpl. rewrite drop_0, insert_id by done. rewrite app_nil_r. by destruct w. }
  assert (F (length l) = World (<[d := (Some <$> l) ++ drop (length l) bn]> (heap w))
                   (next_addr w) (oracle w) (objs w)
                   (trace w ++ (EvCopy d <$> iota (length l)))) as HFn.
  { unfold F. by rewrite firstn_all. }
  rewrite <- HFn, <- HF0 at 1. apply for_upto_steps; [done|].
  intros j Hj. destruct (lookup_lt_is_Some_2 l j Hj) as [x Hx].
  assert (b !! j = Some (Some x)) as Hbj.
  { unfold b. rewrite lookup_app_l by (rewrite length_fmap; lia).
    by rewrite list_lookup_fmap, Hx. }
  erewrite bind_Done by (apply get_Done; exact Ho).
  erewrite bind_Done.
  2:{ eapply load_Done; [|exact Hbj]. unfold F. cbn [heap]. by rewrite lookup_insert_ne. }
  erewrite bind_Done by (apply get_Done; exact Ht). fold d.
  erewrite placement_new_Done.
  2:{ unfold F. cbn [heap]. apply lookup_insert_eq. }
  2:{ rewrite length_app, length_fmap, length_take, length_drop. lia. }
  unfold F, add_event, set_heap. cbn [heap next_addr oracle objs trace].
  rewrite insert_insert_eq.
  rewrite (insert_prefix_drop (Some <$> take j l)); [| | lia].
  2:{ rewrite length_fmap, length_take. lia. }
  rewrite (take_S_r _ _ _ Hx), fmap_app, iota_S, fmap_app, app_assoc. done.
Qed.

Lemma default_loop this w v b n :
  objs w !! this = Some v → heap w !! data_ v = Some b →
  n = Z.of_nat (length b) → n < SIZE_MOD →
  for_upto n
    (λ i, bind (get data_ this) (λ d, placement_new (EvDefault d i) d i dflt)) w =
    Done tt (World (<[data_ v := replicate (length b) (Some dflt)]> (heap w))
                   (next_addr w) (oracle w) (objs w)
                   (trace w ++ (EvDefault (data_ v) <$> iota (length b)))).
Proof.
  intros Hobj Hblk -> Hlen. set (d := data_ v) in *.
  pose (F := λ j : nat,
    World (<[d := replicate j (Some dflt) ++ drop j b]> (heap w))
          (next_addr w) (oracle w) (objs w)
          (trace w ++ (EvDefault d <$> iota j))).
  assert (F 0%nat = w) as HF0.
  { unfold F. simpl. rewrite drop_0, insert_id by done. rewrite app_nil_r. by destruct w. }
  assert (F (length b) = World (<[d := replicate (length b) (Some dflt)]> (heap w))
                   (next_addr w) (oracle w) (objs w)
                   (trace w ++ (EvDefault d <$> iota (length b)))) as HFn.
  { unfold F. by rewrite drop_all, app_nil_r. }
  rewrite <- HFn, <- HF0 at 1. apply for_upto_steps; [done|].
  intros j Hj.
  erewrite bind_Done by (apply get_Done; exact Hobj). fold d.
  erewrite placement_new_Done.
  2:{ unfold F. cbn [heap]. apply lookup_insert_eq. }
  2:{ rewrite length_app, length_replicate, length_drop. lia. }
  unfold F, add_event, set_heap. cbn [heap next_addr oracle objs trace].
  rewrite insert_insert_eq.
  rewrite insert_prefix_drop; [|apply length_replicate|done].
  by rewrite <- replicate_S_end, iota_S, fmap_app, app_assoc.
Qed.

(** ** Events *)

Lemma growths_app t1 t2 : growths (t1 ++ t2) = (growths t1 + growths t2)%nat.
Proof. unfold growths. by rewrite filter_app, length_app. Qed.

Lemma growths_move_events p d n : growths (move_events p d n) = 0%nat.
Proof.
  unfold move_events. induction (iota n) as [|i js IH]; [done|].
  simpl. done.
Qed.

Lemma no_copy_destroys d n : filter is_copy (EvDestroy d <$> iota n) = [].
Proof.
  induction (iota n) as [|i js IH]; [done|]. cbn [fmap list_fmap].
  rewrite filter_cons_False; [exact IH|]. cbn. tauto.
Qed.

Lemma new_events_app {A} (a : A) w w' evs :
  trace w' = trace w ++ evs → new_events w (Done a w') = evs.
Proof. intros H. cbn [new_events]. by rewrite H, drop_app_length. Qed.

Lemma lock_ops_app t1 t2 : lock_ops (t1 ++ t2) = lock_ops t1 ++ lock_ops t2.
Proof. apply omap_app. Qed.

Lemma lock_ops_elements (f : Z → event) (js : list Z) :
  (∀ j, lock_ops [f j] = []) → lock_ops (f <$> js) = [].
Proof.
  intros Hf. induction js as [|j js IH]; [done|].
  change (f <$> j :: js) with ([f j] ++ (f <$> js)).
  by rewrite lock_ops_app, Hf, IH.
Qed.

Lemma lock_ops_dealloc d :
  lock_ops (if decide (d = 0) then [] else [EvDealloc d]) = [].
Proof. by case_decide. Qed.

(** ** Well-formed instances *)

Lemma holds_frame w w' this d l cap :
  holds w this d l cap →
  objs w' !! this = objs w !! this → heap w' !! d = heap w !! d →
  holds w' this d l cap.
Proof.
  intros (Hobj & Hcap & Hshape) Ho Hh. split; [by rewrite Ho|]. split; [done|].
  destruct Hshape as [?|(Hd & Hpos & rest & Hblk & Hlen)]; [by left|right].
  split; [done|]. split; [done|]. exists rest. by rewrite Hh.
Qed.

Lemma holds_after_grow this n w d l cap :
  holds w this d l cap → heap_fresh w → cap < n < SIZE_MOD →
  ∀ o t,
  let w' := World (<[next_addr w := (Some <$> l) ++ replicate (Z.to_nat n - length l) None]>
                (delete d (heap w)))
             (next_addr w + 1) o
             (<[this := Vec (next_addr w) (Z.of_nat (length l)) n]> (objs w)) t in
  holds w' this (next_addr w) l n ∧ heap_fresh w'.
Proof.
  intros (Hobj & Hcap & Hshape) Hfresh Hn o t w'. split.
  - assert (Z.of_nat (length l) ≤ cap).
    { destruct Hshape as [(_ & -> & ->)|(_ & _ & rest & _ & <-)]; [done|lia]. }
    split; [apply lookup_insert_eq|]. split; [lia|]. right.
    split; [destruct Hfresh; lia|]. split; [lia|].
    exists (replicate (Z.to_nat n - length l) None). split; [apply lookup_insert_eq|].
    rewrite length_replicate. lia.
  - by apply heap_fresh_grow.
Qed.

(** ** The member functions, step by step *)

Lemma Vector_default_Done this w :
  objs w !! this = None →
  Vector_default this w = Done tt (set_objs (<[this := Vec 0 0 0]> (objs w)) w).
Proof. intros H. unfold Vector_default, new_object. by rewrite H. Qed.

Lemma Vector_sized_Done this n w :
  objs w !! this = None → heap_fresh w → 0 ≤ n < SIZE_MOD →
  (0 < n → can_alloc sizeofT n w) →
  ∃ w' d,
    Vector_sized dflt sizeofT AP this n w = Done tt w' ∧
    holds w' this d (replicate (Z.to_nat n) dflt) n ∧ heap_fresh w' ∧
    changes_only w w' this 0 d.
Proof.
  intros Hnew Hfresh Hn Halloc. unfold Vector_sized.
  erewrite bind_Done by (by apply new_object_Done).
  erewrite bind_Done by (apply set_size_Done; look).
  erewrite bind_Done by (apply set_capacity_Done; look).
  cbn [data_ size_ capacity_].
  destruct (Z.ltb_spec 0 n) as [Hpos|Hz].
  - erewrite bind_Done by (apply allocate_Done; [by apply Halloc|apply Hfresh]).
    cbn [set_objs heap next_addr oracle objs trace]. set (p := next_addr w).
    erewrite bind_Done by (apply set_data_Done; look).
    erewrite bind_Done by (apply get_Done; look).
    cbn [data_ size_ capacity_].
    erewrite (default_loop this _ (Vec p n n)); cbn [data_ set_objs objs heap];
      [|look|apply lookup_insert_eq|rewrite length_replicate; lia|lia].
    rewrite length_replicate.
    eexists _, p. split; [reflexivity|]. split; [|split].
    + split; [cbn [objs]; rewrite length_replicate, Z2Nat.id by lia; look|].
      split; [lia|]. right. split; [destruct Hfresh; lia|]. split; [done|].
      exists []. split; [cbn [heap]; rewrite insert_insert_eq, app_nil_r|].
      * rewrite lookup_insert_eq. by rewrite fmap_replicate.
      * rewrite length_replicate. cbn [length]. lia.
    + cbn [heap]. rewrite insert_insert_eq. by apply heap_fresh_alloc.
    + frame_solve. right; right. by apply heap_fresh_next.
  - assert (n = 0) as -> by lia. unfold ret.
    eexists _, 0. split; [reflexivity|]. split; [|split; [done|]].
    + split; [cbn; look|]. split; [lia|]. by left.
    + frame_solve. by left.
Qed.

Lemma reserve_noop this n w v :
  objs w !! this = Some v → n ≤ capacity_ v → reserve sizeofT AP this n w = Done tt w.
Proof.
  intros Hobj Hle. unfold reserve.
  erewrite bind_Done by (apply get_Done; exact Hobj).
  by destruct (Z.leb_spec n (capacity_ v)) as [_|?]; [|lia].
Qed.

Lemma reserve_grow this n w d l cap :
  holds w this d l cap → heap_fresh w → can_alloc sizeofT n w → cap < n →
  reserve sizeofT AP this n w =
    Done tt
      (World (<[next_addr w := (Some <$> l) ++ replicate (Z.to_nat n - length l) None]>
                (delete d (heap w)))
             (next_addr w + 1) (tl (oracle w))
             (<[this := Vec (next_addr w) (Z.of_nat (length l)) n]> (objs w))
             (trace w ++ [EvAlloc (next_addr w) n] ++ move_events (next_addr w) d (length l)
                ++ (if decide (d = 0) then [] else [EvDealloc d]))).
Proof.
  intros (Hobj & Hcap & Hshape) Hfresh Halloc Hlt. unfold reserve.
  erewrite bind_Done by (apply get_Done; exact Hobj). cbn [capacity_].
  destruct (Z.leb_spec n cap) as [?|_]; [lia|].
  erewrite bind_Done by (apply allocate_Done; [done|apply Hfresh]).
  erewrite bind_Done by (apply get_Done; exact Hobj). cbn [size_].
  set (p := next_addr w) in *.
  destruct Hshape as [(-> & -> & ->)|(Hd & Hpos & rest & Hblk & Hlen)].
  - cbn [length]. change (Z.of_nat 0) with 0. erewrite bind_Done by apply for_upto_0.
    erewrite bind_Done by (apply get_Done; exact Hobj). cbn [data_ Z.eqb].
    erewrite bind_Done by reflexivity.
    erewrite bind_Done by (apply set_data_Done; exact Hobj).
    erewrite set_capacity_Done by (cbn [objs set_objs]; apply lookup_insert_eq).
    unfold set_objs. cbn [heap next_addr oracle objs trace data_ size_ capacity_ length].
    rewrite insert_insert_eq.
    rewrite delete_id by (by apply heap_fresh_null).
    rewrite Nat.sub_0_r. rewrite decide_True by done. done.
  - assert (p ≠ d) as Hpd.
    { apply (heap_fresh_lookup _ _ _ Hfresh) in Hblk. unfold p. lia. }
    erewrite bind_Done.
    2:{ apply (move_loop this _ (Vec d (Z.of_nat (length l)) cap) p l rest
                 (replicate (Z.to_nat n) None)); cbn [objs heap data_].
        - done.
        - by rewrite lookup_insert_ne.
        - apply lookup_insert_eq.
        - done.
        - rewrite length_replicate. lia.
        - lia. }
    cbn [data_].
    erewrite bind_Done by (apply get_Done; exact Hobj). cbn [data_].
    destruct (Z.eqb_spec d 0) as [?|_]; [done|].
    erewrite bind_Done.
    2:{ eapply deallocate_Done; [|done]. cbn [heap]. apply lookup_insert_eq. }
    erewrite bind_Done by (apply set_data_Done; exact Hobj).
    erewrite set_capacity_Done by (cbn [objs set_objs add_event set_heap]; apply lookup_insert_eq).
    unfold set_objs, add_event, set_heap. cbn [heap next_addr oracle objs trace data_ size_ capacity_].
    rewrite decide_False by done.
    rewrite drop_replicate. rewrite <- !app_assoc.
    apply Done_world_eq; [map_solve | map_solve | done].
Qed.

Lemma new_capacity_small c :
  0 ≤ c → 2 * c < SIZE_MOD → new_capacity c = if decide (c = 0) then 1 else 2 * c.
Proof.
  intros H0 H. unfold new_capacity. destruct (Z.eqb_spec c 0) as [->|Hne].
  - done.
  - rewrite decide_False by done. rewrite wrap_small by lia. lia.
Qed.

Lemma new_capacity_doubled k :
  2 * doubled k < SIZE_MOD → new_capacity (doubled k) = doubled (S k).
Proof.
  intros Hsmall. destruct k as [|k]; [done|].
  cbn [doubled] in *. assert (0 < 2 ^ Z.of_nat k) by (apply Z.pow_pos_nonneg; lia).
  rewrite new_capacity_small by lia. rewrite decide_False by lia.
  rewrite Nat2Z.inj_succ, Z.pow_succ_r by lia. done.
Qed.

(** [push_back] when a slot is free. *)
Lemma push_back_room this x w d l cap rest :
  objs w !! this = Some (Vec d (Z.of_nat (length l)) cap) →
  heap w !! d = Some ((Some <$> l) ++ rest) →
  Z.of_nat (length l) < cap < SIZE_MOD → rest ≠ [] →
  push_back sizeofT AP this x w =
    Done tt
      (World (<[d := (Some <$> (l ++ [x])) ++ tl rest]> (heap w))
             (next_addr w) (oracle w)
             (<[this := Vec d (Z.of_nat (length (l ++ [x]))) cap]> (objs w))
             (trace w ++ [EvLock this; EvCopy d (Z.of_nat (length l)); EvUnlock this])).
Proof.
  intros Hobj Hblk Hlt Hrest. unfold push_back.
  erewrite bind_Done by apply lock_Done.
  erewrite bind_Done by (apply get_Done; exact Hobj).
  erewrite bind_Done by (apply get_Done; exact Hobj).
  cbn [size_ capacity_]. destruct (Z.eqb_spec (Z.of_nat (length l)) cap) as [?|_]; [lia|].
  erewrite bind_Done by reflexivity.
  erewrite bind_Done by (apply get_Done; exact Hobj).
  erewrite bind_Done by (apply get_Done; exact Hobj).
  cbn [data_ size_].
  destruct rest as [|r rest]; [done|].
  erewrite bind_Done.
  2:{ eapply placement_new_Done; [exact Hblk|].
      rewrite length_app, length_fmap. simpl. lia. }
  erewrite bind_Done by (apply set_size_Done; exact Hobj).
  rewrite unlock_Done.
  unfold set_objs, add_event, set_heap. cbn [heap next_addr oracle objs trace data_ size_ capacity_ tl].
  rewrite wrap_small by lia.
  apply Done_world_eq.
  - f_equal. rewrite <- (length_fmap Some l) at 1.
    rewrite insert_app_r_alt by lia. rewrite Nat.sub_diag. simpl.
    rewrite fmap_app. by rewrite <- app_assoc.
  - do 2 f_equal. rewrite length_app. simpl. lia.
  - by rewrite <- !app_assoc.
Qed.

(** [push_back] when the buffer is full. *)
Lemma push_back_grow this x w d l cap :
  holds w this d l cap → heap_fresh w → Z.of_nat (length l) = cap →
  2 * cap < SIZE_MOD → can_alloc sizeofT (new_capacity cap) w →
  push_back sizeofT AP this x w =
    Done tt
      (World (<[next_addr w := (Some <$> (l ++ [x])) ++
                  replicate (Z.to_nat (new_capacity cap) - length (l ++ [x])) None]>
                (delete d (heap w)))
             (next_addr w + 1) (tl (oracle w))
             (<[this := Vec (next_addr w) (Z.of_nat (length (l ++ [x]))) (new_capacity cap)]> (objs w))
             (trace w ++ [EvLock this; EvAlloc (next_addr w) (new_capacity cap)] ++
                move_events (next_addr w) d (length l) ++
                (if decide (d = 0) then [] else [EvDealloc d]) ++
                [EvCopy (next_addr w) (Z.of_nat (length l)); EvUnlock this])).
Proof.
  intros Hh Hfresh Hfull Hdbl Halloc. pose proof Hh as (Hobj & Hcap & Hshape).
  assert (0 ≤ cap) as Hcap0 by lia.
  pose proof (new_capacity_small cap Hcap0 Hdbl) as Hnc.
  assert (cap < new_capacity cap < SIZE_MOD) as Hrange.
  { rewrite Hnc. case_decide; unfold SIZE_MOD in *; lia. }
  unfold push_back.
  erewrite bind_Done by apply lock_Done.
  erewrite bind_Done by (apply get_Done; exact Hobj).
  erewrite bind_Done by (apply get_Done; exact Hobj).
  cbn [size_ capacity_]. destruct (Z.eqb_spec (Z.of_nat (length l)) cap) as [_|?]; [|lia].
  set (nc := new_capacity cap) in *.
  assert (holds (add_event (EvLock this) w) this d l cap) as Hh' by exact Hh.
  erewrite bind_Done.
  2:{ apply (reserve_grow this nc _ d l cap Hh'); [exact Hfresh|exact Halloc|lia]. }
  cbn [add_event heap next_addr oracle objs trace].
  set (p := next_addr w).
  erewrite bind_Done by (apply get_Done; cbn [objs]; apply lookup_insert_eq).
  erewrite bind_Done by (apply get_Done; cbn [objs]; apply lookup_insert_eq).
  cbn [data_ size_].
  erewrite bind_Done.
  2:{ eapply placement_new_Done; [cbn [heap]; apply lookup_insert_eq|].
      rewrite length_app, length_fmap, length_replicate. lia. }
  erewrite bind_Done by (apply set_size_Done; cbn [objs add_event set_heap]; apply lookup_insert_eq).
  rewrite unlock_Done.
  unfold set_objs, add_event, set_heap. cbn [heap next_addr oracle objs trace data_ size_ capacity_].
  rewrite wrap_small by lia.
  apply Done_world_eq.
  - rewrite insert_insert_eq. f_equal.
    rewrite <- (length_fmap Some l) at 1.
    rewrite insert_app_r_alt by lia. rewrite Nat.sub_diag.
    destruct (Z.to_nat nc - length l)%nat as [|k] eqn:Ek; [lia|].
    simpl. rewrite fmap_app, <- app_assoc. simpl. do 3 f_equal.
    rewrite length_app. simpl. lia.
  - rewrite insert_insert_eq. do 3 f_equal. rewrite length_app. simpl. lia.
  - rewrite <- !app_assoc. done.
Qed.

Lemma all_granted_hd w : all_granted w → hd true (oracle w) = true.
Proof. unfold all_granted. destruct (oracle w); [done|]. by inversion 1. Qed.

Lemma all_granted_tl (o : list bool) :
  Forall (λ a, a = true) o → Forall (λ a, a = true) (tl o).
Proof. destruct o; [done|]. by inversion 1. Qed.

Lemma push_back_holds this x w d l cap :
  holds w this d l cap → heap_fresh w →
  (Z.of_nat (length l) = cap →
     2 * cap < SIZE_MOD ∧ can_alloc sizeofT (new_capacity cap) w) →
  ∃ w' d' evs,
    push_back sizeofT AP this x w = Done tt w' ∧
    holds w' this d' (l ++ [x])
      (if decide (Z.of_nat (length l) = cap) then new_capacity cap else cap) ∧
    heap_fresh w' ∧
    trace w' = trace w ++ evs ∧
    growths evs = (if decide (Z.of_nat (length l) = cap) then 1 else 0)%nat ∧
    oracle w' = (if decide (Z.of_nat (length l) = cap) then tl (oracle w) else oracle w) ∧
    changes_only w w' this d d'.
Proof.
  intros Hh Hfresh Hgrow. pose proof Hh as (Hobj & Hcap & Hshape).
  destruct (decide (Z.of_nat (length l) = cap)) as [Hfull|Hroom].
  - destruct (Hgrow Hfull) as [Hdbl Halloc].
    assert (0 ≤ cap) as Hcap0 by lia.
    pose proof (new_capacity_small cap Hcap0 Hdbl) as Hnc.
    assert (cap < new_capacity cap < SIZE_MOD) as Hrange.
    { rewrite Hnc. case_decide; unfold SIZE_MOD in *; lia. }
    eexists _, (next_addr w), _. split; [by apply push_back_grow|].
    assert (Z.of_nat (length l) ≤ cap) as Hle by lia.
    split; [|split; [|split; [|split; [|split]]]]; cbn [trace oracle]; try done.
    + split; [apply lookup_insert_eq|]. split; [lia|]. right.
      split; [destruct Hfresh; lia|]. split; [lia|].
      eexists. split; [apply lookup_insert_eq|].
      rewrite length_replicate, length_app. simpl. lia.
    + by apply heap_fresh_grow.
    + rewrite !growths_app, growths_move_events. by destruct (decide (d = 0)).
    + frame_solve. right; right. by apply heap_fresh_next.
  - assert (d ≠ 0 ∧ 0 < cap ∧ ∃ rest, heap w !! d = Some ((Some <$> l) ++ rest) ∧
            Z.of_nat (length l + length rest) = cap) as (Hd & Hpos & rest & Hblk & Hlen).
    { destruct Hshape as [(_ & -> & ->)|?]; [done|done]. }
    assert (rest ≠ []) as Hrest. { intros ->. simpl in Hlen. lia. }
    eexists _, d, _. split; [apply (push_back_room this x w d l cap rest); try done; lia|].
    split; [|split; [|split; [|split; [|split]]]]; cbn [trace oracle]; try done.
    + split; [apply lookup_insert_eq|]. split; [done|]. right. split; [done|].
      split; [done|].
      exists (tl rest). split; [apply lookup_insert_eq|].
      destruct rest; [done|]. rewrite length_app. simpl in *. lia.
    + by eapply heap_fresh_update.
    + frame_solve. by left.
Qed.

Lemma push_all_snoc this vs x w :
  push_all sizeofT AP this (vs ++ [x]) w =
  bind (push_all sizeofT AP this vs) (λ _, push_back sizeofT AP this x) w.
Proof.
  revert w. induction vs as [|y vs IH]; intros w; simpl.
  - unfold bind, ret. by destruct (push_back sizeofT AP this x w) as [[] ?| |].
  - rewrite bind_assoc. apply bind_ext. intros _ w'. apply IH.
Qed.

Lemma push_all_spec this vs w :
  holds w this 0 [] 0 → heap_fresh w → all_granted w →
  0 < sizeofT → 2 * Z.of_nat (length vs) * sizeofT < SIZE_MOD →
  ∃ w' d cap evs,
    push_all sizeofT AP this vs w = Done tt w' ∧
    holds w' this d vs cap ∧ heap_fresh w' ∧ all_granted w' ∧
    trace w' = trace w ++ evs ∧
    cap = doubled (growths evs) ∧ cap ≤ 2 * Z.of_nat (length vs).
Proof.
  intros Hh Hfresh Hgr Hs. induction vs as [|x vs IH] using rev_ind; intros Hfit.
  - exists w, 0, 0, []. rewrite app_nil_r. done.
  - rewrite length_app in Hfit. cbn [length] in Hfit.
    destruct IH as (w1 & d & cap & evs & Hrun & Hh1 & Hf1 & Hg1 & Ht1 & Hcap & Hle); [nia|].
    assert (0 ≤ cap) as Hcap0.
    { destruct Hh1 as (_ & _ & [(_ & -> & _)|(_ & _ & rest & _ & <-)]); lia. }
    destruct (push_back_holds this x w1 d vs cap Hh1 Hf1)
      as (w2 & d' & evs' & Hrun2 & Hh2 & Hf2 & Ht2 & Hgrow & Ho2 & _).
    { intros Hfull. split; [nia|]. split; [by apply all_granted_hd|]. split; [done|].
      assert (2 * cap < SIZE_MOD) as Hdbl by nia.
      rewrite (new_capacity_small _ Hcap0 Hdbl). case_decide; split; nia. }
    exists w2, d', (if decide (Z.of_nat (length vs) = cap) then new_capacity cap else cap),
      (evs ++ evs').
    split; [|split; [|split; [|split; [|split; [|split]]]]]; try done.
    + rewrite push_all_snoc. by rewrite (bind_Done _ _ _ _ _ Hrun).
    + unfold all_granted in *. rewrite Ho2. case_decide; [by apply all_granted_tl|done].
    + by rewrite Ht2, Ht1, app_assoc.
    + rewrite growths_app, Hgrow. case_decide.
      * rewrite Nat.add_1_r. rewrite Hcap. apply new_capacity_doubled. rewrite <- Hcap. nia.
      * by rewrite Nat.add_0_r.
    + rewrite length_app. cbn [length]. case_decide; [|lia].
      assert (2 * cap < SIZE_MOD) as Hdbl by nia.
      rewrite (new_capacity_small _ Hcap0 Hdbl). case_decide; lia.
Qed.

Lemma index_Done this w d l cap i x :
  holds w this d l cap → l !! i = Some x →
  index this (Z.of_nat i) w =
    Done (d, Z.of_nat i) (add_event (EvUnlock this) (add_event (EvLock this) w)).
Proof.
  intros (Hobj & Hcap & Hshape) Hi. unfold index.
  destruct Hshape as [(_ & _ & ->)|(Hd & Hpos & rest & Hblk & Hlen)]; [done|].
  erewrite bind_Done by apply lock_Done.
  erewrite bind_Done by (apply get_Done; exact Hobj). cbn [data_].
  erewrite bind_Done.
  2:{ cbn [add_event heap]. rewrite Hblk. rewrite in_block_true; [done|].
      apply lookup_lt_Some in Hi. rewrite length_app, length_fmap. lia. }
  by erewrite bind_Done by apply unlock_Done.
Qed.

Lemma index_read_holds this w d l cap i x :
  holds w this d l cap → l !! i = Some x →
  index_read this (Z.of_nat i) w =
    Done x (add_event (EvUnlock this) (add_event (EvLock this) w)).
Proof.
  intros Hh Hi. unfold index_read.
  erewrite bind_Done by (by eapply index_Done). cbn [fst snd].
  destruct Hh as (Hobj & Hcap & [(_ & _ & ->)|(Hd & Hpos & rest & Hblk & Hlen)]); [done|].
  eapply load_Done; [exact Hblk|].
  rewrite lookup_app_l by (rewrite length_fmap; by eapply lookup_lt_Some).
  by rewrite list_lookup_fmap, Hi.
Qed.

Lemma take_over_Done this other w vt vo :
  objs w !! this = Some vt → objs w !! other = Some vo → this ≠ other →
  take_over this other w =
    Done tt (set_objs (<[other := Vec 0 0 0]> (<[this := vo]> (objs w))) w).
Proof.
  intros Ht Ho Hne. unfold take_over. destruct vo as [d n c].
  erewrite bind_Done by (apply get_Done; look).
  erewrite bind_Done by (apply set_data_Done; look).
  erewrite bind_Done by (apply get_Done; look).
  erewrite bind_Done by (apply set_size_Done; look).
  erewrite bind_Done by (apply get_Done; look).
  erewrite bind_Done by (apply set_capacity_Done; look).
  erewrite bind_Done by (apply set_data_Done; look).
  erewrite bind_Done by (apply set_size_Done; look).
  erewrite set_capacity_Done by look.
  unfold set_objs. cbn [heap next_addr oracle objs trace data_ size_ capacity_].
  destruct w as [h na o ob t]. cbn [heap next_addr oracle objs trace].
  apply Done_world_eq; [done|map_solve|done].
Qed.

Lemma Vector_move_Done this other w vo :
  objs w !! this = None → objs w !! other = Some vo →
  Vector_move this other w =
    Done tt (World (heap w) (next_addr w) (oracle w)
                   (<[other := Vec 0 0 0]> (<[this := vo]> (objs w)))
                   (trace w ++ [EvLock this; EvLock other; EvUnlock other; EvUnlock this])).
Proof.
  intros Ht Ho. assert (this ≠ other) as Hne by congruence. unfold Vector_move.
  erewrite bind_Done by (by apply new_object_Done).
  erewrite bind_Done by apply lock_Done.
  erewrite bind_Done by apply lock_Done.
  erewrite bind_Done.
  2:{ apply (take_over_Done this other _ (Vec 0 0 0) vo); cbn [objs set_objs add_event];
        [apply lookup_insert_eq | by rewrite lookup_insert_ne | done]. }
  erewrite bind_Done by apply unlock_Done.
  rewrite unlock_Done.
  unfold set_objs, add_event. cbn [heap next_addr oracle objs trace].
  apply Done_world_eq; [done|map_solve|by rewrite <- !app_assoc].
Qed.

(** The common prefix of the two assignments: the live elements are
    destructed in index order and the buffer, if there is one, is released. *)
Lemma clear_storage_Done this w d l cap :
  holds w this d l cap → heap_fresh w →
  clear_storage this w =
    Done tt (World (delete d (heap w)) (next_addr w) (oracle w) (objs w)
                   (trace w ++ (EvDestroy d <$> iota (length l)) ++
                      (if decide (d = 0) then [] else [EvDealloc d]))).
Proof.
  intros (Hobj & Hcap & Hshape) Hfresh. unfold clear_storage.
  erewrite bind_Done by (apply get_Done; exact Hobj). cbn [size_].
  destruct Hshape as [(-> & -> & ->)|(Hd & Hpos & rest & Hblk & Hlen)].
  - cbn [length]. change (Z.of_nat 0) with 0.
    erewrite bind_Done by apply for_upto_0.
    erewrite bind_Done by (apply get_Done; exact Hobj). cbn [data_ Z.eqb].
    unfold ret. rewrite delete_id by (by apply heap_fresh_null).
    rewrite decide_True by done. cbn. rewrite app_nil_r. by destruct w.
  - erewrite bind_Done.
    2:{ apply (destroy_loop this w (Vec d (Z.of_nat (length l)) cap) l rest); [done|done|lia]. }
    cbn [data_].
    erewrite bind_Done by (apply get_Done; exact Hobj). cbn [data_].
    destruct (Z.eqb_spec d 0) as [?|_]; [done|].
    erewrite deallocate_Done; [|cbn [heap]; apply lookup_insert_eq|done].
    unfold add_event, set_heap. cbn [heap next_addr oracle objs trace].
    rewrite decide_False by done.
    apply Done_world_eq; [map_solve|done|by rewrite <- !app_assoc].
Qed.

Lemma move_assign_Done this other w d l cap vo :
  this ≠ other → holds w this d l cap → heap_fresh w → objs w !! other = Some vo →
  move_assign this other w =
    Done tt (World (delete d (heap w)) (next_addr w) (oracle w)
                   (<[other := Vec 0 0 0]> (<[this := vo]> (objs w)))
                   (trace w ++ [EvLock this; EvLock other] ++
                      (EvDestroy d <$> iota (length l)) ++
                      (if decide (d = 0) then [] else [EvDealloc d]) ++
                      [EvUnlock other; EvUnlock this])).
Proof.
  intros Hne Hh Hfresh Ho. unfold move_assign. rewrite decide_False by done.
  erewrite bind_Done by apply lock_Done.
  erewrite bind_Done by apply lock_Done.
  erewrite bind_Done.
  2:{ apply (clear_storage_Done this _ d l cap); [exact Hh|exact Hfresh]. }
  cbn [add_event heap next_addr oracle objs trace].
  erewrite bind_Done.
  2:{ apply (take_over_Done this other _ (Vec d (Z.of_nat (length l)) cap) vo);
        cbn [objs]; [apply Hh|done|done]. }
  erewrite bind_Done by apply unlock_Done.
  rewrite unlock_Done.
  unfold set_objs, add_event. cbn [heap next_addr oracle objs trace].
  apply Done_world_eq; [done|done|by rewrite <- !app_assoc].
Qed.

(** What the two copies do after the destination has been emptied: the
    counters are copied, a buffer of the source's capacity is allocated and
    the live elements are copied into it.  [k] is the rest of the function. *)
Lemma copy_tail_Done {B} (k : unit → M T B) (this other : Z) (reset : bool) w vt d l cap :
  this ≠ other → objs w !! this = Some vt → holds w other d l cap →
  (reset = false → data_ vt = 0) →
  heap_fresh w → (0 < cap → can_alloc sizeofT cap w) →
  bind (get size_ other) (λ n,
    bind (set_size_ this n) (λ _,
      bind (get capacity_ other) (λ c,
        bind (set_capacity_ this c) (λ _,
          bind (get capacity_ this) (λ c,
            bind (if 0 <? c then
                    bind (allocate sizeofT AP c) (λ p,
                      bind (set_data_ this p) (λ _, copy_elements this other))
                  else if reset then set_data_ this 0 else ret tt) k))))) w =
  k tt
    (if decide (cap = 0) then
       World (heap w) (next_addr w) (oracle w) (<[this := Vec 0 0 0]> (objs w)) (trace w)
     else
       World (<[next_addr w := (Some <$> l) ++ replicate (Z.to_nat cap - length l) None]> (heap w))
             (next_addr w + 1) (tl (oracle w))
             (<[this := Vec (next_addr w) (Z.of_nat (length l)) cap]> (objs w))
             (trace w ++ [EvAlloc (next_addr w) cap] ++ (EvCopy (next_addr w) <$> iota (length l)))).
Proof.
  intros Hne Ht (Ho & Hcap & Hshape) Hreset Hfresh Halloc.
  erewrite bind_Done by (apply get_Done; look).
  erewrite bind_Done by (apply set_size_Done; look).
  erewrite bind_Done by (apply get_Done; look).
  erewrite bind_Done by (apply set_capacity_Done; look).
  erewrite bind_Done by (apply get_Done; look).
  cbn [data_ size_ capacity_].
  destruct Hshape as [(-> & -> & ->)|(Hd & Hpos & rest & Hblk & Hlen)].
  - cbn [Z.ltb Z.compare]. rewrite decide_True by done.
    apply bind_Done. destruct reset.
    + erewrite set_data_Done by look.
      unfold set_objs. cbn [heap next_addr oracle objs trace data_ size_ capacity_ length].
      destruct w as [h na o ob t]. cbn [heap next_addr oracle objs trace].
      apply Done_world_eq; [done|map_solve|done].
    + unfold ret, set_objs. cbn [heap next_addr oracle objs trace data_ size_ capacity_ length].
      rewrite Hreset by done.
      destruct w as [h na o ob t]. cbn [heap next_addr oracle objs trace].
      apply Done_world_eq; [done|map_solve|done].
  - destruct (Z.ltb_spec 0 cap) as [_|?]; [|lia]. rewrite decide_False by lia.
    apply bind_Done.
    erewrite bind_Done by (apply allocate_Done; [apply (Halloc Hpos)|apply Hfresh]).
    cbn [set_objs heap next_addr oracle objs trace].
    set (p := next_addr w).
    assert (p ≠ d) as Hpd.
    { apply (heap_fresh_lookup _ _ _ Hfresh) in Hblk. unfold p. lia. }
    erewrite bind_Done by (apply set_data_Done; look).
    cbn [data_ size_ capacity_].
    erewrite (copy_elements_Done this other _
                (Vec p (Z.of_nat (length l)) cap) (Vec d (Z.of_nat (length l)) cap)
                l rest (replicate (Z.to_nat cap) None)); cbn [data_ size_ set_objs heap objs];
      [| look | look | done | by rewrite lookup_insert_ne | apply lookup_insert_eq | done
       | rewrite length_replicate; lia | lia].
    unfold set_objs. cbn [heap next_addr oracle objs trace]. rewrite drop_replicate.
    apply Done_world_eq; [map_solve|map_solve|by rewrite <- ?app_assoc].
Qed.

Lemma Vector_copy_Done A B w dA l cap :
  holds w A dA l cap → objs w !! B = None → heap_fresh w →
  (0 < cap → can_alloc sizeofT cap w) →
  ∃ w', Vector_copy sizeofT AP B A w = Done tt w' ∧
        copied w (heap w) B l cap [EvLock B; EvLock A] [EvUnlock A; EvUnlock B] w'.
Proof.
  intros HA Hnew Hfresh Halloc. pose proof HA as (Hobj & _).
  assert (B ≠ A) as Hne by congruence. unfold Vector_copy.
  erewrite bind_Done by (by apply new_object_Done).
  erewrite bind_Done by apply lock_Done.
  erewrite bind_Done by apply lock_Done.
  erewrite (copy_tail_Done _ B A false _ (Vec 0 0 0) dA l cap); [|done|look| |done|done|done].
  2:{ eapply holds_frame; [exact HA| |done]. cbn [add_event set_objs objs].
      by rewrite lookup_insert_ne. }
  unfold copied. destruct (decide (cap = 0)) as [Hc|Hc];
    (erewrite bind_Done by apply unlock_Done); rewrite unlock_Done;
    eexists; (split; [reflexivity|]);
    unfold set_objs, add_event; cbn [heap next_addr oracle objs trace];
    f_equal; try map_solve; by rewrite <- ?app_assoc.
Qed.

Lemma copy_assign_Done A B w dA l cap dB lB capB :
  B ≠ A → holds w A dA l cap → holds w B dB lB capB → (dA ≠ 0 → dA ≠ dB) →
  heap_fresh w → (0 < cap → can_alloc sizeofT cap w) →
  ∃ w', copy_assign sizeofT AP B A w = Done tt w' ∧
        copied w (delete dB (heap w)) B l cap
          ([EvLock B; EvLock A] ++ (EvDestroy dB <$> iota (length lB)) ++
             (if decide (dB = 0) then [] else [EvDealloc dB]))
          [EvUnlock A; EvUnlock B] w'.
Proof.
  intros Hne HA HB Hshare Hfresh Halloc. unfold copy_assign.
  rewrite decide_False by done.
  erewrite bind_Done by apply lock_Done.
  erewrite bind_Done by apply lock_Done.
  erewrite bind_Done.
  2:{ apply (clear_storage_Done B _ dB lB capB); [exact HB|exact Hfresh]. }
  cbn [add_event heap next_addr oracle objs trace].
  erewrite (copy_tail_Done _ B A true _ (Vec dB (Z.of_nat (length lB)) capB) dA l cap);
    [|done|apply HB| |done|by apply heap_fresh_delete|done].
  2:{ eapply holds_frame; [exact HA|done|]. cbn [heap].
      destruct (decide (dA = 0)) as [->|Hd].
      - rewrite (heap_fresh_null w Hfresh).
        destruct (decide (dB = 0)) as [->|?];
          [apply lookup_delete_eq | rewrite lookup_delete_ne by done; by apply heap_fresh_null].
      - rewrite lookup_delete_ne; [done|]. intros ->. by apply Hshare. }
  unfold copied. destruct (decide (cap = 0)) as [Hc|Hc];
    (erewrite bind_Done by apply unlock_Done); rewrite unlock_Done;
    eexists; (split; [reflexivity|]);
    unfold set_objs, add_event; cbn [heap next_addr oracle objs trace];
    f_equal; try map_solve; by rewrite <- ?app_assoc.
Qed.

Lemma copied_holds w h A B dA l cap le ue w' :
  copied w h B l cap le ue w' → A ≠ B → holds w A dA l cap → heap_fresh w →
  h !! dA = heap w !! dA →
  ∃ dB,
    holds w' B dB l cap ∧ holds w' A dA l cap ∧
    (cap ≠ 0 → dB ≠ dA ∧ heap w !! dB = None).
Proof.
  intros Hc Hne HA Hfresh Hh. pose proof HA as (Hobj & Hcap & Hshape).
  unfold copied in Hc. destruct (decide (cap = 0)) as [Hz|Hnz]; subst w'.
  - exists 0. split; [|split; [|done]].
    + split; [|split; [done|left]].
      * assert (l = []) as -> by (destruct Hshape as [(_ & _ & ?)|(_ & ? & _)]; [done|lia]).
        rewrite Hz. cbn [objs]. apply lookup_insert_eq.
      * destruct Hshape as [(_ & _ & ?)|(_ & ? & _)]; [done|lia].
    + eapply holds_frame; [exact HA| |]; cbn [objs heap]; [by rewrite lookup_insert_ne|done].
  - destruct Hshape as [(_ & ? & _)|(Hd & Hpos & rest & Hblk & Hlen)]; [done|].
    assert (next_addr w ≠ dA) as Hpd.
    { apply (heap_fresh_lookup _ _ _ Hfresh) in Hblk. lia. }
    exists (next_addr w).
    split; [|split; [|intros _; split; [done|by apply heap_fresh_next]]].
    + split; [apply lookup_insert_eq|]. split; [done|]. right.
      split; [destruct Hfresh; lia|]. split; [done|].
      eexists. split; [apply lookup_insert_eq|]. rewrite length_replicate. lia.
    + eapply holds_frame; [exact HA| |]; cbn [objs heap].
      * by rewrite lookup_insert_ne.
      * by rewrite lookup_insert_ne.
Qed.

Lemma copied_lock_ops w h B l cap le ue w' :
  copied w h B l cap le ue w' →
  lock_ops (new_events w (Done tt w')) = lock_ops le ++ lock_ops ue.
Proof.
  unfold copied. intros H. case_decide; subst w'.
  - erewrite new_events_app by reflexivity. by rewrite lock_ops_app.
  - erewrite new_events_app by reflexivity.
    rewrite !lock_ops_app, (lock_ops_elements (EvCopy _)) by done. done.
Qed.

(** ** The operations on well-formed instances *)

(** [reserve] beyond the capacity, on a well-formed [Vector]. *)
Lemma reserve_grow_holds this n w d l cap :
  holds w this d l cap → heap_fresh w → can_alloc sizeofT n w → cap < n →
  ∃ w',
    reserve sizeofT AP this n w = Done tt w' ∧
    holds w' this (next_addr w) l n ∧ heap_fresh w'.
Proof.
  intros Hh Hfresh Halloc Hlt.
  assert (n < SIZE_MOD) as Hn. { destruct Halloc as (_ & ? & ? & ?). nia. }
  eexists. split; [by apply (reserve_grow this n w d l cap)|].
  by apply (holds_after_grow this n w d l cap).
Qed.

(** [pop_back] on a [Vector] whose last element is [x]. *)
Lemma pop_back_last this w d l x cap :
  holds w this d (l ++ [x]) cap →
  ∃ b w',
    heap w !! d = Some b ∧
    w' = World (<[d := <[length l := None]> b]> (heap w)) (next_addr w) (oracle w)
               (<[this := Vec d (Z.of_nat (length l)) cap]> (objs w))
               (trace w ++ [EvLock this; EvDestroy d (Z.of_nat (length l)); EvUnlock this]) ∧
    pop_back this w = Done tt w' ∧
    holds w' this d l cap.
Proof.
  intros (Hobj & Hcap & Hshape).
  destruct Hshape as [(_ & _ & Hnil)|(Hd & Hpos & rest & Hblk & Hlen)].
  { by destruct l. }
  rewrite length_app in Hobj, Hlen. cbn [length] in Hobj, Hlen.
  eexists _, _. split; [exact Hblk|]. split; [reflexivity|].
  assert (((Some <$> l ++ [x]) ++ rest) !! length l = Some (Some x)) as Hlast.
  { rewrite fmap_app, <- app_assoc. rewrite lookup_app_r by (rewrite length_fmap; lia).
    by rewrite length_fmap, Nat.sub_diag. }
  split.
  - unfold pop_back.
    erewrite bind_Done by apply lock_Done.
    erewrite bind_Done by (apply get_Done; exact Hobj). cbn [size_].
    destruct (Z.ltb_spec 0 (Z.of_nat (length l + 1))) as [_|?]; [|lia].
    erewrite bind_Done.
    2:{ erewrite bind_Done by (apply set_size_Done; exact Hobj).
        erewrite bind_Done by (apply get_Done; look).
        erewrite bind_Done by (apply get_Done; look).
        cbn [data_ size_]. rewrite wrap_small by lia.
        replace (Z.of_nat (length l + 1) - 1) with (Z.of_nat (length l)) by lia.
        eapply destroy_Done; [exact Hblk|exact Hlast]. }
    rewrite unlock_Done.
    unfold set_objs, add_event, set_heap. cbn [heap next_addr oracle objs trace data_ capacity_].
    replace (Z.of_nat (length l + 1) - 1) with (Z.of_nat (length l)) by lia.
    by rewrite <- !app_assoc.
  - split; [apply lookup_insert_eq|]. split; [done|]. right. split; [done|].
    split; [done|].
    exists (None :: rest). split.
    + cbn [heap]. rewrite lookup_insert_eq. f_equal.
      rewrite fmap_app, <- app_assoc. rewrite <- (length_fmap Some l) at 1.
      rewrite insert_app_r_alt by lia. by rewrite Nat.sub_diag.
    + cbn [length]. lia.
Qed.

(** [pop_back] on an empty [Vector]. *)
Lemma pop_back_empty this w d cap :
  holds w this d [] cap →
  pop_back this w =
    Done tt (World (heap w) (next_addr w) (oracle w) (objs w)
                   (trace w ++ [EvLock this; EvUnlock this])).
Proof.
  intros (Hobj & _). unfold pop_back.
  erewrite bind_Done by apply lock_Done.
  erewrite bind_Done by (apply get_Done; exact Hobj).
  cbn [size_ length Z.of_nat Z.ltb Z.compare].
  erewrite bind_Done by reflexivity.
  rewrite unlock_Done. unfold add_event. cbn [heap next_addr oracle objs trace].
  by rewrite <- app_assoc.
Qed.

(** Move construction of [B] from the well-formed [A]. *)
Lemma Vector_move_holds A B w dA l cap :
  holds w A dA l cap → objs w !! B = None →
  ∃ w',
    Vector_move B A w = Done tt w' ∧
    holds w' B dA l cap ∧
    objs w' !! A = Some (Vec 0 0 0) ∧
    heap w' = heap w ∧
    filter is_copy (new_events w (Done tt w')) = [].
Proof.
  intros Hh Hnew. pose proof Hh as (Hobj & Hcap & Hshape).
  assert (B ≠ A) as Hne by congruence.
  eexists. split; [by eapply Vector_move_Done|].
  split; [|split; [|split]]; cbn [objs heap].
  - split; [|split; [done|exact Hshape]].
    cbn [objs]. rewrite lookup_insert_ne by done. apply lookup_insert_eq.
  - apply lookup_insert_eq.
  - done.
  - by erewrite new_events_app by reflexivity.
Qed.

(** Move assignment of the well-formed [A] to the well-formed [B]. *)
Lemma move_assign_holds A B w dA l cap dB lB capB :
  A ≠ B → holds w A dA l cap → holds w B dB lB capB → heap_fresh w →
  (dA ≠ 0 → dA ≠ dB) →
  ∃ w',
    move_assign B A w = Done tt w' ∧
    holds w' B dA l cap ∧
    objs w' !! A = Some (Vec 0 0 0) ∧
    heap w' !! dA = heap w !! dA ∧
    filter is_copy (new_events w (Done tt w')) = [].
Proof.
  intros Hne HA HB Hfresh Hshare. pose proof HA as (Hobj & Hcap & Hshape).
  eexists. split; [eapply move_assign_Done; [done|exact HB|done|exact Hobj]|].
  split; [|split; [|split]]; cbn [objs heap].
  - split; [|split; [done|]].
    + cbn [objs]. rewrite lookup_insert_ne by done. apply lookup_insert_eq.
    + destruct Hshape as [?|(Hd & Hpos & rest & Hblk & Hlen)]; [by left|right].
      split; [done|]. split; [done|]. exists rest. split; [|done].
      cbn [heap]. rewrite lookup_delete_ne; [done|]. intros ->. by apply Hshare.
  - apply lookup_insert_eq.
  - by apply delete_other.
  - erewrite new_events_app by reflexivity.
    rewrite !filter_app, no_copy_destroys. by destruct (decide (dB = 0)).
Qed.

(** Copy construction of [B] from the well-formed [A]. *)
Lemma Vector_copy_holds A B w dA l cap :
  holds w A dA l cap → objs w !! B = None → heap_fresh w →
  (0 < cap → can_alloc sizeofT cap w) →
  ∃ w' dB,
    Vector_copy sizeofT AP B A w = Done tt w' ∧
    holds w' B dB l cap ∧ holds w' A dA l cap ∧
    (cap ≠ 0 → dB ≠ dA ∧ heap w !! dB = None).
Proof.
  intros HA Hnew Hfresh Halloc.
  assert (A ≠ B) as Hne by (destruct HA; congruence).
  destruct (Vector_copy_Done A B w dA l cap) as (w' & Hrun & Hc); try done.
  destruct (copied_holds _ _ A _ dA _ _ _ _ _ Hc) as (dB & HB' & HA' & Hnew'); try done.
  by exists w', dB.
Qed.

(** Copy assignment of the well-formed [A] to the well-formed [B]. *)
Lemma copy_assign_holds A B w dA l cap dB0 lB capB :
  B ≠ A → holds w A dA l cap → holds w B dB0 lB capB → (dA ≠ 0 → dA ≠ dB0) →
  heap_fresh w → (0 < cap → can_alloc sizeofT cap w) →
  ∃ w' dB,
    copy_assign sizeofT AP B A w = Done tt w' ∧
    holds w' B dB l cap ∧ holds w' A dA l cap ∧
    (cap ≠ 0 → dB ≠ dA ∧ heap w !! dB = None).
Proof.
  intros Hne HA HB Hshare Hfresh Halloc.
  destruct (copy_assign_Done A B w dA l cap dB0 lB capB) as (w' & Hrun & Hc); try done.
  destruct (copied_holds _ _ A _ dA _ _ _ _ _ Hc) as (dB & HB' & HA' & Hnew'); try done.
  { by apply delete_other. }
  by exists w', dB.
Qed.

(** The pushes of [vs] into a default-constructed [Vector]. *)
Lemma push_from_default this (vs : list T) w :
  objs w !! this = None → heap_fresh w → all_granted w →
  0 < sizeofT → 2 * Z.of_nat (length vs) * sizeofT < SIZE_MOD →
  ∃ w' d cap evs,
    bind (Vector_default this) (λ _, push_all sizeofT AP this vs) w = Done tt w' ∧
    holds w' this d vs cap ∧
    trace w' = trace w ++ evs ∧
    cap = doubled (growths evs).
Proof.
  intros Hnew Hfresh Hgr Hs Hfit.
  destruct (push_all_spec this vs (set_objs (<[this := Vec 0 0 0]> (objs w)) w))
    as (w' & d & cap & evs & Hrun & Hh & _ & _ & Ht & Hcap & _); try done.
  { split; [apply lookup_insert_eq|]. split; [done|]. by left. }
  exists w', d, cap, evs. split; [|done].
  by erewrite bind_Done by (by apply Vector_default_Done).
Qed.

(** An indexed write below the size replaces that element and nothing
    else. *)
Lemma index_write_holds this w d l cap i x y :
  holds w this d l cap → l !! i = Some y →
  ∃ w', index_write this (Z.of_nat i) x w = Done tt w' ∧
        holds w' this d (<[i := x]> l) cap ∧
        objs w' = objs w ∧
        (heap_fresh w → heap_fresh w') ∧
        changes_only w w' this d d.
Proof.
  intros Hh Hi. pose proof Hh as (Hobj & Hcap & Hshape).
  destruct Hshape as [(_ & _ & ->)|(Hd & Hpos & rest & Hblk & Hlen)]; [done|].
  pose proof (lookup_lt_Some _ _ _ Hi) as Hlt.
  eexists. split; [|split].
  - unfold index_write. erewrite bind_Done by (by eapply index_Done). cbn [fst snd].
    eapply store_Done; [cbn [heap add_event]; exact Hblk|].
    rewrite lookup_app_l by (by rewrite length_fmap).
    by rewrite list_lookup_fmap, Hi.
  - split; [by rewrite length_insert|]. split; [done|]. right.
    split; [done|]. split; [done|]. exists rest. split.
    + cbn [heap set_heap]. rewrite lookup_insert_eq. f_equal.
      rewrite insert_app_l by (by rewrite length_fmap).
      by rewrite list_fmap_insert.
    + by rewrite length_insert.
  - split; [done|]. split.
    + intros Hfresh. by eapply heap_fresh_update.
    + frame_solve. by left.
Qed.

(** The destructor destructs the live elements in index order, releases
    the buffer and ends the object. *)
Lemma Vector_destroy_Done this w d l cap :
  holds w this d l cap → heap_fresh w →
  Vector_destroy this w =
    Done tt (World (delete d (heap w)) (next_addr w) (oracle w) (delete this (objs w))
                   (trace w ++ (EvDestroy d <$> iota (length l)) ++
                      (if decide (d = 0) then [] else [EvDealloc d]))).
Proof.
  intros (Hobj & Hcap & Hshape) Hfresh. unfold Vector_destroy.
  erewrite bind_Done by (apply get_Done; exact Hobj). cbn [data_].
  destruct Hshape as [(-> & -> & ->)|(Hd & Hpos & rest & Hblk & Hlen)].
  - cbn [Z.eqb]. erewrite bind_Done by reflexivity.
    rewrite (delete_id (heap w)) by (by apply heap_fresh_null).
    rewrite decide_True by done. unfold set_objs.
    cbn [heap next_addr oracle objs trace length iota seq fmap list_fmap app].
    by rewrite app_nil_r.
  - destruct (Z.eqb_spec d 0) as [?|_]; [done|].
    erewrite bind_Done.
    2:{ erewrite bind_Done by (apply get_Done; exact Hobj). cbn [size_].
        erewrite bind_Done.
        2:{ apply (destroy_loop this w (Vec d (Z.of_nat (length l)) cap) l rest);
              [done|done|lia]. }
        cbn [data_].
        erewrite bind_Done by (apply get_Done; exact Hobj). cbn [data_].
        eapply deallocate_Done; [cbn [heap]; apply lookup_insert_eq|done]. }
    unfold set_objs, add_event, set_heap. cbn [heap next_addr oracle objs trace].
    rewrite decide_False by done.
    apply Done_world_eq; [map_solve|done|by rewrite <- !app_assoc].
Qed.

(** ** What a mutation of [B] leaves alone *)

Lemma triple_ret {A} (P : world T → Prop) (a : A) E : triple P (ret a) (λ _, P) E.
Proof. intros w HP. exact HP. Qed.

Lemma triple_bind {A B} (P : world T → Prop) (m : M T A) (k : A → M T B) Q R E :
  triple P m Q E → (∀ a, triple (Q a) (k a) R E) → triple P (bind m k) R E.
Proof.
  intros Hm Hk w HP. specialize (Hm w HP). unfold bind.
  destruct (m w) as [a w'| |]; [by apply Hk|done|done].
Qed.

Lemma triple_pure {A} (P : world T → Prop) (φ : Prop) (m : M T A) Q E :
  (φ → triple P m Q E) → triple (λ w, P w ∧ φ) m Q E.
Proof. intros H w [HP Hφ]. by apply H. Qed.

Lemma triple_post {A} (P : world T → Prop) (m : M T A) (Q Q' : A → world T → Prop) E :
  triple P m Q E → (∀ a w, Q a w → Q' a w) → triple P m Q' E.
Proof.
  intros H HQ w HP. specialize (H w HP). destruct (m w); [by apply HQ|done|done].
Qed.

Lemma triple_for_loop (P : world T → Prop) (body : Z → M T unit) E count i :
  (∀ j, triple P (body j) (λ _, P) E) → triple P (for_loop count i body) (λ _, P) E.
Proof.
  intros Hbody. revert i. induction count as [|count IH]; intros i.
  - apply triple_ret.
  - cbn [for_loop]. eapply triple_bind; [apply Hbody|]. intros ?. apply IH.
Qed.

Section Frame.

Variables (A B : Z) (vA : vec) (bA : option (list (option T))).
Hypothesis A_not_B : A ≠ B.

Local Abbreviation untouched := (untouched A B vA bA).
Local Abbreviation apart := (apart vA bA).

Lemma emit_frame e : triple untouched (emit e) (λ _, untouched) untouched.
Proof. intros w H. exact H. Qed.

Lemma get_frame {X} (f : vec → X) :
  triple untouched (get f B) (λ _, untouched) untouched.
Proof.
  intros w H. unfold get, bind, get_obj. by destruct (objs w !! B).
Qed.

Lemma get_data_frame :
  triple untouched (get data_ B) (λ d w, untouched w ∧ apart d) untouched.
Proof.
  intros w H. unfold get, bind, get_obj. destruct (objs w !! B) as [vB|] eqn:E; [|done].
  cbn. split; [done|]. by apply H.
Qed.

Lemma put_frame (f : vec → vec) :
  (∀ v, data_ (f v) = data_ v ∨ apart (data_ (f v))) →
  triple untouched (bind (get_obj B) (λ v, put_obj B (f v))) (λ _, untouched) untouched.
Proof.
  intros Hf w (HA & Hblk & Hnull & Hpos & Hlt & HB). unfold bind, get_obj, put_obj.
  destruct (objs w !! B) as [vB|] eqn:E; [|done].
  unfold untouched, set_objs. cbn [objs heap next_addr].
  split; [by rewrite lookup_insert_ne|]. do 4 (split; [done|]).
  intros vB'. rewrite lookup_insert_eq. intros [= <-].
  destruct (Hf vB) as [Heq|?]; [rewrite Heq; by apply HB|done].
Qed.

Lemma set_size_frame n : triple untouched (set_size_ B n) (λ _, untouched) untouched.
Proof. apply (put_frame (λ v, Vec (data_ v) n (capacity_ v))). by left. Qed.

Lemma set_capacity_frame n :
  triple untouched (set_capacity_ B n) (λ _, untouched) untouched.
Proof. apply (put_frame (λ v, Vec (data_ v) (size_ v) n)). by left. Qed.

Lemma set_data_frame p :
  apart p → triple untouched (set_data_ B p) (λ _, untouched) untouched.
Proof. intros Hp. apply (put_frame (λ v, Vec p (size_ v) (capacity_ v))). by right. Qed.

Lemma allocate_frame n :
  triple untouched (allocate sizeofT AP n) (λ p w, untouched w ∧ apart p) untouched.
Proof.
  assert (∀ slots, triple untouched (sys_alloc slots)
            (λ p w, untouched w ∧ (p = 0 ∨ apart p)) untouched) as Hsys.
  { intros slots w (HA & Hblk & Hnull & Hpos & Hlt & HB). unfold sys_alloc.
    destruct (hd true (oracle w)).
    - split; [|right; left; lia].
      split; [done|]. cbn [heap next_addr objs].
      split; [by rewrite lookup_insert_ne by lia|].
      split; [by rewrite lookup_insert_ne by lia|]. split; [lia|]. split; [lia|done].
    - split; [done|by left]. }
  assert (∀ p w, untouched w → p = 0 ∨ apart p → apart p) as Hnull0.
  { intros p w (_ & Hblk & Hnull & _) [->|?]; [|done].
    destruct (decide (0 = data_ vA)) as [Heq|?]; [right|by left].
    rewrite <- Heq in Hblk. congruence. }
  unfold allocate. destruct AP.
  - eapply triple_post; [apply Hsys|]. intros p w [Hw Hp]. eauto.
  - destruct (SIZE_MOD <=? n * sizeofT); [by intros w H|].
    eapply triple_bind; [apply Hsys|]. intros p w [Hw Hp]. unfold throw, ret.
    destruct (p =? 0); [done|]. eauto.
Qed.

Lemma load_frame p i : triple untouched (load p i) (λ _, untouched) untouched.
Proof.
  intros w H. unfold load. destruct (heap w !! p) as [b|]; [|done].
  destruct (in_block b i); [|done]. by destruct (b !! Z.to_nat i) as [[x|]|].
Qed.

Lemma heap_update_frame w p (b b' : list (option T)) t :
  apart p → heap w !! p = Some b → untouched w →
  untouched (World (<[p := b']> (heap w)) (next_addr w) (oracle w) (objs w) t).
Proof.
  intros Hp Hblk (HA & HbA & Hnull & Hpos & Hlt & HB).
  assert (p ≠ data_ vA) as Hne. { destruct Hp as [?| ->]; [done|congruence]. }
  split; [done|]. cbn [heap next_addr objs].
  split; [by rewrite lookup_insert_ne|].
  split; [rewrite lookup_insert_ne; [done|congruence]|]. done.
Qed.

Lemma placement_new_frame e p i x :
  apart p → triple untouched (placement_new e p i x) (λ _, untouched) untouched.
Proof.
  intros Hp w H. unfold placement_new. destruct (heap w !! p) as [b|] eqn:E; [|done].
  destruct (in_block b i); [|done].
  unfold add_event, set_heap. cbn [heap next_addr oracle objs trace].
  by eapply heap_update_frame.
Qed.

Lemma destroy_frame p i :
  apart p → triple untouched (destroy p i) (λ _, untouched) untouched.
Proof.
  intros Hp w H. unfold destroy. destruct (heap w !! p) as [b|] eqn:E; [|done].
  destruct (in_block b i); [|done]. destruct (b !! Z.to_nat i) as [[x|]|]; [|done|done].
  unfold add_event, set_heap. cbn [heap next_addr oracle objs trace].
  by eapply heap_update_frame.
Qed.

Lemma store_frame p i x :
  apart p → triple untouched (store p i x) (λ _, untouched) untouched.
Proof.
  intros Hp w H. unfold store. destruct (heap w !! p) as [b|] eqn:E; [|done].
  destruct (in_block b i); [|done]. destruct (b !! Z.to_nat i) as [[y|]|]; [|done|done].
  unfold add_event, set_heap. cbn [heap next_addr oracle objs trace].
  by eapply heap_update_frame.
Qed.

Lemma deallocate_frame p :
  apart p → triple untouched (deallocate p) (λ _, untouched) untouched.
Proof.
  intros Hp w H. unfold deallocate. destruct (p =? 0); [done|].
  destruct (heap w !! p) as [b|] eqn:E; [|done].
  destruct H as (HA & HbA & Hnull & Hpos & Hlt & HB).
  assert (p ≠ data_ vA) as Hne. { destruct Hp as [?| ->]; [done|congruence]. }
  split; [done|]. cbn [heap next_addr objs add_event set_heap].
  split; [by rewrite lookup_delete_ne|].
  split; [rewrite lookup_delete_ne; [done|congruence]|]. done.
Qed.

Lemma reserve_frame n :
  triple untouched (reserve sizeofT AP B n) (λ _, untouched) untouched.
Proof.
  unfold reserve. eapply triple_bind; [apply get_frame|]. intros c.
  destruct (n <=? c); [apply triple_ret|].
  eapply triple_bind; [apply allocate_frame|]. intros p.
  apply triple_pure. intros Hp.
  eapply triple_bind; [apply get_frame|]. intros sz.
  eapply triple_bind.
  { apply triple_for_loop. intros j.
    eapply triple_bind; [apply get_data_frame|]. intros d. apply triple_pure. intros Hd.
    eapply triple_bind; [apply load_frame|]. intros x.
    eapply triple_bind; [by apply placement_new_frame|]. intros ?.
    by apply destroy_frame. }
  intros ?. eapply triple_bind; [apply get_data_frame|]. intros d.
  apply triple_pure. intros Hd.
  eapply triple_bind.
  { instantiate (1 := λ _, untouched).
    destruct (d =? 0); [apply triple_ret|by apply deallocate_frame]. }
  intros ?. eapply triple_bind; [by apply set_data_frame|]. intros ?.
  apply set_capacity_frame.
Qed.

Lemma push_back_frame x :
  triple untouched (push_back sizeofT AP B x) (λ _, untouched) untouched.
Proof.
  unfold push_back. eapply triple_bind; [apply emit_frame|]. intros ?.
  eapply triple_bind; [apply get_frame|]. intros n.
  eapply triple_bind; [apply get_frame|]. intros c.
  eapply triple_bind.
  { instantiate (1 := λ _, untouched).
    destruct (n =? c); [apply reserve_frame|apply triple_ret]. }
  intros ?. eapply triple_bind; [apply get_data_frame|]. intros d.
  apply triple_pure. intros Hd.
  eapply triple_bind; [apply get_frame|]. intros n'.
  eapply triple_bind; [by apply placement_new_frame|]. intros ?.
  eapply triple_bind; [apply set_size_frame|]. intros ?.
  apply emit_frame.
Qed.

Lemma pop_back_frame : triple untouched (pop_back B) (λ _, untouched) untouched.
Proof.
  unfold pop_back. eapply triple_bind; [apply emit_frame|]. intros ?.
  eapply triple_bind; [apply get_frame|]. intros n.
  eapply triple_bind.
  { instantiate (1 := λ _, untouched). destruct (0 <? n); [|apply triple_ret].
    eapply triple_bind; [apply set_size_frame|]. intros ?.
    eapply triple_bind; [apply get_data_frame|]. intros d. apply triple_pure. intros Hd.
    eapply triple_bind; [apply get_frame|]. intros n'.
    by apply destroy_frame. }
  intros ?. apply emit_frame.
Qed.

Lemma index_write_frame i x :
  triple untouched (index_write B i x) (λ _, untouched) untouched.
Proof.
  unfold index_write, index.
  eapply triple_bind.
  { instantiate (1 := λ r w, untouched w ∧ apart (fst r)).
    eapply triple_bind; [apply emit_frame|]. intros ?.
    eapply triple_bind; [apply get_data_frame|]. intros d. apply triple_pure. intros Hd.
    eapply triple_bind.
    { instantiate (1 := λ r w, untouched w ∧ apart (fst r)).
      intros w H. destruct (heap w !! d) as [b|]; [|done].
      by destruct (in_block b i). }
    intros r. apply triple_pure. intros Hr.
    eapply triple_bind; [apply emit_frame|]. intros ?.
    intros w H. done. }
  intros r. apply triple_pure. intros Hr. by apply store_frame.
Qed.

Lemma mutate_all_frame ms :
  triple untouched (mutate_all sizeofT AP B ms) (λ _, untouched) untouched.
Proof.
  induction ms as [|m ms IH]; [apply triple_ret|].
  cbn [mutate_all]. eapply triple_bind; [|intros ?; exact IH].
  destruct m; [apply push_back_frame|apply pop_back_frame|apply index_write_frame].
Qed.

End Frame.

Lemma untouched_intro A B w dA l cap :
  holds w A dA l cap → heap_fresh w →
  (∀ vB, objs w !! B = Some vB → dA ≠ 0 → data_ vB ≠ dA) →
  untouched A B (Vec dA (Z.of_nat (length l)) cap) (heap w !! dA) w.
Proof.
  intros (Hobj & Hcap & Hshape) Hfresh Hshare.
  split; [done|]. split; [done|]. split; [by apply heap_fresh_null|].
  split; [apply Hfresh|]. cbn [data_]. split.
  - destruct Hshape as [(-> & _)|(_ & _ & rest & Hblk & _)]; [apply Hfresh|].
    apply (heap_fresh_lookup _ _ _ Hfresh) in Hblk. lia.
  - intros vB HB. destruct (decide (dA = 0)) as [->|Hd]; [right|left; by apply Hshare].
    by apply heap_fresh_null.
Qed.

(** A run of mutations of [B] leaves the well-formed [A] as it was,
    whether the run returns or throws. *)
Lemma mutations_leave_alone A B w dA l cap (ms : list (mutation T)) :
  A ≠ B → holds w A dA l cap → heap_fresh w →
  (∀ vB, objs w !! B = Some vB → dA ≠ 0 → data_ vB ≠ dA) →
  match mutate_all sizeofT AP B ms w with
  | Done _ w' | Raise w' =>
      holds w' A dA l cap ∧ heap w' !! dA = heap w !! dA
  | Undef => True
  end.
Proof.
  intros Hne HA Hfresh Hshare.
  pose proof (mutate_all_frame A B _ _ Hne ms w
                (untouched_intro A B w dA l cap HA Hfresh Hshare)) as Hrun.
  assert (∀ w', untouched A B (Vec dA (Z.of_nat (length l)) cap) (heap w !! dA) w' →
                holds w' A dA l cap ∧ heap w' !! dA = heap w !! dA) as Hu.
  { intros w' (Ho & Hh & _). cbn [data_] in Hh. split; [|done].
    eapply holds_frame; [exact HA| |done]. rewrite Ho. symmetry. apply HA. }
  destruct (mutate_all sizeofT AP B ms w); [by apply Hu|by apply Hu|done].
Qed.

(** ** A refused allocation *)

(** [NewAllocator]: the exception leaves [reserve] before anything is
    changed. *)
Lemma reserve_refused_new this n w v :
  objs w !! this = Some v → capacity_ v < n → n * sizeofT < SIZE_MOD →
  hd true (oracle w) = false →
  reserve sizeofT NewAllocator this n w =
    Raise (World (heap w) (next_addr w) (tl (oracle w)) (objs w) (trace w)).
Proof.
  intros Hobj Hlt Hfit Hno. unfold reserve.
  erewrite bind_Done by (apply get_Done; exact Hobj).
  destruct (Z.leb_spec n (capacity_ v)) as [?|_]; [lia|].
  unfold bind at 1. unfold allocate.
  destruct (Z.leb_spec SIZE_MOD (n * sizeofT)) as [?|_]; [lia|].
  unfold bind, sys_alloc. by rewrite Hno.
Qed.

(** [NewAllocator]: the exception leaves [push_back] with the data members
    and the heap unchanged; it also leaves it between [lock] and [unlock]. *)
Lemma push_back_refused_new this x w d l cap :
  holds w this d l cap → Z.of_nat (length l) = cap →
  new_capacity cap * sizeofT < SIZE_MOD → cap < new_capacity cap →
  hd true (oracle w) = false →
  push_back sizeofT NewAllocator this x w =
    Raise (World (heap w) (next_addr w) (tl (oracle w)) (objs w)
                 (trace w ++ [EvLock this])).
Proof.
  intros (Hobj & _) Hfull Hfit Hlt Hno. unfold push_back.
  erewrite bind_Done by apply lock_Done.
  erewrite bind_Done by (apply get_Done; exact Hobj).
  erewrite bind_Done by (apply get_Done; exact Hobj).
  cbn [size_ capacity_]. destruct (Z.eqb_spec (Z.of_nat (length l)) cap) as [_|?]; [|done].
  unfold bind at 1.
  by erewrite (reserve_refused_new this _ _ (Vec d (Z.of_nat (length l)) cap)).
Qed.

(** [MallocAllocator]: the null pointer is installed as the buffer of an
    empty [Vector], together with the requested capacity. *)
Lemma reserve_refused_malloc_empty this n w d cap :
  holds w this d [] cap → heap_fresh w → cap < n →
  hd true (oracle w) = false →
  reserve sizeofT MallocAllocator this n w =
    Done tt (World (delete d (heap w)) (next_addr w) (tl (oracle w))
                   (<[this := Vec 0 0 n]> (objs w))
                   (trace w ++ (if decide (d = 0) then [] else [EvDealloc d]))).
Proof.
  intros (Hobj & Hcap & Hshape) Hfresh Hlt Hno. unfold reserve.
  erewrite bind_Done by (apply get_Done; exact Hobj). cbn [capacity_ length] in *.
  destruct (Z.leb_spec n cap) as [?|_]; [lia|].
  erewrite bind_Done by (unfold allocate, sys_alloc; rewrite Hno; reflexivity).
  erewrite bind_Done by (apply get_Done; look). cbn [size_].
  change (Z.of_nat 0) with 0. erewrite bind_Done by apply for_upto_0.
  erewrite bind_Done by (apply get_Done; look). cbn [data_].
  destruct Hshape as [(-> & -> & _)|(Hd & Hpos & rest & Hblk & Hlen)].
  - cbn [Z.eqb]. erewrite bind_Done by reflexivity.
    erewrite bind_Done by (apply set_data_Done; look).
    erewrite set_capacity_Done by look.
    unfold set_objs. cbn [heap next_addr oracle objs trace data_ size_ capacity_].
    rewrite delete_id by (by apply heap_fresh_null).
    apply Done_world_eq; [done|map_solve|by rewrite app_nil_r].
  - destruct (Z.eqb_spec d 0) as [?|_]; [done|].
    erewrite bind_Done by (eapply deallocate_Done; [look|done]).
    erewrite bind_Done by (apply set_data_Done; look).
    erewrite set_capacity_Done by look.
    unfold set_objs, add_event, set_heap.
    cbn [heap next_addr oracle objs trace data_ size_ capacity_].
    rewrite decide_False by done.
    apply Done_world_eq; [done|map_solve|done].
Qed.

(** [MallocAllocator]: with a live element the relocation loop writes through
    the null pointer. *)
Lemma reserve_refused_malloc_populated this n w d x l cap :
  holds w this d (x :: l) cap → heap_fresh w → cap < n →
  hd true (oracle w) = false →
  reserve sizeofT MallocAllocator this n w = Undef.
Proof.
  intros (Hobj & Hcap & Hshape) Hfresh Hlt Hno. unfold reserve.
  erewrite bind_Done by (apply get_Done; exact Hobj). cbn [capacity_] in *.
  destruct (Z.leb_spec n cap) as [?|_]; [lia|].
  erewrite bind_Done by (unfold allocate, sys_alloc; rewrite Hno; reflexivity).
  erewrite bind_Done by (apply get_Done; look). cbn [size_ length].
  destruct Hshape as [(_ & _ & ?)|(Hd & Hpos & rest & Hblk & Hlen)]; [done|].
  unfold for_upto. rewrite Nat2Z.id. cbn [for_loop].
  unfold bind at 1. unfold bind at 1.
  erewrite bind_Done by (apply get_Done; look). cbn [data_].
  erewrite bind_Done by (eapply (load_Done _ _ _ 0%nat x); [look|done]).
  unfold bind at 1, placement_new. cbn [heap].
  by rewrite (heap_fresh_null w Hfresh).
Qed.

(** [MallocAllocator]: a [push_back] that has to grow writes through the
    null pointer, whether the [Vector] is empty or not. *)
Lemma push_back_refused_malloc this x w d l cap :
  holds w this d l cap → heap_fresh w → Z.of_nat (length l) = cap →
  cap < new_capacity cap → hd true (oracle w) = false →
  push_back sizeofT MallocAllocator this x w = Undef.
Proof.
  intros Hh Hfresh Hfull Hlt Hno. pose proof Hh as (Hobj & _). unfold push_back.
  erewrite bind_Done by apply lock_Done.
  erewrite bind_Done by (apply get_Done; exact Hobj).
  erewrite bind_Done by (apply get_Done; exact Hobj).
  cbn [size_ capacity_]. destruct (Z.eqb_spec (Z.of_nat (length l)) cap) as [_|?]; [|done].
  assert (holds (add_event (EvLock this) w) this d l cap) as Hh' by exact Hh.
  destruct l as [|y l].
  - erewrite bind_Done.
    2:{ by apply (reserve_refused_malloc_empty this _ _ d cap Hh'). }
    erewrite bind_Done by (apply get_Done; look).
    erewrite bind_Done by (apply get_Done; look).
    cbn [data_ size_]. unfold bind at 1, placement_new. cbn [heap add_event].
    assert (delete d (heap w) !! 0 = None) as ->; [|done].
    destruct (decide (d = 0)) as [->|?]; [apply lookup_delete_eq|].
    rewrite lookup_delete_ne by done. by apply heap_fresh_null.
  - unfold bind at 1.
    by rewrite (reserve_refused_malloc_populated this _ _ d y l cap Hh').
Qed.

(** ** The invariant of the data members when no request is refused *)

Lemma holds_state_inv w this d l cap :
  holds w this d l cap → state_inv (Vec d (Z.of_nat (length l)) cap).
Proof.
  intros (_ & _ & [(-> & -> & ->)|(Hd & Hpos & rest & _ & Hlen)]).
  - done.
  - split; cbn [data_ size_ capacity_]; lia.
Qed.

(** ** Well-formed worlds *)

Lemma wf_holds w this v :
  wf w → objs w !! this = Some v →
  ∃ l, v = Vec (data_ v) (Z.of_nat (length l)) (capacity_ v) ∧
       holds w this (data_ v) l (capacity_ v).
Proof.
  intros (_ & Hall & _) Hobj. destruct (Hall this v Hobj) as [l Hh].
  exists l. split; [|done]. destruct Hh as (Hobj' & _). congruence.
Qed.

Lemma wf_state_inv w this v : wf w → objs w !! this = Some v → state_inv v.
Proof.
  intros Hwf Hobj. destruct (wf_holds w this v Hwf Hobj) as (l & -> & Hh).
  by eapply holds_state_inv.
Qed.

Lemma wf_apart w (o1 o2 : Z) v1 v2 :
  wf w → objs w !! o1 = Some v1 → objs w !! o2 = Some v2 → o1 ≠ o2 →
  data_ v1 ≠ 0 → data_ v1 ≠ data_ v2.
Proof. intros (_ & _ & Hown). apply Hown. Qed.

Lemma holds_block w this d l cap :
  holds w this d l cap → d ≠ 0 → is_Some (heap w !! d).
Proof. intros (_ & _ & [(? & _)|(_ & _ & rest & Hblk & _)]) Hd; [done|eauto]. Qed.

Lemma holds_null w w' this l cap :
  holds w this 0 l cap → objs w' !! this = objs w !! this → holds w' this 0 l cap.
Proof.
  intros (Hobj & Hcap & [?|(? & _)]) Ho; [|done].
  split; [by rewrite Ho|]. split; [done|by left].
Qed.

(** A change of one [Vector] that keeps it well formed keeps the world well
    formed. *)
Lemma wf_change w w' this old new l' cap' :
  wf w →
  (∀ v, objs w !! this = Some v → data_ v = old) →
  (objs w !! this = None → old = 0) →
  changes_only w w' this old new →
  holds w' this new l' cap' → heap_fresh w' →
  wf w'.
Proof.
  intros Hwf Hold Hnone (Hobjs & Hheap & Hnew) Hh' Hfresh'.
  pose proof Hwf as (Hfresh & Hall & Hown).
  assert (∀ o vo, o ≠ this → objs w !! o = Some vo → data_ vo ≠ 0 →
                  data_ vo ≠ old ∧ data_ vo ≠ new) as Hother.
  { intros o vo Ho Hvo Hd. destruct (Hall o vo Hvo) as [lo Hlo].
    pose proof (holds_block _ _ _ _ _ Hlo Hd) as [bo Hbo].
    assert (data_ vo ≠ old) as Hne.
    { destruct (objs w !! this) as [v|] eqn:Ethis.
      - rewrite <- (Hold v eq_refl). by apply (Hown o this vo v).
      - by rewrite Hnone. }
    split; [done|]. destruct Hnew as [->|[->|Hn]]; [done|done|congruence]. }
  split; [done|]. split.
  - intros o vo Hvo. destruct (decide (o = this)) as [->|Ho].
    + destruct Hh' as (Hobj' & Hrest). rewrite Hobj' in Hvo. injection Hvo as <-.
      exists l'. by split.
    + rewrite (Hobjs o Ho) in Hvo. destruct (Hall o vo Hvo) as [lo Hlo]. exists lo.
      destruct (decide (data_ vo = 0)) as [Hz|Hnz].
      * rewrite Hz in *. eapply holds_null; [exact Hlo|by apply Hobjs].
      * destruct (Hother o vo Ho Hvo Hnz).
        eapply holds_frame; [exact Hlo|by apply Hobjs|by apply Hheap].
  - intros o1 o2 v1 v2 H1 H2 Hne Hd1.
    destruct (decide (o1 = this)) as [->|Ht1]; destruct (decide (o2 = this)) as [->|Ht2].
    + done.
    + rewrite (Hobjs o2 Ht2) in H2. destruct Hh' as (Hobj' & _).
      rewrite Hobj' in H1. injection H1 as <-. cbn [data_] in *.
      destruct (decide (data_ v2 = 0)) as [Hz|Hnz]; [congruence|].
      destruct (Hother o2 v2 Ht2 H2 Hnz). congruence.
    + rewrite (Hobjs o1 Ht1) in H1. destruct Hh' as (Hobj' & _).
      rewrite Hobj' in H2. injection H2 as <-. cbn [data_].
      by destruct (Hother o1 v1 Ht1 H1 Hd1).
    + rewrite (Hobjs o1 Ht1) in H1. rewrite (Hobjs o2 Ht2) in H2. by eapply Hown.
Qed.

(** A copy into [B], whose old buffer [old] (null for a new object) was
    released, keeps the world well formed. *)
Lemma copied_wf w A B vA l old le ue w' :
  wf w → A ≠ B → objs w !! A = Some vA →
  holds w A (data_ vA) l (capacity_ vA) →
  (∀ vB, objs w !! B = Some vB → data_ vB = old) →
  (objs w !! B = None → old = 0) →
  copied w (delete old (heap w)) B l (capacity_ vA) le ue w' →
  wf w'.
Proof.
  intros Hwf Hne HA Hh Hold Hnone Hc. pose proof Hwf as (Hfresh & _).
  assert (data_ vA ≠ 0 → data_ vA ≠ old) as Hshare.
  { intros Hd. destruct (objs w !! B) as [vB|] eqn:EB.
    - rewrite <- (Hold vB eq_refl). by apply (wf_apart w A B vA vB).
    - by rewrite Hnone. }
  destruct (copied_holds w _ A B (data_ vA) l (capacity_ vA) le ue w' Hc Hne Hh Hfresh)
    as (dB & HB' & _ & _); [by apply delete_other|].
  unfold copied in Hc. destruct (decide (capacity_ vA = 0)) as [Hz|Hnz]; subst w'.
  - assert (dB = 0) as ->.
    { destruct HB' as (Hobj' & _). cbn [objs] in Hobj'.
      rewrite lookup_insert_eq in Hobj'. by injection Hobj'. }
    eapply (wf_change w _ B old 0); eauto; [|by apply heap_fresh_delete].
    frame_solve. by right; left.
  - assert (dB = next_addr w) as ->.
    { destruct HB' as (Hobj' & _). cbn [objs] in Hobj'.
      rewrite lookup_insert_eq in Hobj'. by injection Hobj'. }
    eapply (wf_change w _ B old (next_addr w)); eauto.
    + frame_solve. right; right. by apply heap_fresh_next.
    + by apply heap_fresh_grow.
Qed.

(** A move from [A] to [B], whose old buffer [dB] (null for a new object)
    is released, keeps the world well formed. *)
Lemma wf_move w A B vA dB o t :
  wf w → A ≠ B → objs w !! A = Some vA →
  (∀ vB, objs w !! B = Some vB → data_ vB = dB) →
  (objs w !! B = None → dB = 0) →
  wf (World (delete dB (heap w)) (next_addr w) o
            (<[A := Vec 0 0 0]> (<[B := vA]> (objs w))) t).
Proof.
  intros Hwf Hne HA HB Hnone. pose proof Hwf as (Hfresh & Hall & Hown).
  assert (∀ x vx, x ≠ B → objs w !! x = Some vx →
                  delete dB (heap w) !! data_ vx = heap w !! data_ vx) as Hkeep.
  { intros x vx Hx Hvx. apply delete_other; [done|]. intros Hd.
    destruct (objs w !! B) as [vB|] eqn:EB.
    - rewrite <- (HB vB eq_refl). by apply (Hown x B vx vB).
    - by rewrite Hnone. }
  split; [by apply heap_fresh_delete|]. split.
  - intros x vx. cbn [objs]. destruct (decide (x = A)) as [->|HxA].
    + rewrite lookup_insert_eq. intros [= <-]. exists []. split; [look|].
      split; [done|by left].
    + rewrite lookup_insert_ne by done. destruct (decide (x = B)) as [->|HxB].
      * rewrite lookup_insert_eq. intros [= <-].
        destruct (wf_holds w A vA Hwf HA) as (l & Hv & Hh). exists l.
        destruct Hh as (_ & Hcap & Hshape). split; [|split; [done|]].
        -- cbn [objs]. rewrite lookup_insert_ne by done. rewrite lookup_insert_eq.
           by f_equal.
        -- destruct Hshape as [?|(Hd & Hpos & rest & Hblk & Hlen)]; [by left|right].
           split; [done|]. split; [done|]. exists rest. split; [|done].
           cbn [heap]. by rewrite (Hkeep A vA).
      * rewrite lookup_insert_ne by done. intros Hvx.
        destruct (Hall x vx Hvx) as [lx Hlx]. exists lx.
        eapply holds_frame; [exact Hlx| |]; cbn [objs heap].
        -- by rewrite !lookup_insert_ne.
        -- by apply (Hkeep x vx).
  - intros o1 o2 v1 v2. cbn [objs]. intros H1 H2 H12 Hd1.
    assert (∀ x vx, <[A := Vec 0 0 0]> (<[B := vA]> (objs w)) !! x = Some vx →
                    data_ vx ≠ 0 →
                    (x = B ∧ vx = vA) ∨ (x ≠ A ∧ x ≠ B ∧ objs w !! x = Some vx)) as Hcase.
    { intros x vx Hvx Hdx. destruct (decide (x = A)) as [->|HxA].
      - rewrite lookup_insert_eq in Hvx. by injection Hvx as <-.
      - rewrite lookup_insert_ne in Hvx by done. destruct (decide (x = B)) as [->|HxB].
        + rewrite lookup_insert_eq in Hvx. injection Hvx as <-. by left.
        + rewrite lookup_insert_ne in Hvx by done. by right. }
    destruct (Hcase o1 v1 H1 Hd1) as [[-> ->]|(H1A & H1B & H1')].
    + destruct (decide (o2 = A)) as [->|H2A].
      { rewrite lookup_insert_eq in H2. by injection H2 as <-. }
      rewrite !lookup_insert_ne in H2 by done. by apply (Hown A o2 vA v2).
    + destruct (decide (o2 = A)) as [->|H2A].
      { rewrite lookup_insert_eq in H2. by injection H2 as <-. }
      rewrite lookup_insert_ne in H2 by done. destruct (decide (o2 = B)) as [->|H2B].
      * rewrite lookup_insert_eq in H2. injection H2 as <-.
        by apply (Hown o1 A v1 vA).
      * rewrite lookup_insert_ne in H2 by done. by apply (Hown o1 o2 v1 v2).
Qed.

(** The end of a [Vector] and of its buffer keeps the world well formed. *)
Lemma wf_remove w this v o t :
  wf w → objs w !! this = Some v →
  wf (World (delete (data_ v) (heap w)) (next_addr w) o (delete this (objs w)) t).
Proof.
  intros Hwf Hobj. pose proof Hwf as (Hfresh & Hall & Hown).
  split; [by apply heap_fresh_delete|]. split.
  - intros x vx. cbn [objs]. intros Hvx.
    apply lookup_delete_Some in Hvx as [Hx Hvx].
    destruct (Hall x vx Hvx) as [lx Hlx]. exists lx.
    eapply holds_frame; [exact Hlx| |]; cbn [objs heap].
    + by rewrite lookup_delete_ne.
    + apply delete_other; [done|]. intros Hd. by apply (Hown x this vx v).
  - intros o1 o2 v1 v2. cbn [objs]. intros H1 H2.
    apply lookup_delete_Some in H1 as [_ H1]. apply lookup_delete_Some in H2 as [_ H2].
    by apply Hown.
Qed.

(** A world without objects and without blocks is well formed. *)
Lemma wf_start (n : Z) (o : list bool) (t : list event) :
  0 < n → wf (World (T:=T) ∅ n o ∅ t).
Proof.
  intros Hn. split; [split; [done|apply map_Forall_empty]|].
  split; cbn [objs]; intros *; by rewrite lookup_empty.
Qed.

(** Every public operation takes a well-formed world to a well-formed
    world, and returns, as long as the system satisfies the allocation
    requests it makes. *)
Lemma wf_preserved :
  (∀ this w, wf w → objs w !! this = None →
     ∃ w', Vector_default this w = Done tt w' ∧ wf w') ∧
  (∀ this n w,
     wf w → objs w !! this = None → 0 ≤ n < SIZE_MOD →
     (0 < n → can_alloc sizeofT n w) →
     ∃ w', Vector_sized dflt sizeofT AP this n w = Done tt w' ∧ wf w') ∧
  (∀ A B w vA,
     wf w → objs w !! A = Some vA → objs w !! B = None →
     (0 < capacity_ vA → can_alloc sizeofT (capacity_ vA) w) →
     ∃ w', Vector_copy sizeofT AP B A w = Done tt w' ∧ wf w') ∧
  (∀ A B w vA vB,
     wf w → objs w !! A = Some vA → objs w !! B = Some vB →
     (0 < capacity_ vA → can_alloc sizeofT (capacity_ vA) w) →
     ∃ w', copy_assign sizeofT AP B A w = Done tt w' ∧ wf w') ∧
  (∀ A B w vA,
     wf w → objs w !! A = Some vA → objs w !! B = None →
     ∃ w', Vector_move B A w = Done tt w' ∧ wf w') ∧
  (∀ A B w vA vB,
     wf w → objs w !! A = Some vA → objs w !! B = Some vB →
     ∃ w', move_assign B A w = Done tt w' ∧ wf w') ∧
  (∀ this x w v,
     wf w → objs w !! this = Some v →
     (size_ v = capacity_ v →
        2 * capacity_ v < SIZE_MOD ∧
        can_alloc sizeofT (new_capacity (capacity_ v)) w) →
     ∃ w', push_back sizeofT AP this x w = Done tt w' ∧ wf w') ∧
  (∀ this w v,
     wf w → objs w !! this = Some v →
     ∃ w', pop_back this w = Done tt w' ∧ wf w') ∧
  (∀ this n w v,
     wf w → objs w !! this = Some v →
     (capacity_ v < n → can_alloc sizeofT n w) →
     ∃ w', reserve sizeofT AP this n w = Done tt w' ∧ wf w') ∧
  (∀ this i x w v,
     wf w → objs w !! this = Some v → 0 ≤ i < size_ v →
     ∃ w', index_write this i x w = Done tt w' ∧ wf w') ∧
  (∀ this w v,
     wf w → objs w !! this = Some v →
     ∃ w', Vector_destroy this w = Done tt w' ∧ wf w').
Proof.
  repeat apply conj.
  - (* Vector() *)
    intros this w Hwf Hnew. eexists. split; [by apply Vector_default_Done|].
    apply (wf_change w _ this 0 0 [] 0 Hwf); [congruence|done| | |apply Hwf].
    + frame_solve. by left.
    + split; [cbn; look|]. split; [done|by left].
  - (* Vector(n) *)
    intros this n w Hwf Hnew Hn Halloc.
    destruct (Vector_sized_Done this n w) as (w' & d & Hrun & Hh & Hf & Hch);
      [done|apply Hwf|done|done|].
    exists w'. split; [done|]. eapply (wf_change w w' this 0 d); eauto. congruence.
  - (* Vector(const Vector&) *)
    intros A B w vA Hwf HA Hnew Halloc.
    destruct (wf_holds w A vA Hwf HA) as (l & Hv & Hh).
    destruct (Vector_copy_Done A B w (data_ vA) l (capacity_ vA)) as (w' & Hrun & Hc);
      [done|done|apply Hwf|done|].
    exists w'. split; [done|].
    rewrite <- (delete_id (heap w) 0) in Hc by (apply heap_fresh_null, Hwf).
    eapply (copied_wf w A B vA l 0); [done|congruence|done|done|congruence|done|exact Hc].
  - (* operator=(const Vector&) *)
    intros A B w vA vB Hwf HA HB Halloc.
    destruct (decide (B = A)) as [->|Hne].
    { exists w. split; [|done]. unfold copy_assign. by rewrite decide_True. }
    destruct (wf_holds w A vA Hwf HA) as (l & Hv & Hh).
    destruct (wf_holds w B vB Hwf HB) as (lB & HvB & HhB).
    destruct (copy_assign_Done A B w (data_ vA) l (capacity_ vA)
                (data_ vB) lB (capacity_ vB)) as (w' & Hrun & Hc);
      [done|done|done|by apply (wf_apart w A B vA vB)|apply Hwf|done|].
    exists w'. split; [done|].
    eapply (copied_wf w A B vA l (data_ vB));
      [done|done|done|done|congruence|congruence|exact Hc].
  - (* Vector(Vector&&) *)
    intros A B w vA Hwf HA Hnew. assert (A ≠ B) as Hne by congruence.
    eexists. split; [by eapply Vector_move_Done|].
    rewrite <- (delete_id (heap w) 0) by (apply heap_fresh_null, Hwf).
    apply wf_move; [done|done|done|congruence|done].
  - (* operator=(Vector&&) *)
    intros A B w vA vB Hwf HA HB.
    destruct (decide (B = A)) as [->|Hne].
    { exists w. split; [|done]. unfold move_assign. by rewrite decide_True. }
    destruct (wf_holds w B vB Hwf HB) as (lB & HvB & HhB).
    eexists. split; [by eapply move_assign_Done; [done|exact HhB|apply Hwf|exact HA]|].
    apply wf_move; [done|done|done|congruence|congruence].
  - (* push_back *)
    intros this x w v Hwf Hobj Hgrow.
    destruct (wf_holds w this v Hwf Hobj) as (l & Hv & Hh).
    destruct (push_back_holds this x w (data_ v) l (capacity_ v))
      as (w' & d' & evs & Hrun & Hh' & Hf & _ & _ & _ & Hch); [done|apply Hwf| |].
    { intros Hfull. apply Hgrow. rewrite Hv. exact Hfull. }
    exists w'. split; [done|]. eapply (wf_change w w' this (data_ v) d'); eauto; congruence.
  - (* pop_back *)
    intros this w v Hwf Hobj.
    destruct (wf_holds w this v Hwf Hobj) as (l & Hv & Hh).
    destruct l as [|x l _] using rev_ind.
    + eexists. split; [by eapply pop_back_empty|].
      destruct Hwf as (Hf & Hall & Hown). split; [exact Hf|]. split; [|exact Hown].
      intros o vo Hvo. destruct (Hall o vo Hvo) as [lo Hlo]. exists lo.
      eapply holds_frame; [exact Hlo|done|done].
    + destruct (pop_back_last this w (data_ v) l x (capacity_ v) Hh)
        as (b & w' & Hblk & Hw' & Hrun & Hh').
      exists w'. split; [done|].
      eapply (wf_change w w' this (data_ v) (data_ v)); eauto; [congruence|congruence| |].
      * subst w'. frame_solve. by left.
      * subst w'. eapply heap_fresh_update; [apply Hwf|exact Hblk].
  - (* reserve *)
    intros this n w v Hwf Hobj Halloc.
    destruct (wf_holds w this v Hwf Hobj) as (l & Hv & Hh).
    destruct (Z.le_gt_cases n (capacity_ v)) as [Hle|Hgt].
    + exists w. split; [by apply (reserve_noop this n w v)|done].
    + assert (capacity_ v < n) as Hlt by lia.
      eexists. split; [apply (reserve_grow this n w (data_ v) l (capacity_ v));
                         [done|apply Hwf|by apply Halloc|done]|].
      assert (n < SIZE_MOD) as Hn.
      { destruct (Halloc Hlt) as (_ & ? & ? & ?). nia. }
      destruct (holds_after_grow this n w (data_ v) l (capacity_ v) Hh (proj1 Hwf)
                  (conj Hlt Hn) (tl (oracle w))
                  (trace w ++ [EvAlloc (next_addr w) n] ++
                     move_events (next_addr w) (data_ v) (length l) ++
                     (if decide (data_ v = 0) then [] else [EvDealloc (data_ v)])))
        as [Hh' Hf'].
      eapply (wf_change w _ this (data_ v) (next_addr w)); eauto; [congruence|congruence|].
      frame_solve. right; right. apply heap_fresh_next, Hwf.
  - (* operator[] and a write *)
    intros this i x w v Hwf Hobj Hi.
    destruct (wf_holds w this v Hwf Hobj) as (l & Hv & Hh).
    rewrite Hv in Hi. cbn [size_] in Hi.
    destruct (lookup_lt_is_Some_2 l (Z.to_nat i)) as [y Hy]; [lia|].
    destruct (index_write_holds this w (data_ v) l (capacity_ v) (Z.to_nat i) x y Hh Hy)
      as (w' & Hrun & Hh' & _ & Hf & Hch).
    rewrite Z2Nat.id in Hrun by lia.
    exists w'. split; [done|].
    eapply (wf_change w w' this (data_ v) (data_ v)); eauto; [congruence|congruence|].
    apply Hf, Hwf.
  - (* ~Vector() *)
    intros this w v Hwf Hobj.
    destruct (wf_holds w this v Hwf Hobj) as (l & Hv & Hh).
    eexists. split; [by eapply Vector_destroy_Done; [exact Hh|apply Hwf]|].
    by apply wf_remove.
Qed.

(** ** The order of lock acquisition *)

(** The calls on mutexes that an operation on two instances makes: it
    locks [this], then [other], and unlocks them in the reverse order,
    whichever of the two is the destination. *)
Lemma cross_instance_lock_ops :
  (∀ this other w vo,
     objs w !! this = None → objs w !! other = Some vo →
     lock_ops (new_events w (Vector_move this other w))
       = [Acquire this; Acquire other; Release other; Release this]) ∧
  (∀ this other w d l cap vo,
     this ≠ other → holds w this d l cap → heap_fresh w → objs w !! other = Some vo →
     lock_ops (new_events w (move_assign this other w))
       = [Acquire this; Acquire other; Release other; Release this]) ∧
  (∀ this other w d l cap,
     holds w other d l cap → objs w !! this = None → heap_fresh w →
     (0 < cap → can_alloc sizeofT cap w) →
     lock_ops (new_events w (Vector_copy sizeofT AP this other w))
       = [Acquire this; Acquire other; Release other; Release this]) ∧
  (∀ this other w d l cap d0 l0 cap0,
     this ≠ other → holds w other d l cap → holds w this d0 l0 cap0 →
     (d ≠ 0 → d ≠ d0) → heap_fresh w → (0 < cap → can_alloc sizeofT cap w) →
     lock_ops (new_events w (copy_assign sizeofT AP this other w))
       = [Acquire this; Acquire other; Release other; Release this]).
Proof.
  split; [|split; [|split]].
  - intros this other w vo Hnew Ho.
    erewrite Vector_move_Done by done. by erewrite new_events_app by reflexivity.
  - intros this other w d l cap vo Hne Hh Hfresh Ho.
    erewrite move_assign_Done by done. erewrite new_events_app by reflexivity.
    rewrite !lock_ops_app, (lock_ops_elements (EvDestroy _)), lock_ops_dealloc by done.
    done.
  - intros this other w d l cap Hh Hnew Hfresh Halloc.
    destruct (Vector_copy_Done other this w d l cap) as (w' & -> & Hc); try done.
    by rewrite (copied_lock_ops _ _ _ _ _ _ _ _ Hc).
  - intros this other w d l cap d0 l0 cap0 Hne Hh Hh0 Hshare Hfresh Halloc.
    destruct (copy_assign_Done other this w d l cap d0 l0 cap0) as (w' & -> & Hc); try done.
    rewrite (copied_lock_ops _ _ _ _ _ _ _ _ Hc).
    rewrite !lock_ops_app, (lock_ops_elements (EvDestroy _)), lock_ops_dealloc by done.
    done.
Qed.

(** * The claims *)

(** C1.  A sequence [vs] of values is pushed into a [Vector] that is
    default-constructed at a free address, in a world whose allocator
    satisfies every request and in which twice the element count still
    fits [size_t] in bytes.  Then the run returns, [size()] is the length
    of [vs], and the indexed read at every [i] returns the [i]-th pushed
    value: the elements are the pushed values in push order. *)
Theorem C1_push_back_in_order this (vs : list T) w :
  objs w !! this = None → heap_fresh w → all_granted w →
  0 < sizeofT → 2 * Z.of_nat (length vs) * sizeofT < SIZE_MOD →
  ∃ w' d cap,
    bind (Vector_default this) (λ _, push_all sizeofT AP this vs) w = Done tt w' ∧
    holds w' this d vs cap ∧
    size this w' = Done (Z.of_nat (length vs)) w' ∧
    ∀ i x, vs !! i = Some x → ∃ w'', index_read this (Z.of_nat i) w' = Done x w''.
Proof.
  intros Hnew Hfresh Hgr Hs Hfit.
  destruct (push_from_default this vs w) as (w' & d & cap & evs & Hrun & Hh & _);
    try done.
  exists w', d, cap. split; [done|]. split; [done|]. split.
  - unfold size. by erewrite get_Done by apply Hh.
  - intros i x Hi. eexists. by eapply index_read_holds.
Qed.

(** C2.  The doubling law.  First, a [push_back] that finds the buffer
    full ([size_ == capacity_]) leaves the capacity [1] if it was [0] and
    twice the old capacity otherwise.  Second, for a [Vector] that starts
    default-constructed and is only pushed into, the capacity after [k]
    growth events (allocations) is [doubled k]: [0] before the first and
    [2^(k-1)] after the [k]-th. *)
Theorem C2_doubling_law :
  (∀ this x w d l cap,
     holds w this d l cap → heap_fresh w → Z.of_nat (length l) = cap →
     2 * cap < SIZE_MOD → can_alloc sizeofT (new_capacity cap) w →
     ∃ w' d',
       push_back sizeofT AP this x w = Done tt w' ∧
       holds w' this d' (l ++ [x]) (if decide (cap = 0) then 1 else 2 * cap)) ∧
  (∀ this (vs : list T) w,
     objs w !! this = None → heap_fresh w → all_granted w →
     0 < sizeofT → 2 * Z.of_nat (length vs) * sizeofT < SIZE_MOD →
     ∃ w' d cap,
       bind (Vector_default this) (λ _, push_all sizeofT AP this vs) w = Done tt w' ∧
       holds w' this d vs cap ∧
       capacity this w' = Done cap w' ∧
       cap = doubled (growths (new_events w (Done tt w')))).
Proof.
  split.
  - intros this x w d l cap Hh Hfresh Hfull Hdbl Halloc.
    destruct (push_back_holds this x w d l cap Hh Hfresh)
      as (w' & d' & evs & Hrun & Hh' & _); [done|].
    exists w', d'. split; [done|].
    rewrite decide_True in Hh' by done.
    rewrite new_capacity_small in Hh'; [done| |done].
    destruct Hh as (_ & _ & [(_ & -> & _)|(_ & _ & rest & _ & <-)]); lia.
  - intros this vs w Hnew Hfresh Hgr Hs Hfit.
    destruct (push_from_default this vs w) as (w' & d & cap & evs & Hrun & Hh & Ht & Hcap);
      try done.
    exists w', d, cap. split; [done|]. split; [done|]. split.
    + unfold capacity. by erewrite get_Done by apply Hh.
    + by rewrite (new_events_app tt w w' evs Ht).
Qed.

(** X22.  [reserve(n)] on a well-formed [Vector] with the elements [l] and
    the capacity [cap].  If [n <= cap] the call returns and the whole state
    is as before.  If [n > cap], the [n] elements fit [size_t] in bytes
    and the allocator satisfies the request, the call returns; afterwards
    [capacity()] is exactly [n], [size()] is unchanged, and the elements
    are [l], in the same index order (each indexed read returns the old
    value).  What [reserve] does when [n * sizeof(T)] does not fit is
    stated separately. *)
Theorem X22_reserve this n w d l cap :
  holds w this d l cap →
  (n ≤ cap → reserve sizeofT AP this n w = Done tt w) ∧
  (cap < n → heap_fresh w → can_alloc sizeofT n w →
   ∃ w',
     reserve sizeofT AP this n w = Done tt w' ∧
     holds w' this (next_addr w) l n ∧
     capacity this w' = Done n w' ∧
     size this w' = Done (Z.of_nat (length l)) w' ∧
     ∀ i x, l !! i = Some x → ∃ w'', index_read this (Z.of_nat i) w' = Done x w'').
Proof.
  intros Hh. split.
  - intros Hle.
    apply (reserve_noop this n w (Vec d (Z.of_nat (length l)) cap)); [apply Hh|done].
  - intros Hlt Hfresh Halloc.
    destruct (reserve_grow_holds this n w d l cap) as (w' & Hrun & Hh' & _); try done.
    exists w'. split; [done|]. split; [done|]. split; [|split].
    + unfold capacity. by erewrite get_Done by apply Hh'.
    + unfold size. by erewrite get_Done by apply Hh'.
    + intros i x Hi. eexists. by eapply index_read_holds.
Qed.

(** C4.  Moving the well-formed [A] into [B], by the move constructor
    ([B] is a new object) or by move assignment ([B] is another well-formed
    instance that does not share [A]'s buffer).  The call returns; [B] then
    has [A]'s buffer pointer, size, capacity and elements; the buffer itself
    is untouched and no copy constructor ran; [A] is left with a null
    buffer, size [0] and capacity [0]. *)
Theorem C4_move_transfers :
  (∀ A B w dA l cap,
     holds w A dA l cap → objs w !! B = None →
     ∃ w',
       Vector_move B A w = Done tt w' ∧
       holds w' B dA l cap ∧
       objs w' !! A = Some (Vec 0 0 0) ∧
       heap w' = heap w ∧
       filter is_copy (new_events w (Done tt w')) = []) ∧
  (∀ A B w dA l cap dB lB capB,
     A ≠ B → holds w A dA l cap → holds w B dB lB capB → heap_fresh w →
     (dA ≠ 0 → dA ≠ dB) →
     ∃ w',
       move_assign B A w = Done tt w' ∧
       holds w' B dA l cap ∧
       objs w' !! A = Some (Vec 0 0 0) ∧
       heap w' !! dA = heap w !! dA ∧
       filter is_copy (new_events w (Done tt w')) = []).
Proof.
  split.
  - intros A B w dA l cap. apply Vector_move_holds.
  - intros A B w dA l cap dB lB capB. apply move_assign_holds.
Qed.

(** C5.  Copying the well-formed [A] into [B], by the copy constructor or
    by copy assignment, when the allocator satisfies the request: the call
    returns, [B] holds the same elements as [A] in a buffer of [A]'s
    capacity which is not [A]'s buffer and was not allocated before, and
    [A] is unchanged.  And whatever sequence of [push_back], [pop_back] and
    indexed writes is then applied to an instance [B] that does not share
    [A]'s buffer, however each of them ends, [A] keeps its size, capacity,
    buffer and elements. *)
Theorem C5_copy_independent :
  (∀ A B w dA l cap,
     holds w A dA l cap → objs w !! B = None → heap_fresh w →
     (0 < cap → can_alloc sizeofT cap w) →
     ∃ w' dB,
       Vector_copy sizeofT AP B A w = Done tt w' ∧
       holds w' B dB l cap ∧ holds w' A dA l cap ∧
       (cap ≠ 0 → dB ≠ dA ∧ heap w !! dB = None)) ∧
  (∀ A B w dA l cap dB0 lB capB,
     B ≠ A → holds w A dA l cap → holds w B dB0 lB capB → (dA ≠ 0 → dA ≠ dB0) →
     heap_fresh w → (0 < cap → can_alloc sizeofT cap w) →
     ∃ w' dB,
       copy_assign sizeofT AP B A w = Done tt w' ∧
       holds w' B dB l cap ∧ holds w' A dA l cap ∧
       (cap ≠ 0 → dB ≠ dA ∧ heap w !! dB = None)) ∧
  (∀ A B w dA l cap (ms : list (mutation T)),
     A ≠ B → holds w A dA l cap → heap_fresh w →
     (∀ vB, objs w !! B = Some vB → dA ≠ 0 → data_ vB ≠ dA) →
     match mutate_all sizeofT AP B ms w with
     | Done _ w' | Raise w' =>
         holds w' A dA l cap ∧ heap w' !! dA = heap w !! dA
     | Undef => True
     end).
Proof.
  split; [|split].
  - intros A B w dA l cap. apply Vector_copy_holds.
  - intros A B w dA l cap dB0 lB capB. apply copy_assign_holds.
  - intros A B w dA l cap ms. apply mutations_leave_alone.
Qed.

(** C7.  [pop_back] on a well-formed [Vector].  With a last element [x]
    at index [size()-1] the call returns, exactly that slot is destructed
    (the only destructor event, the only slot that changes), the size
    drops by one, and the capacity, the buffer and all other elements are
    as before.  On an empty [Vector] the call returns without an error and
    only locks and unlocks: the heap and all data members are as before. *)
Theorem C7_pop_back :
  (∀ this w d l x cap,
     holds w this d (l ++ [x]) cap →
     ∃ b w',
       heap w !! d = Some b ∧
       w' = World (<[d := <[length l := None]> b]> (heap w)) (next_addr w) (oracle w)
                  (<[this := Vec d (Z.of_nat (length l)) cap]> (objs w))
                  (trace w ++ [EvLock this; EvDestroy d (Z.of_nat (length l)); EvUnlock this]) ∧
       pop_back this w = Done tt w' ∧
       holds w' this d l cap) ∧
  (∀ this w d cap,
     holds w this d [] cap →
     pop_back this w =
       Done tt (World (heap w) (next_addr w) (oracle w) (objs w)
                      (trace w ++ [EvLock this; EvUnlock this]))).
Proof.
  split.
  - intros this w d l x cap. apply pop_back_last.
  - intros this w d cap. apply pop_back_empty.
Qed.

(** C10.  Self-assignment, by copy or by move: the guard [this != &other]
    skips the whole body, so the call returns with the state exactly as it
    was; nothing is locked, destructed or released. *)
Theorem C10_self_assignment this w :
  copy_assign sizeofT AP this this w = Done tt w ∧
  move_assign this this w = Done tt w.
Proof.
  unfold copy_assign, move_assign. by rewrite !decide_True by done.
Qed.

(** * Further properties of the code *)

(** ** Construction with a size *)

(** X1.  [Vector(n)]: when the allocator satisfies the request the
    constructor returns a [Vector] with [size() == capacity() == n] whose
    [n] elements are all [T()], in a buffer that was not allocated before;
    every indexed read below [n] returns [T()].  For [n == 0] nothing is
    requested from the allocator and the buffer is null. *)
Theorem X1_sized_constructor this n w :
  objs w !! this = None → heap_fresh w → 0 ≤ n < SIZE_MOD →
  (0 < n → can_alloc sizeofT n w) →
  ∃ w' d,
    Vector_sized dflt sizeofT AP this n w = Done tt w' ∧
    holds w' this d (replicate (Z.to_nat n) dflt) n ∧
    size this w' = Done n w' ∧ capacity this w' = Done n w' ∧
    (∀ i, (i < Z.to_nat n)%nat →
       ∃ w'', index_read this (Z.of_nat i) w' = Done dflt w'') ∧
    (0 < n → d ≠ 0 ∧ heap w !! d = None) ∧
    (n = 0 → d = 0 ∧ heap w' = heap w ∧ oracle w' = oracle w ∧ trace w' = trace w).
Proof.
  intros Hnew Hfresh Hn Halloc.
  destruct (Vector_sized_Done this n w) as (w' & d & Hrun & Hh & _ & Hch); try done.
  exists w', d. split; [done|]. split; [done|].
  pose proof Hh as (Hobj & _ & Hshape). rewrite length_replicate, Z2Nat.id in Hobj by lia.
  split; [unfold size; by erewrite get_Done by exact Hobj|].
  split; [unfold capacity; by erewrite get_Done by exact Hobj|].
  split; [|split].
  - intros i Hi. eexists. eapply index_read_holds; [exact Hh|].
    by apply lookup_replicate_2.
  - intros Hpos. destruct Hshape as [(_ & ? & _)|(Hd & _)]; [lia|].
    split; [done|]. destruct Hch as (_ & _ & [?|[?|?]]); congruence.
  - intros ->. destruct Hshape as [(-> & _)|(_ & ? & _)]; [|lia].
    split; [done|]. revert Hrun. unfold Vector_sized.
    erewrite bind_Done by (by apply new_object_Done).
    erewrite bind_Done by (apply set_size_Done; look).
    erewrite bind_Done by (apply set_capacity_Done; look).
    cbn [Z.ltb Z.compare]. unfold ret. by intros [= <-].
Qed.

(** ** Destruction *)

(** X2.  [~Vector()] on a well-formed [Vector]: the live elements are
    destructed once each, in index order, then the buffer is released (a
    null buffer is not), and nothing else happens.  Every other well-formed
    [Vector], which owns another buffer, is as before. *)
Theorem X2_destructor this w d l cap :
  holds w this d l cap → heap_fresh w →
  ∃ w',
    Vector_destroy this w = Done tt w' ∧
    new_events w (Done tt w') =
      (EvDestroy d <$> iota (length l)) ++ (if decide (d = 0) then [] else [EvDealloc d]) ∧
    objs w' !! this = None ∧ heap w' !! d = None ∧
    (∀ q, q ≠ d → heap w' !! q = heap w !! q) ∧
    (∀ o dO lO capO,
       o ≠ this → holds w o dO lO capO → (dO ≠ 0 → dO ≠ d) → holds w' o dO lO capO).
Proof.
  intros Hh Hfresh. eexists. split; [by eapply Vector_destroy_Done|].
  split; [by erewrite new_events_app by reflexivity|].
  cbn [objs heap]. split; [apply lookup_delete_eq|]. split; [apply lookup_delete_eq|].
  split; [intros q Hq; by rewrite lookup_delete_ne|].
  intros o dO lO capO Ho (HobjO & HcapO & HshapeO) Hshare.
  split; [cbn [objs]; by rewrite lookup_delete_ne|]. split; [done|].
  destruct HshapeO as [?|(HdO & Hpos & rest & Hblk & Hlen)]; [by left|right].
  split; [done|]. split; [done|]. exists rest. split; [|done].
  cbn [heap]. rewrite lookup_delete_ne; [done|]. intros ->. by apply Hshare.
Qed.

(** ** Indexed access *)

(** X3.  [operator[]] has no bounds check.  On a well-formed [Vector] an
    index below [size()] yields that element, with the mutex locked and
    unlocked around the access and nothing else changed; an index at or
    beyond [capacity()] (any index at all on an empty [Vector] without a
    buffer) refers outside the buffer, which is undefined behaviour and not
    an exception. *)
Theorem X3_index_bounds this w d l cap :
  holds w this d l cap → heap_fresh w →
  (∀ i x, l !! i = Some x →
     index_read this (Z.of_nat i) w =
       Done x (World (heap w) (next_addr w) (oracle w) (objs w)
                     (trace w ++ [EvLock this; EvUnlock this]))) ∧
  (∀ i x, cap ≤ i → index_read this i w = Undef ∧ index_write this i x w = Undef).
Proof.
  intros Hh Hfresh. split.
  - intros i x Hi. erewrite index_read_holds by done.
    unfold add_event. cbn [heap next_addr oracle objs trace]. by rewrite <- app_assoc.
  - intros i x Hi. destruct Hh as (Hobj & Hcap & Hshape).
    assert (index this i w = Undef) as Hundef.
    { unfold index. erewrite bind_Done by apply lock_Done.
      erewrite bind_Done by (apply get_Done; exact Hobj). cbn [data_].
      unfold bind at 1. cbn [add_event heap].
      destruct Hshape as [(-> & _)|(Hd & Hpos & rest & Hblk & Hlen)].
      - by rewrite (heap_fresh_null w Hfresh).
      - rewrite Hblk. unfold in_block. rewrite length_app, length_fmap.
        destruct (Z.ltb_spec i (Z.of_nat (length l + length rest))) as [?|_]; [lia|].
        by rewrite andb_false_r. }
    unfold index_read, index_write, bind. by rewrite Hundef.
Qed.

(** X4.  Writing through [operator[]] and reading back.  After [v[i] = x]
    with [i < size()], the read [v[i]] returns [x], the read at every other
    index below [size()] returns what it returned before, and the data members
    ([data_], [size_], [capacity_]) of every [Vector] are as before. *)
Theorem X4_write_then_read this w d l cap i x y :
  holds w this d l cap → l !! i = Some y →
  ∃ w',
    index_write this (Z.of_nat i) x w = Done tt w' ∧
    holds w' this d (<[i := x]> l) cap ∧
    (∃ w'', index_read this (Z.of_nat i) w' = Done x w'') ∧
    (∀ j z, j ≠ i → l !! j = Some z →
       ∃ w'', index_read this (Z.of_nat j) w' = Done z w'') ∧
    objs w' = objs w.
Proof.
  intros Hh Hi.
  destruct (index_write_holds this w d l cap i x y Hh Hi) as (w' & Hrun & Hh' & Hobjs & _).
  exists w'. split; [done|]. split; [done|]. split; [|split; [|done]].
  - eexists. eapply index_read_holds; [exact Hh'|].
    apply list_lookup_insert_eq. by eapply lookup_lt_Some.
  - intros j z Hne Hj. eexists. eapply index_read_holds; [exact Hh'|].
    by rewrite list_lookup_insert_ne.
Qed.

(** [Vector(n)] with [n > 0], step by step. *)
Lemma Vector_sized_world this n w :
  objs w !! this = None → heap_fresh w → 0 < n → can_alloc sizeofT n w →
  Vector_sized dflt sizeofT AP this n w =
    Done tt (World (<[next_addr w := replicate (Z.to_nat n) (Some dflt)]> (heap w))
                   (next_addr w + 1) (tl (oracle w))
                   (<[this := Vec (next_addr w) n n]> (objs w))
                   (trace w ++ [EvAlloc (next_addr w) n] ++
                      (EvDefault (next_addr w) <$> iota (Z.to_nat n)))).
Proof.
  intros Hnew Hfresh Hpos Halloc.
  assert (n < SIZE_MOD) as Hn. { destruct Halloc as (_ & ? & ? & ?). nia. }
  unfold Vector_sized.
  erewrite bind_Done by (by apply new_object_Done).
  erewrite bind_Done by (apply set_size_Done; look).
  erewrite bind_Done by (apply set_capacity_Done; look).
  cbn [data_ size_ capacity_].
  destruct (Z.ltb_spec 0 n) as [_|?]; [|lia].
  erewrite bind_Done by (apply allocate_Done; [by apply Halloc|apply Hfresh]).
  cbn [set_objs heap next_addr oracle objs trace]. set (p := next_addr w).
  erewrite bind_Done by (apply set_data_Done; look).
  erewrite bind_Done by (apply get_Done; look).
  cbn [data_ size_ capacity_].
  erewrite (default_loop this _ (Vec p n n)); cbn [data_ set_objs objs heap];
    [|look|apply lookup_insert_eq|rewrite length_replicate; lia|lia].
  rewrite length_replicate. cbn [next_addr oracle trace].
  apply Done_world_eq; [by rewrite insert_insert_eq|map_solve|].
  cbn [set_objs trace]. by rewrite <- app_assoc.
Qed.

(** ** Pushing *)

Lemma growths_cons e t :
  growths (e :: t) = ((if is_alloc e then 1 else 0) + growths t)%nat.
Proof. unfold growths. rewrite filter_cons. by destruct (is_alloc e). Qed.

(** Pushes that find room. *)
Lemma push_all_room this vs w d l cap :
  holds w this d l cap → Z.of_nat (length l + length vs) ≤ cap →
  ∃ w' evs,
    push_all sizeofT AP this vs w = Done tt w' ∧
    holds w' this d (l ++ vs) cap ∧
    trace w' = trace w ++ evs ∧ growths evs = 0%nat ∧
    oracle w' = oracle w ∧ next_addr w' = next_addr w ∧
    (∀ o, o ≠ this → objs w' !! o = objs w !! o) ∧
    (∀ q, q ≠ d → heap w' !! q = heap w !! q).
Proof.
  revert w l. induction vs as [|x vs IH]; intros w l Hh Hlen.
  - exists w, []. rewrite !app_nil_r. done.
  - cbn [length] in Hlen. pose proof Hh as (Hobj & Hcap & Hshape).
    destruct Hshape as [(_ & -> & _)|(Hd & Hpos & rest & Hblk & Hlen')]; [lia|].
    assert (rest ≠ []) as Hrest. { intros ->. cbn [length] in Hlen'. lia. }
    pose proof (push_back_room this x w d l cap rest Hobj Hblk) as Hstep.
    destruct (IH
      (World (<[d := (Some <$> (l ++ [x])) ++ tl rest]> (heap w)) (next_addr w) (oracle w)
             (<[this := Vec d (Z.of_nat (length (l ++ [x]))) cap]> (objs w))
             (trace w ++ [EvLock this; EvCopy d (Z.of_nat (length l)); EvUnlock this]))
      (l ++ [x])) as (w' & evs & Hrun & Hh' & Ht & Hg & Ho & Hn & Hobjs & Hheap).
    { split; [apply lookup_insert_eq|]. split; [done|]. right. split; [done|].
      split; [done|]. exists (tl rest). split; [apply lookup_insert_eq|].
      destruct rest; [done|]. rewrite length_app. cbn [length tl] in *. lia. }
    { rewrite length_app. cbn [length]. lia. }
    cbn [heap next_addr oracle objs trace] in *.
    exists w', ([EvLock this; EvCopy d (Z.of_nat (length l)); EvUnlock this] ++ evs).
    split; [|split; [|split; [|split; [|split; [|split; [|split]]]]]]; try done.
    + cbn [push_all]. erewrite bind_Done; [exact Hrun|]. apply Hstep; [lia|done].
    + by rewrite <- app_assoc in Hh'.
    + by rewrite Ht, <- app_assoc.
    + intros o Ho'. rewrite Hobjs by done. by rewrite lookup_insert_ne.
    + intros q Hq. rewrite Hheap by done. by rewrite lookup_insert_ne.
Qed.

(** X5.  While there is room, [push_back] never allocates and never moves
    the buffer: on a well-formed [Vector] with the elements [l] and the
    capacity [cap], pushing values [vs] with [size() + |vs| <= cap] returns,
    appends [vs] in order, keeps the buffer pointer and the capacity, asks
    the allocator for nothing, and leaves every other block and every other
    [Vector] as it was. *)
Theorem X5_push_within_capacity this vs w d l cap :
  holds w this d l cap → Z.of_nat (length l + length vs) ≤ cap →
  ∃ w' evs,
    push_all sizeofT AP this vs w = Done tt w' ∧
    holds w' this d (l ++ vs) cap ∧
    trace w' = trace w ++ evs ∧ growths evs = 0%nat ∧
    oracle w' = oracle w ∧ next_addr w' = next_addr w ∧
    (∀ o, o ≠ this → objs w' !! o = objs w !! o) ∧
    (∀ q, q ≠ d → heap w' !! q = heap w !! q).
Proof. apply push_all_room. Qed.

(** X21.  [reserve(n)] pays for the pushes that follow.  After
    [reserve(n)] with [n] above the capacity (the allocator satisfying the
    request), pushing values [vs] with [size() + |vs| <= n] allocates
    nothing more and keeps the buffer that [reserve] obtained; the elements
    are the old ones followed by [vs]. *)
Theorem X21_reserve_then_push this n vs w d l cap :
  holds w this d l cap → heap_fresh w → cap < n → can_alloc sizeofT n w →
  Z.of_nat (length l + length vs) ≤ n →
  ∃ w',
    bind (reserve sizeofT AP this n) (λ _, push_all sizeofT AP this vs) w = Done tt w' ∧
    holds w' this (next_addr w) (l ++ vs) n ∧
    growths (new_events w (Done tt w')) = 1%nat.
Proof.
  intros Hh Hfresh Hlt Halloc Hlen.
  assert (n < SIZE_MOD) as Hn. { destruct Halloc as (_ & ? & ? & ?). nia. }
  pose proof (reserve_grow this n w d l cap Hh Hfresh Halloc Hlt) as Hres.
  destruct (holds_after_grow this n w d l cap Hh Hfresh (conj Hlt Hn) (tl (oracle w))
              (trace w ++ [EvAlloc (next_addr w) n] ++ move_events (next_addr w) d (length l)
                 ++ (if decide (d = 0) then [] else [EvDealloc d]))) as [Hh1 _].
  destruct (push_all_room this vs _ (next_addr w) l n Hh1 Hlen)
    as (w' & evs & Hrun & Hh' & Ht & Hg & _).
  exists w'. split; [by erewrite bind_Done by exact Hres|]. split; [done|].
  cbn [trace] in Ht. rewrite <- app_assoc in Ht.
  erewrite new_events_app by exact Ht.
  rewrite !growths_app, growths_move_events, Hg.
  rewrite growths_cons. cbn [is_alloc]. by destruct (decide (d = 0)).
Qed.

(** X6.  [push_back(x)] followed by [pop_back()] on a well-formed [Vector]
    (the allocator satisfying the request when the buffer is full): both
    return and the elements are again those before the push; the capacity
    is not reduced, so a growth caused by the push stays. *)
Theorem X6_push_then_pop this x w d l cap :
  holds w this d l cap → heap_fresh w →
  (Z.of_nat (length l) = cap →
     2 * cap < SIZE_MOD ∧ can_alloc sizeofT (new_capacity cap) w) →
  ∃ w1 w2 d' cap',
    push_back sizeofT AP this x w = Done tt w1 ∧
    pop_back this w1 = Done tt w2 ∧
    holds w2 this d' l cap' ∧ cap ≤ cap' ∧
    (Z.of_nat (length l) < cap → cap' = cap) ∧
    (Z.of_nat (length l) = cap → cap' = if decide (cap = 0) then 1 else 2 * cap).
Proof.
  intros Hh Hfresh Hgrow.
  destruct (push_back_holds this x w d l cap Hh Hfresh Hgrow)
    as (w1 & d' & evs & Hrun & Hh1 & _).
  destruct (pop_back_last this w1 d' l x _ Hh1) as (b & w2 & _ & _ & Hpop & Hh2).
  eexists w1, w2, d', _. split; [done|]. split; [done|]. split; [exact Hh2|].
  assert (0 ≤ cap) as Hcap0.
  { destruct Hh as (_ & _ & [(_ & -> & _)|(_ & ? & _)]); lia. }
  case_decide as Hfull.
  - destruct (Hgrow Hfull) as [Hdbl _].
    rewrite (new_capacity_small cap Hcap0 Hdbl).
    split; [case_decide; lia|]. split; [lia|done].
  - split; [lia|]. split; [done|lia].
Qed.

Lemma growths_defaults p (js : list Z) : growths (EvDefault p <$> js) = 0%nat.
Proof. unfold growths. induction js as [|j js IH]; [done|exact IH]. Qed.

(** X7.  [Vector v(n); v.push_back(x);] with [n > 0], as in
    [testAllocatorPolicies]: the constructor fills the buffer, so the push
    finds it full and grows it.  Afterwards the elements are [n] times
    [T()] followed by [x], the capacity is [2 * n], and the allocator was
    asked twice. *)
Theorem X7_sized_then_push this n x w :
  objs w !! this = None → heap_fresh w → all_granted w →
  0 < sizeofT → 0 < n → 2 * n * sizeofT < SIZE_MOD →
  ∃ w' d,
    bind (Vector_sized dflt sizeofT AP this n) (λ _, push_back sizeofT AP this x) w
      = Done tt w' ∧
    holds w' this d (replicate (Z.to_nat n) dflt ++ [x]) (2 * n) ∧
    growths (new_events w (Done tt w')) = 2%nat.
Proof.
  intros Hnew Hfresh Hgr Hs Hpos Hfit.
  assert (can_alloc sizeofT n w) as Halloc.
  { split; [by apply all_granted_hd|]. split; [done|]. split; nia. }
  pose proof (Vector_sized_world this n w Hnew Hfresh Hpos Halloc) as Hctor.
  destruct (Vector_sized_Done this n w) as (w1 & d1 & Hrun1 & Hh1 & Hf1 & _); try done.
  { unfold SIZE_MOD in *. nia. }
  rewrite Hctor in Hrun1. injection Hrun1 as <-.
  destruct (push_back_holds this x _ d1 _ n Hh1 Hf1)
    as (w2 & d2 & evs & Hrun2 & Hh2 & _ & Ht2 & Hg2 & _).
  { intros _. split; [nia|]. split.
    - cbn [oracle]. apply (all_granted_hd (World ∅ 0 (tl (oracle w)) ∅ [])).
      by apply all_granted_tl.
    - rewrite new_capacity_small by nia. rewrite decide_False by lia.
      split; [done|]. split; nia. }
  rewrite length_replicate, Z2Nat.id in Hh2, Hg2 by lia.
  rewrite decide_True in Hh2 by done. rewrite decide_True in Hg2 by done.
  rewrite new_capacity_small, decide_False in Hh2 by nia.
  exists w2, d2. split; [by erewrite bind_Done by exact Hctor|]. split; [done|].
  cbn [trace] in Ht2. rewrite <- app_assoc in Ht2.
  erewrite new_events_app by exact Ht2.
  rewrite !growths_app, Hg2.
  change (EvAlloc (next_addr w) n :: (EvDefault (next_addr w) <$> iota (Z.to_nat n)))
    with ([EvAlloc (next_addr w) n] ++ (EvDefault (next_addr w) <$> iota (Z.to_nat n))).
  rewrite growths_app.
  by rewrite growths_defaults.
Qed.

(** ** The cost of growing, and the life of a buffer *)

Lemma relocations_app t1 t2 :
  relocations (t1 ++ t2) = (relocations t1 + relocations t2)%nat.
Proof. unfold relocations. by rewrite filter_app, length_app. Qed.

Lemma releases_app t1 t2 : releases (t1 ++ t2) = (releases t1 + releases t2)%nat.
Proof. unfold releases. by rewrite filter_app, length_app. Qed.

Lemma relocations_move_events p d n : relocations (move_events p d n) = n.
Proof.
  assert (∀ js : list Z,
    length (filter is_move (flat_map (λ i, [EvMove p i; EvDestroy d i]) js)) = length js)
    as Hjs.
  { induction js as [|j js IH]; [done|]. cbn. by rewrite <- IH. }
  unfold relocations, move_events. rewrite Hjs. unfold iota.
  by rewrite length_fmap, length_seq.
Qed.

Lemma releases_move_events p d n : releases (move_events p d n) = 0%nat.
Proof.
  unfold releases, move_events. induction (iota n) as [|j js IH]; [done|exact IH].
Qed.

Lemma relocations_cons e t :
  relocations (e :: t) = ((if is_move e then 1 else 0) + relocations t)%nat.
Proof. unfold relocations. rewrite filter_cons. by destruct (is_move e). Qed.

Lemma releases_cons e t :
  releases (e :: t) = ((if is_dealloc e then 1 else 0) + releases t)%nat.
Proof. unfold releases. rewrite filter_cons. by destruct (is_dealloc e). Qed.

Ltac count_events :=
  repeat (rewrite relocations_cons || rewrite relocations_app ||
          rewrite relocations_move_events || rewrite releases_cons ||
          rewrite releases_app || rewrite releases_move_events).

(** One [push_back], with the account of what it costs: the relocations
    and the release happen only when the buffer was full. *)
Lemma push_back_account this x w d l cap :
  holds w this d l cap → heap_fresh w →
  (Z.of_nat (length l) = cap →
     2 * cap < SIZE_MOD ∧ can_alloc sizeofT (new_capacity cap) w) →
  ∃ w' d' evs,
    push_back sizeofT AP this x w = Done tt w' ∧
    holds w' this d' (l ++ [x])
      (if decide (Z.of_nat (length l) = cap) then new_capacity cap else cap) ∧
    heap_fresh w' ∧
    trace w' = trace w ++ evs ∧
    oracle w' = (if decide (Z.of_nat (length l) = cap) then tl (oracle w) else oracle w) ∧
    delete d' (heap w') = delete d (heap w) ∧
    delete this (objs w') = delete this (objs w) ∧
    growths evs = (if decide (Z.of_nat (length l) = cap) then 1 else 0)%nat ∧
    relocations evs = (if decide (Z.of_nat (length l) = cap) then length l else 0%nat) ∧
    releases evs = (if decide (Z.of_nat (length l) = cap) then
                      if decide (d = 0%Z) then 0 else 1 else 0)%nat.
Proof.
  intros Hh Hfresh Hgrow.
  destruct (push_back_holds this x w d l cap Hh Hfresh Hgrow)
    as (w' & d' & evs & Hrun & Hh' & Hf' & Ht & Hg & Ho & _).
  exists w', d', evs. do 5 (split; [done|]).
  pose proof Hh as (Hobj & Hcap & Hshape). pose proof Hh' as (Hobj' & _).
  destruct (decide (Z.of_nat (length l) = cap)) as [Hfull|Hroom].
  - destruct (Hgrow Hfull) as [Hdbl Halloc].
    rewrite (push_back_grow this x w d l cap Hh Hfresh Hfull Hdbl Halloc) in Hrun.
    injection Hrun as <-. cbn [heap objs trace] in *.
    rewrite lookup_insert_eq in Hobj'. injection Hobj' as <-.
    apply app_inv_head in Ht. subst evs.
    split; [|split; [by rewrite delete_insert_eq|split; [done|]]].
    + apply delete_insert_id. rewrite lookup_delete_ne; [by apply heap_fresh_next|].
      intros Heq. pose proof (heap_fresh_next w Hfresh) as Hnone. rewrite <- Heq in Hnone.
      destruct Hshape as [(Hz & _)|(_ & _ & rest & Hblk & _)].
      * destruct Hfresh; lia.
      * congruence.
    + destruct (decide (d = 0)); count_events; cbn; lia.
  - assert (d ≠ 0 ∧ 0 < cap ∧ ∃ rest, heap w !! d = Some ((Some <$> l) ++ rest) ∧
            Z.of_nat (length l + length rest) = cap) as (Hd & Hpos & rest & Hblk & Hlen).
    { destruct Hshape as [(_ & -> & ->)|?]; [done|done]. }
    assert (rest ≠ []) as Hrest. { intros ->. simpl in Hlen. lia. }
    rewrite (push_back_room this x w d l cap rest Hobj Hblk) in Hrun; [|lia|done].
    injection Hrun as <-. cbn [heap objs trace] in *.
    rewrite lookup_insert_eq in Hobj'. injection Hobj' as <-.
    apply app_inv_head in Ht. subst evs.
    split; [by rewrite delete_insert_eq|]. split; [by rewrite delete_insert_eq|done].
Qed.

(** The pushes into a default-constructed [Vector], with their account. *)
Lemma push_all_account this vs w :
  holds w this 0 [] 0 → heap_fresh w → all_granted w →
  0 < sizeofT → 2 * Z.of_nat (length vs) * sizeofT < SIZE_MOD →
  ∃ w' d cap evs,
    push_all sizeofT AP this vs w = Done tt w' ∧
    holds w' this d vs cap ∧ heap_fresh w' ∧ all_granted w' ∧
    trace w' = trace w ++ evs ∧
    delete d (heap w') = heap w ∧
    delete this (objs w') = delete this (objs w) ∧
    cap = doubled (growths evs) ∧
    (vs = [] → cap = 0) ∧
    (vs ≠ [] → Z.of_nat (length vs) ≤ cap < 2 * Z.of_nat (length vs)) ∧
    Z.of_nat (relocations evs) = Z.max (cap - 1) 0 ∧
    releases evs = pred (growths evs).
Proof.
  intros Hh Hfresh Hgr Hs. induction vs as [|x vs IH] using rev_ind; intros Hfit.
  - exists w, 0, 0, []. rewrite app_nil_r.
    rewrite delete_id by (by apply heap_fresh_null). done.
  - rewrite length_app in Hfit. cbn [length] in Hfit.
    destruct IH as (w1 & d & cap & evs & Hrun & Hh1 & Hf1 & Hg1 & Ht1 & Hheap & Hobjs
                      & Hcap & Hnil & Hbound & Hreloc & Hrel); [nia|].
    assert (0 ≤ cap ∧ Z.of_nat (length vs) ≤ cap ∧ (d = 0 ↔ cap = 0)) as (Hcap0 & Hle & Hd).
    { destruct Hh1 as (_ & _ & [(-> & -> & ->)|(? & ? & rest & _ & <-)]);
        (split; [lia|split; [cbn [length]; lia|split; [done|lia]]]). }
    assert (cap ≤ 2 * Z.of_nat (length vs)) as Hle2.
    { destruct vs; [rewrite Hnil by done; cbn [length]; lia|]. apply Z.lt_le_incl.
      by apply Hbound. }
    destruct (push_back_account this x w1 d vs cap Hh1 Hf1)
      as (w2 & d' & evs' & Hrun2 & Hh2 & Hf2 & Ht2 & Ho2 & Hheap2 & Hobjs2 & Hgrow
            & Hreloc2 & Hrel2).
    { intros Hfull. split; [nia|]. split; [by apply all_granted_hd|]. split; [done|].
      assert (2 * cap < SIZE_MOD) as Hdbl by nia.
      rewrite (new_capacity_small _ Hcap0 Hdbl). case_decide; split; nia. }
    exists w2, d', (if decide (Z.of_nat (length vs) = cap) then new_capacity cap else cap),
      (evs ++ evs').
    split; [by rewrite push_all_snoc, (bind_Done _ _ _ _ _ Hrun)|].
    split; [done|]. split; [done|].
    split; [unfold all_granted in *; rewrite Ho2; case_decide;
            [by apply all_granted_tl|done]|].
    split; [by rewrite Ht2, Ht1, app_assoc|].
    split; [by rewrite Hheap2|]. split; [by rewrite Hobjs2|].
    rewrite growths_app, relocations_app, releases_app, Hgrow, Hreloc2, Hrel2.
    rewrite length_app. cbn [length].
    destruct (decide (Z.of_nat (length vs) = cap)) as [Hfull|Hroom].
    + assert (2 * cap < SIZE_MOD) as Hdbl by nia.
      pose proof (new_capacity_small _ Hcap0 Hdbl) as Hnc.
      split; [rewrite Nat.add_1_r, Hcap; apply new_capacity_doubled; rewrite <- Hcap; nia|].
      split; [by destruct vs|]. rewrite Hnc.
      split; [intros _; case_decide; lia|].
      split; [case_decide; lia|].
      destruct (decide (d = 0)) as [Hz|Hnz].
      * apply Hd in Hz. rewrite Hz in Hcap. destruct (growths evs); [lia|].
        cbn [doubled] in Hcap. assert (0 < 2 ^ Z.of_nat n) by (apply Z.pow_pos_nonneg; lia).
        lia.
      * destruct (growths evs) as [|k] eqn:Ek; [|lia].
        cbn [doubled] in Hcap. by apply Hd in Hcap.
    + split; [by rewrite Nat.add_0_r|]. split; [by destruct vs|].
      split; [intros _; lia|]. split; lia.
Qed.

(** X8.  The amortised cost of [push_back].  After [N >= 1] pushes into a
    default-constructed [Vector] the capacity [cap] satisfies
    [N <= cap < 2 * N]; the pushes relocated [cap - 1], hence fewer than
    [2 * N], elements in all, and every buffer but the last one has been
    released (one release less than allocations). *)
Theorem X8_amortised_growth this (vs : list T) w :
  objs w !! this = None → heap_fresh w → all_granted w →
  0 < sizeofT → 2 * Z.of_nat (length vs) * sizeofT < SIZE_MOD → vs ≠ [] →
  ∃ w' d cap,
    bind (Vector_default this) (λ _, push_all sizeofT AP this vs) w = Done tt w' ∧
    holds w' this d vs cap ∧
    Z.of_nat (length vs) ≤ cap < 2 * Z.of_nat (length vs) ∧
    Z.of_nat (relocations (new_events w (Done tt w'))) = cap - 1 ∧
    Z.of_nat (relocations (new_events w (Done tt w'))) < 2 * Z.of_nat (length vs) ∧
    S (releases (new_events w (Done tt w'))) = growths (new_events w (Done tt w')).
Proof.
  intros Hnew Hfresh Hgr Hs Hfit Hne.
  destruct (push_all_account this vs (set_objs (<[this := Vec 0 0 0]> (objs w)) w))
    as (w' & d & cap & evs & Hrun & Hh & _ & _ & Ht & _ & _ & Hcap & _ & Hbound & Hreloc & Hrel);
    try done.
  { split; [apply lookup_insert_eq|]. split; [done|]. by left. }
  specialize (Hbound Hne). cbn [trace set_objs] in Ht.
  exists w', d, cap.
  split; [by erewrite bind_Done by (by apply Vector_default_Done)|].
  split; [done|]. split; [done|].
  rewrite (new_events_app tt w w' evs Ht).
  assert (0 < Z.of_nat (length vs)) by (destruct vs; [done|cbn [length]; lia]).
  split; [lia|]. split; [lia|].
  destruct (growths evs) as [|k]; [cbn [doubled] in Hcap; lia|]. by rewrite Hrel.
Qed.

(** X9.  A whole life without a leak: a [Vector] that is default
    constructed, filled by [push_back] and destructed returns the heap and
    the store of objects to what they were; all [N] elements are destructed
    and every buffer that was allocated has been released. *)
Theorem X9_lifecycle_releases_everything this (vs : list T) w :
  objs w !! this = None → heap_fresh w → all_granted w →
  0 < sizeofT → 2 * Z.of_nat (length vs) * sizeofT < SIZE_MOD →
  ∃ w',
    bind (Vector_default this)
      (λ _, bind (push_all sizeofT AP this vs) (λ _, Vector_destroy this)) w = Done tt w' ∧
    heap w' = heap w ∧ objs w' = objs w ∧
    releases (new_events w (Done tt w')) = growths (new_events w (Done tt w')).
Proof.
  intros Hnew Hfresh Hgr Hs Hfit.
  destruct (push_all_account this vs (set_objs (<[this := Vec 0 0 0]> (objs w)) w))
    as (w1 & d & cap & evs & Hrun & Hh & Hf1 & _ & Ht & Hheap & Hobjs & Hcap & _ & _ & _ & Hrel);
    try done.
  { split; [apply lookup_insert_eq|]. split; [done|]. by left. }
  cbn [trace set_objs heap objs] in *.
  eexists. split.
  { erewrite bind_Done by (by apply Vector_default_Done).
    erewrite bind_Done by exact Hrun. by apply (Vector_destroy_Done this w1 d vs cap). }
  cbn [heap objs]. split; [done|].
  split; [by rewrite Hobjs, delete_insert_id|].
  erewrite new_events_app by (cbn [trace]; rewrite Ht, <- app_assoc; reflexivity).
  rewrite !releases_app, !growths_app, Hrel.
  assert (releases (EvDestroy d <$> iota (length vs)) = 0%nat) as ->.
  { unfold releases. generalize (iota (length vs)). intros js.
    induction js as [|j js IH]; [done|exact IH]. }
  assert (growths (EvDestroy d <$> iota (length vs)) = 0%nat) as ->.
  { unfold growths. generalize (iota (length vs)). intros js.
    induction js as [|j js IH]; [done|exact IH]. }
  assert (d = 0 ↔ cap = 0) as Hd.
  { destruct Hh as (_ & _ & [(-> & -> & _)|(? & ? & _)]); [done|lia]. }
  destruct (decide (d = 0)) as [Hz|Hnz].
  - apply Hd in Hz. rewrite Hz in Hcap. destruct (growths evs) as [|k]; [done|].
    cbn [doubled] in Hcap. assert (0 < 2 ^ Z.of_nat k) by (apply Z.pow_pos_nonneg; lia). lia.
  - destruct (growths evs) as [|k]; [cbn [doubled] in Hcap; by apply Hd in Hcap|].
    count_events. rewrite growths_cons. cbn. lia.
Qed.

(** ** Ownership of the buffer across moves, copies and destruction *)

(** X10.  No double release after a move.  After [Vector B(std::move(A))]
    the destructor of the moved-from [A] returns without destructing or
    releasing anything, and leaves the heap and [B] as they are; the
    destructor of [B] then releases the buffer, which is thereby released
    exactly once. *)
Theorem X10_moved_from_destructor A B w dA l cap :
  holds w A dA l cap → objs w !! B = None → heap_fresh w →
  ∃ w1 w2 w3,
    Vector_move B A w = Done tt w1 ∧
    Vector_destroy A w1 = Done tt w2 ∧
    new_events w1 (Done tt w2) = [] ∧ heap w2 = heap w ∧
    holds w2 B dA l cap ∧
    Vector_destroy B w2 = Done tt w3 ∧
    heap w3 = delete dA (heap w) ∧
    releases (new_events w (Done tt w3)) = (if decide (dA = 0%Z) then 0 else 1)%nat.
Proof.
  intros Hh Hnew Hfresh. pose proof Hh as (Hobj & Hcap & Hshape).
  assert (B ≠ A) as Hne by congruence.
  pose proof (Vector_move_Done B A w _ Hnew Hobj) as Hmove.
  set (w1 := World (heap w) (next_addr w) (oracle w)
               (<[A := Vec 0 0 0]> (<[B := Vec dA (Z.of_nat (length l)) cap]> (objs w)))
               (trace w ++ [EvLock B; EvLock A; EvUnlock A; EvUnlock B])) in *.
  assert (holds w1 A 0 [] 0) as HA1.
  { split; [apply lookup_insert_eq|]. split; [done|]. by left. }
  assert (heap_fresh w1) as Hf1 by exact Hfresh.
  pose proof (Vector_destroy_Done A w1 0 [] 0 HA1 Hf1) as Hd1.
  rewrite decide_True in Hd1 by done. cbn [length iota seq fmap list_fmap app] in Hd1.
  rewrite app_nil_r in Hd1.
  rewrite (delete_id (heap w1)) in Hd1 by (by apply heap_fresh_null).
  set (w2 := World (heap w1) (next_addr w1) (oracle w1) (delete A (objs w1)) (trace w1)) in *.
  assert (holds w2 B dA l cap) as HB2.
  { split; [|split; [done|exact Hshape]]. cbn [objs w2 w1].
    rewrite lookup_delete_ne, lookup_insert_ne by done. apply lookup_insert_eq. }
  assert (heap_fresh w2) as Hf2 by exact Hfresh.
  pose proof (Vector_destroy_Done B w2 dA l cap HB2 Hf2) as Hd2.
  eexists w1, w2, _. split; [done|]. split; [done|].
  split; [by erewrite new_events_app by (symmetry; apply app_nil_r)|].
  split; [done|]. split; [done|]. split; [exact Hd2|]. split; [done|].
  erewrite new_events_app by (cbn [trace w2 w1]; rewrite <- app_assoc; reflexivity).
  count_events.
  assert (releases (EvDestroy dA <$> iota (length l)) = 0%nat) as ->.
  { unfold releases. generalize (iota (length l)). intros js.
    induction js as [|j js IH]; [done|exact IH]. }
  by destruct (decide (dA = 0)).
Qed.

(** X11.  A copy and its original have separate lives.  After
    [Vector B(A)] in a well-formed world, destructing [A] leaves [B] with
    its elements, and destructing [B] leaves [A] with its elements. *)
Theorem X11_copy_and_original_end_apart A B w dA l cap :
  holds w A dA l cap → objs w !! B = None → heap_fresh w →
  (0 < cap → can_alloc sizeofT cap w) →
  ∃ w1 dB,
    Vector_copy sizeofT AP B A w = Done tt w1 ∧
    holds w1 A dA l cap ∧ holds w1 B dB l cap ∧
    (∃ w2, Vector_destroy A w1 = Done tt w2 ∧ holds w2 B dB l cap ∧
           objs w2 !! A = None) ∧
    (∃ w2, Vector_destroy B w1 = Done tt w2 ∧ holds w2 A dA l cap ∧
           objs w2 !! B = None).
Proof.
  intros HA Hnew Hfresh Halloc.
  assert (A ≠ B) as Hne by (destruct HA; congruence).
  destruct (Vector_copy_Done A B w dA l cap) as (w1 & Hrun & Hc); try done.
  destruct (copied_holds _ _ A _ dA _ _ _ _ _ Hc) as (dB & HB1 & HA1 & Hnew'); try done.
  assert (heap_fresh w1) as Hf1.
  { unfold copied in Hc. case_decide; subst w1; [exact Hfresh|].
    by apply heap_fresh_alloc. }
  assert (dA ≠ 0 → dA ≠ dB) as Hshare.
  { intros HdA Heq. destruct (decide (cap = 0)) as [->|Hc0].
    - destruct HA as (_ & _ & [(? & _)|(_ & ? & _)]); [done|lia].
    - by destruct (Hnew' Hc0). }
  exists w1, dB. split; [done|]. split; [done|]. split; [done|]. split.
  - eexists. split; [by apply (Vector_destroy_Done A w1 dA l cap)|].
    cbn [objs]. split; [|apply lookup_delete_eq].
    eapply holds_frame; [exact HB1| |]; cbn [objs heap].
    + by rewrite lookup_delete_ne.
    + apply delete_other; [done|]. intros HdB ->. by apply Hshare.
  - eexists. split; [by apply (Vector_destroy_Done B w1 dB l cap)|].
    cbn [objs]. split; [|apply lookup_delete_eq].
    eapply holds_frame; [exact HA1| |]; cbn [objs heap].
    + by rewrite lookup_delete_ne.
    + by apply delete_other.
Qed.

(** X12.  What an assignment does to the old contents of its destination
    [B].  Both assignments first destruct the old elements of [B], once
    each and in index order, then release the old buffer of [B] (unless it
    is null), and only then take over or copy from [A]; the move assignment
    allocates nothing and the copy assignment allocates once, after the
    release, unless [A] has capacity [0].  Afterwards the old buffer of [B]
    is no longer allocated. *)
Theorem X12_assignment_releases_destination :
  (∀ A B w dA l cap dB lB capB,
     A ≠ B → holds w A dA l cap → holds w B dB lB capB → heap_fresh w →
     ∃ w',
       move_assign B A w = Done tt w' ∧
       new_events w (Done tt w') =
         [EvLock B; EvLock A] ++ (EvDestroy dB <$> iota (length lB)) ++
         (if decide (dB = 0) then [] else [EvDealloc dB]) ++ [EvUnlock A; EvUnlock B] ∧
       heap w' = delete dB (heap w)) ∧
  (∀ A B w dA l cap dB lB capB,
     A ≠ B → holds w A dA l cap → holds w B dB lB capB → (dA ≠ 0 → dA ≠ dB) →
     heap_fresh w → (0 < cap → can_alloc sizeofT cap w) →
     ∃ w',
       copy_assign sizeofT AP B A w = Done tt w' ∧
       new_events w (Done tt w') =
         [EvLock B; EvLock A] ++ (EvDestroy dB <$> iota (length lB)) ++
         (if decide (dB = 0) then [] else [EvDealloc dB]) ++
         (if decide (cap = 0) then []
          else EvAlloc (next_addr w) cap :: (EvCopy (next_addr w) <$> iota (length l))) ++
         [EvUnlock A; EvUnlock B] ∧
       heap w' !! dB = None).
Proof.
  split.
  - intros A B w dA l cap dB lB capB Hne HA HB Hfresh.
    eexists. split; [eapply (move_assign_Done B A); [done|exact HB|done|apply HA]|].
    split; [by erewrite new_events_app by reflexivity|done].
  - intros A B w dA l cap dB lB capB Hne HA HB Hshare Hfresh Halloc.
    destruct (copy_assign_Done A B w dA l cap dB lB capB) as (w' & Hrun & Hc); try done.
    exists w'. split; [done|]. unfold copied in Hc.
    destruct (decide (cap = 0)) as [Hz|Hnz]; subst w'.
    + split; [erewrite new_events_app by reflexivity; by rewrite <- !app_assoc|].
      apply lookup_delete_eq.
    + split; [erewrite new_events_app by reflexivity; by rewrite <- !app_assoc|].
      cbn [heap]. destruct (decide (dB = next_addr w)) as [->|Hd].
      * destruct HB as (_ & _ & [(Hz & _)|(_ & _ & rest & Hblk & _)]).
        -- destruct Hfresh; lia.
        -- by rewrite heap_fresh_next in Hblk.
      * rewrite lookup_insert_ne by done. apply lookup_delete_eq.
Qed.

(** ** More of a refused allocation *)

Lemma Raise_world_eq {A} h1 h2 n o ob1 ob2 t1 t2 :
  h1 = h2 → ob1 = ob2 → t1 = t2 →
  Raise (T:=T) (A:=A) (World h1 n o ob1 t1) = Raise (World h2 n o ob2 t2).
Proof. by intros -> -> ->. Qed.

Lemma allocate_refused_new n w :
  n * sizeofT < SIZE_MOD → hd true (oracle w) = false →
  allocate sizeofT NewAllocator n w =
    Raise (World (heap w) (next_addr w) (tl (oracle w)) (objs w) (trace w)).
Proof.
  intros Hfit Hno. unfold allocate.
  destruct (Z.leb_spec SIZE_MOD (n * sizeofT)) as [?|_]; [lia|].
  unfold bind, sys_alloc. by rewrite Hno.
Qed.

(** [NewAllocator]: the copy constructor leaves by exception after it has
    locked both mutexes and set its counters. *)
Lemma Vector_copy_refused_new A B w dA l cap :
  holds w A dA l cap → objs w !! B = None →
  0 < cap → cap * sizeofT < SIZE_MOD → hd true (oracle w) = false →
  Vector_copy sizeofT NewAllocator B A w =
    Raise (World (heap w) (next_addr w) (tl (oracle w))
                 (<[B := Vec 0 (Z.of_nat (length l)) cap]> (objs w))
                 (trace w ++ [EvLock B; EvLock A])).
Proof.
  intros (Hobj & _) Hnew Hpos Hfit Hno.
  assert (B ≠ A) as Hne by congruence. unfold Vector_copy.
  erewrite bind_Done by (by apply new_object_Done).
  erewrite bind_Done by apply lock_Done.
  erewrite bind_Done by apply lock_Done.
  erewrite bind_Done by (apply get_Done; look).
  erewrite bind_Done by (apply set_size_Done; look).
  erewrite bind_Done by (apply get_Done; look).
  erewrite bind_Done by (apply set_capacity_Done; look).
  erewrite bind_Done by (apply get_Done; look).
  cbn [data_ size_ capacity_].
  destruct (Z.ltb_spec 0 cap) as [_|?]; [|lia].
  unfold bind at 1. unfold bind at 1.
  rewrite allocate_refused_new by done.
  unfold set_objs, add_event. cbn [heap next_addr oracle objs trace].
  apply Raise_world_eq; [done|map_solve|by rewrite <- app_assoc].
Qed.

(** [NewAllocator]: the copy assignment leaves by exception after it has
    destructed the elements of the destination and released its buffer. *)
Lemma copy_assign_refused_new A B w dA l cap dB lB capB :
  B ≠ A → holds w A dA l cap → holds w B dB lB capB → heap_fresh w →
  0 < cap → cap * sizeofT < SIZE_MOD → hd true (oracle w) = false →
  copy_assign sizeofT NewAllocator B A w =
    Raise (World (delete dB (heap w)) (next_addr w) (tl (oracle w))
                 (<[B := Vec dB (Z.of_nat (length l)) cap]> (objs w))
                 (trace w ++ [EvLock B; EvLock A] ++ (EvDestroy dB <$> iota (length lB)) ++
                    (if decide (dB = 0) then [] else [EvDealloc dB]))).
Proof.
  intros Hne (HobjA & _) HB Hfresh Hpos Hfit Hno. pose proof HB as (HobjB & _).
  unfold copy_assign. rewrite decide_False by done.
  erewrite bind_Done by apply lock_Done.
  erewrite bind_Done by apply lock_Done.
  erewrite bind_Done.
  2:{ apply (clear_storage_Done B _ dB lB capB); [exact HB|exact Hfresh]. }
  cbn [add_event heap next_addr oracle objs trace].
  erewrite bind_Done by (apply get_Done; look).
  erewrite bind_Done by (apply set_size_Done; look).
  erewrite bind_Done by (apply get_Done; look).
  erewrite bind_Done by (apply set_capacity_Done; look).
  erewrite bind_Done by (apply get_Done; look).
  cbn [data_ size_ capacity_].
  destruct (Z.ltb_spec 0 cap) as [_|?]; [|lia].
  unfold bind at 1. unfold bind at 1.
  rewrite allocate_refused_new by done.
  unfold set_objs. cbn [heap next_addr oracle objs trace].
  apply Raise_world_eq; [done|map_solve|by rewrite <- !app_assoc].
Qed.

(** X14.  The copy assignment gives no exception safety.  It empties the
    destination before it asks for the new buffer, so when [NewAllocator]
    throws, the destination [B] is left with the size and capacity of the
    source and with its old, released buffer as [data_]: reading an element
    of [B] and destructing [B] are then undefined.  Both mutexes stay
    locked.  The source [A] is unchanged. *)
Theorem X14_copy_assign_failure_leaves_dangling A B w dA l cap dB lB capB :
  B ≠ A → holds w A dA l cap → holds w B dB lB capB → (dA ≠ 0 → dA ≠ dB) →
  heap_fresh w → dB ≠ 0 →
  0 < cap → cap * sizeofT < SIZE_MOD → hd true (oracle w) = false →
  ∃ w',
    copy_assign sizeofT NewAllocator B A w = Raise w' ∧
    objs w' !! B = Some (Vec dB (Z.of_nat (length l)) cap) ∧
    heap w' !! dB = None ∧
    holds w' A dA l cap ∧
    lock_ops (new_events w (Raise (A:=unit) w')) = [Acquire B; Acquire A] ∧
    (∀ i, index_read B i w' = Undef) ∧
    Vector_destroy B w' = Undef.
Proof.
  intros Hne HA HB Hshare Hfresh HdB Hpos Hfit Hno.
  eexists. split; [by eapply copy_assign_refused_new|].
  cbn [objs heap]. split; [apply lookup_insert_eq|]. split; [apply lookup_delete_eq|].
  split; [|split; [|split]].
  - eapply holds_frame; [exact HA| |]; cbn [objs heap].
    + by rewrite lookup_insert_ne.
    + by apply delete_other.
  - cbn [new_events trace]. rewrite drop_app_length.
    rewrite !lock_ops_app, (lock_ops_elements (EvDestroy _)), lock_ops_dealloc by done.
    done.
  - intros i. unfold index_read, index.
    unfold bind at 1. erewrite bind_Done by apply lock_Done.
    erewrite bind_Done by (apply get_Done; look). cbn [data_].
    unfold bind at 1. cbn [add_event heap]. by rewrite lookup_delete_eq.
  - unfold Vector_destroy.
    erewrite bind_Done by (apply get_Done; look). cbn [data_].
    destruct (Z.eqb_spec dB 0) as [?|_]; [done|].
    unfold bind at 1. erewrite bind_Done by (apply get_Done; look). cbn [size_].
    unfold for_upto. rewrite Nat2Z.id. destruct (length l) as [|k].
    + cbn [for_loop]. erewrite bind_Done by reflexivity.
      erewrite bind_Done by (apply get_Done; look). cbn [data_].
      unfold deallocate. cbn [heap]. rewrite lookup_delete_eq.
      by destruct (Z.eqb_spec dB 0).
    + cbn [for_loop]. unfold bind at 1. unfold bind at 1.
      erewrite bind_Done by (apply get_Done; look). cbn [data_].
      unfold destroy. cbn [heap]. by rewrite lookup_delete_eq.
Qed.

(** ** The size of a request in bytes *)

(** X15.  [MallocAllocator] multiplies [n] by [sizeof(T)] in [size_t]
    without a check.  When the product does not fit, [reserve(n)] on an
    empty [Vector] still returns and records the capacity [n], but the
    buffer has only [(n * sizeof(T) mod 2^64) / sizeof(T)] slots, fewer than
    [n]; when it has none, the next [push_back] writes outside the buffer.
    [NewAllocator] throws for the same request and changes nothing. *)
Theorem X15_malloc_size_overflow this n w :
  holds w this 0 [] 0 → heap_fresh w → hd true (oracle w) = true → 0 < sizeofT →
  0 < n < SIZE_MOD → SIZE_MOD ≤ n * sizeofT →
  (∃ w' b,
     reserve sizeofT MallocAllocator this n w = Done tt w' ∧
     objs w' !! this = Some (Vec (next_addr w) 0 n) ∧
     heap w' !! next_addr w = Some b ∧
     Z.of_nat (length b) = wrap (n * sizeofT) / sizeofT ∧
     Z.of_nat (length b) < n ∧
     (wrap (n * sizeofT) < sizeofT →
      ∀ x, push_back sizeofT MallocAllocator this x w' = Undef)) ∧
  reserve sizeofT NewAllocator this n w = Raise w.
Proof.
  intros (Hobj & _) Hfresh Hyes Hs Hn Hover.
  assert (0 ≤ wrap (n * sizeofT) < SIZE_MOD) as Hw.
  { unfold wrap. apply Z.mod_pos_bound. by unfold SIZE_MOD. }
  assert (0 ≤ wrap (n * sizeofT) / sizeofT < n) as Hslots.
  { split; [apply Z.div_pos; lia|]. apply Z.div_lt_upper_bound; lia. }
  split.
  - eexists _, _. split.
    { unfold reserve.
      erewrite bind_Done by (apply get_Done; exact Hobj). cbn [capacity_].
      destruct (Z.leb_spec n 0) as [?|_]; [lia|].
      erewrite bind_Done by (unfold allocate, sys_alloc; rewrite Hyes; reflexivity).
      erewrite bind_Done by (apply get_Done; look). cbn [size_ length].
      change (Z.of_nat 0) with 0. erewrite bind_Done by apply for_upto_0.
      erewrite bind_Done by (apply get_Done; look). cbn [data_ Z.eqb].
      erewrite bind_Done by reflexivity.
      erewrite bind_Done by (apply set_data_Done; look).
      erewrite set_capacity_Done by look. reflexivity. }
    cbn [objs heap set_objs]. cbn [data_ size_ capacity_ length].
    split; [apply lookup_insert_eq|]. split; [apply lookup_insert_eq|].
    rewrite length_replicate, Z2Nat.id by lia. split; [done|]. split; [lia|].
    intros Hnone x.
    assert (wrap (n * sizeofT) / sizeofT = 0) as Hz by (apply Z.div_small; lia).
    unfold push_back.
    erewrite bind_Done by apply lock_Done.
    erewrite bind_Done by (apply get_Done; look).
    erewrite bind_Done by (apply get_Done; look).
    cbn [size_ capacity_ length]. change (Z.of_nat 0) with 0.
    destruct (Z.eqb_spec 0 n) as [?|_]; [lia|].
    erewrite bind_Done by reflexivity.
    erewrite bind_Done by (apply get_Done; look).
    erewrite bind_Done by (apply get_Done; look).
    cbn [data_ size_]. unfold bind at 1, placement_new.
    cbn [heap add_event set_objs]. rewrite lookup_insert_eq, Hz. done.
  - unfold reserve.
    erewrite bind_Done by (apply get_Done; exact Hobj). cbn [capacity_].
    destruct (Z.leb_spec n 0) as [?|_]; [lia|].
    unfold bind at 1, allocate.
    by destruct (Z.leb_spec SIZE_MOD (n * sizeofT)) as [_|?]; [|lia].
Qed.

(** ** The mutex of one instance *)

Lemma lock_ops_move_events p d n : lock_ops (move_events p d n) = [].
Proof. unfold move_events. induction (iota n) as [|j js IH]; [done|exact IH]. Qed.

(** X16.  How the operations on one instance use its mutex.  When
    [push_back] and [pop_back] return, the first event they added to the
    trace is the [lock] of the mutex of their [Vector] and the last one is
    its [unlock]; every allocation, relocation, construction, destruction
    and release of the call lies between the two, and no other call on a
    mutex does.  [operator[]] locks and unlocks around forming the
    reference only: the read or write through the reference happens in the
    world after the [unlock].  [reserve] called by a client returns without
    any call on a mutex, whether it grows the buffer or not. *)
Theorem X16_single_instance_locking this w d l cap :
  holds w this d l cap → heap_fresh w →
  (∀ x,
     (Z.of_nat (length l) = cap →
        2 * cap < SIZE_MOD ∧ can_alloc sizeofT (new_capacity cap) w) →
     ∃ w' mid,
       push_back sizeofT AP this x w = Done tt w' ∧
       trace w' = trace w ++ [EvLock this] ++ mid ++ [EvUnlock this] ∧
       lock_ops mid = []) ∧
  (∃ w' mid,
     pop_back this w = Done tt w' ∧
     trace w' = trace w ++ [EvLock this] ++ mid ++ [EvUnlock this] ∧
     lock_ops mid = []) ∧
  (∀ i x y, l !! i = Some x →
     let w' := World (heap w) (next_addr w) (oracle w) (objs w)
                     (trace w ++ [EvLock this; EvUnlock this]) in
     index this (Z.of_nat i) w = Done (d, Z.of_nat i) w' ∧
     index_read this (Z.of_nat i) w = load d (Z.of_nat i) w' ∧
     index_write this (Z.of_nat i) y w = store d (Z.of_nat i) y w') ∧
  (∀ n, (cap < n → can_alloc sizeofT n w) →
     ∃ w',
       reserve sizeofT AP this n w = Done tt w' ∧
       lock_ops (new_events w (Done tt w')) = []).
Proof.
  intros Hh Hfresh. pose proof Hh as (Hobj & Hcap & Hshape).
  split; [|split; [|split]].
  - intros x Hgrow. destruct (decide (Z.of_nat (length l) = cap)) as [Hfull|Hroom].
    + destruct (Hgrow Hfull) as [Hdbl Halloc].
      rewrite (push_back_grow this x w d l cap Hh Hfresh Hfull Hdbl Halloc).
      eexists _, ([EvAlloc (next_addr w) (new_capacity cap)] ++
                  move_events (next_addr w) d (length l) ++
                  (if decide (d = 0) then [] else [EvDealloc d]) ++
                  [EvCopy (next_addr w) (Z.of_nat (length l))]).
      split; [reflexivity|]. cbn [trace]. split; [by rewrite <- !app_assoc|].
      rewrite !lock_ops_app, lock_ops_move_events. by destruct (decide (d = 0)).
    + assert (d ≠ 0 ∧ 0 < cap ∧ ∃ rest, heap w !! d = Some ((Some <$> l) ++ rest) ∧
              Z.of_nat (length l + length rest) = cap) as (Hd & Hpos & rest & Hblk & Hlen).
      { destruct Hshape as [(_ & -> & ->)|?]; [done|done]. }
      assert (rest ≠ []) as Hrest. { intros ->. simpl in Hlen. lia. }
      rewrite (push_back_room this x w d l cap rest Hobj Hblk); [|lia|done].
      by eexists _, [EvCopy d (Z.of_nat (length l))].
  - destruct l as [|x l' _] using rev_ind.
    + rewrite (pop_back_empty this w d cap Hh). by eexists _, [].
    + destruct (pop_back_last this w d l' x cap Hh) as (b & w' & _ & -> & -> & _).
      by eexists _, [EvDestroy d (Z.of_nat (length l'))].
  - intros i x y Hi w'.
    assert (index this (Z.of_nat i) w = Done (d, Z.of_nat i) w') as Hidx.
    { rewrite (index_Done this w d l cap i x Hh Hi). unfold w', add_event.
      cbn [heap next_addr oracle objs trace]. by rewrite <- app_assoc. }
    split; [done|]. unfold index_read, index_write.
    by rewrite !(bind_Done _ _ _ _ _ Hidx).
  - intros n Halloc. destruct (decide (n ≤ cap)) as [Hle|Hgt].
    + rewrite (reserve_noop this n w _ Hobj Hle). eexists. split; [reflexivity|].
      by erewrite new_events_app by (symmetry; apply app_nil_r).
    + rewrite (reserve_grow this n w d l cap Hh Hfresh) by (try apply Halloc; lia).
      eexists. split; [reflexivity|].
      erewrite new_events_app by reflexivity.
      rewrite !lock_ops_app, lock_ops_move_events. by destruct (decide (d = 0)).
Qed.

(** ** Well-formed worlds, operation by operation *)

Lemma wf_all_state_inv w : wf w → all_state_inv w.
Proof. intros Hwf o v Ho. by eapply wf_state_inv. Qed.

(** X17.  Construction, assignment and destruction keep the world well
    formed when the allocator satisfies the request they make: afterwards
    every [Vector] again owns a live buffer of exactly [capacity_] slots
    whose first [size_] slots hold its elements (or has a null buffer and
    capacity [0]), no two [Vector]s share a buffer, and so
    [0 <= size_ <= capacity_] and [data_ == nullptr] iff [capacity_ == 0]
    hold for every one of them. *)
Theorem X17_lifecycle_keeps_well_formed :
  (∀ this w, wf w → objs w !! this = None →
     ∃ w', Vector_default this w = Done tt w' ∧ wf w' ∧ all_state_inv w') ∧
  (∀ this n w,
     wf w → objs w !! this = None → 0 ≤ n < SIZE_MOD →
     (0 < n → can_alloc sizeofT n w) →
     ∃ w', Vector_sized dflt sizeofT AP this n w = Done tt w' ∧ wf w' ∧ all_state_inv w') ∧
  (∀ A B w vA,
     wf w → objs w !! A = Some vA → objs w !! B = None →
     (0 < capacity_ vA → can_alloc sizeofT (capacity_ vA) w) →
     ∃ w', Vector_copy sizeofT AP B A w = Done tt w' ∧ wf w' ∧ all_state_inv w') ∧
  (∀ A B w vA vB,
     wf w → objs w !! A = Some vA → objs w !! B = Some vB →
     (0 < capacity_ vA → can_alloc sizeofT (capacity_ vA) w) →
     ∃ w', copy_assign sizeofT AP B A w = Done tt w' ∧ wf w' ∧ all_state_inv w') ∧
  (∀ A B w vA,
     wf w → objs w !! A = Some vA → objs w !! B = None →
     ∃ w', Vector_move B A w = Done tt w' ∧ wf w' ∧ all_state_inv w') ∧
  (∀ A B w vA vB,
     wf w → objs w !! A = Some vA → objs w !! B = Some vB →
     ∃ w', move_assign B A w = Done tt w' ∧ wf w' ∧ all_state_inv w') ∧
  (∀ this w v,
     wf w → objs w !! this = Some v →
     ∃ w', Vector_destroy this w = Done tt w' ∧ wf w' ∧ all_state_inv w').
Proof.
  destruct wf_preserved as (H1 & H2 & H3 & H4 & H5 & H6 & _ & _ & _ & _ & H11).
  repeat apply conj.
  - intros this w Hwf Hn. destruct (H1 this w) as (w' & ? & ?); [done..|].
    exists w'. auto using wf_all_state_inv.
  - intros this n w Hwf Hn Hr Ha. destruct (H2 this n w) as (w' & ? & ?); [done..|].
    exists w'. auto using wf_all_state_inv.
  - intros A B w vA Hwf HA HB Ha. destruct (H3 A B w vA) as (w' & ? & ?); [done..|].
    exists w'. auto using wf_all_state_inv.
  - intros A B w vA vB Hwf HA HB Ha. destruct (H4 A B w vA vB) as (w' & ? & ?); [done..|].
    exists w'. auto using wf_all_state_inv.
  - intros A B w vA Hwf HA HB. destruct (H5 A B w vA) as (w' & ? & ?); [done..|].
    exists w'. auto using wf_all_state_inv.
  - intros A B w vA vB Hwf HA HB. destruct (H6 A B w vA vB) as (w' & ? & ?); [done..|].
    exists w'. auto using wf_all_state_inv.
  - intros this w v Hwf Ho. destruct (H11 this w v) as (w' & ? & ?); [done..|].
    exists w'. auto using wf_all_state_inv.
Qed.

(** X18.  [push_back], [pop_back], [reserve] and a write through
    [operator[]] below [size()] keep the world well formed, and with it the
    invariant of the data members of every [Vector], when the allocator
    satisfies the request that a growth makes. *)
Theorem X18_mutation_keeps_well_formed :
  (∀ this x w v,
     wf w → objs w !! this = Some v →
     (size_ v = capacity_ v →
        2 * capacity_ v < SIZE_MOD ∧
        can_alloc sizeofT (new_capacity (capacity_ v)) w) →
     ∃ w', push_back sizeofT AP this x w = Done tt w' ∧ wf w' ∧ all_state_inv w') ∧
  (∀ this w v,
     wf w → objs w !! this = Some v →
     ∃ w', pop_back this w = Done tt w' ∧ wf w' ∧ all_state_inv w') ∧
  (∀ this n w v,
     wf w → objs w !! this = Some v →
     (capacity_ v < n → can_alloc sizeofT n w) →
     ∃ w', reserve sizeofT AP this n w = Done tt w' ∧ wf w' ∧ all_state_inv w') ∧
  (∀ this i x w v,
     wf w → objs w !! this = Some v → 0 ≤ i < size_ v →
     ∃ w', index_write this i x w = Done tt w' ∧ wf w' ∧ all_state_inv w').
Proof.
  destruct wf_preserved as (_ & _ & _ & _ & _ & _ & H7 & H8 & H9 & H10 & _).
  repeat apply conj.
  - intros this x w v Hwf Ho Hg. destruct (H7 this x w v) as (w' & ? & ?); [done..|].
    exists w'. auto using wf_all_state_inv.
  - intros this w v Hwf Ho. destruct (H8 this w v) as (w' & ? & ?); [done..|].
    exists w'. auto using wf_all_state_inv.
  - intros this n w v Hwf Ho Ha. destruct (H9 this n w v) as (w' & ? & ?); [done..|].
    exists w'. auto using wf_all_state_inv.
  - intros this i x w v Hwf Ho Hi. destruct (H10 this i x w v) as (w' & ? & ?); [done..|].
    exists w'. auto using wf_all_state_inv.
Qed.

(** ** Printing *)

Lemma joined_drop l j x :
  l !! j = Some x →
  joined (drop j l) =
    OutElem x :: (if decide (S j < length l)%nat
                  then OutStr ", " :: joined (drop (S j) l) else []).
Proof.
  intros Hj. rewrite (drop_S l x j Hj). cbn [joined].
  destruct (drop (S j) l) as [|y ys] eqn:Hd.
  - rewrite decide_False; [done|]. intros Hlt.
    apply (f_equal length) in Hd. rewrite length_drop in Hd. cbn [length] in Hd. lia.
  - rewrite decide_True; [done|].
    apply (f_equal length) in Hd. rewrite length_drop in Hd. cbn [length] in Hd. lia.
Qed.

Lemma joined_length l : length (joined l) = (2 * length l - 1)%nat.
Proof.
  induction l as [|x [|y l'] IH]; [done|done|].
  change (joined (x :: y :: l')) with (OutElem x :: OutStr ", " :: joined (y :: l')).
  cbn [length] in *. lia.
Qed.

(** The loop of [print] from index [j] on. *)
Lemma print_loop this w d l cap r j :
  holds w this d l cap → (j + r = length l)%nat →
  for_loop_out r (Z.of_nat j)
    (λ i, bind (get data_ this) (λ d, bind (load d i) (λ y, bind (get size_ this) (λ n,
       ret (OutElem y :: (if i <? wrap (n - 1) then [OutStr ", "] else [])))))) w
  = Done (joined (drop j l)) w.
Proof.
  intros (Hobj & Hcap & Hshape). revert j. induction r as [|r IH]; intros j Hj.
  - cbn [for_loop_out]. rewrite drop_ge by lia. done.
  - destruct Hshape as [(_ & _ & ->)|(Hd & Hpos & rest & Hblk & Hlen)];
      [cbn [length] in Hj; lia|].
    destruct (lookup_lt_is_Some_2 l j) as [x Hx]; [lia|].
    cbn [for_loop_out].
    erewrite bind_Done.
    2:{ erewrite bind_Done by (apply get_Done; exact Hobj). cbn [data_].
        erewrite bind_Done.
        2:{ apply (load_Done w d _ j x Hblk).
            rewrite lookup_app_l by (rewrite length_fmap; lia).
            by rewrite list_lookup_fmap, Hx. }
        erewrite bind_Done by (apply get_Done; exact Hobj). cbn [size_].
        reflexivity. }
    assert (wrap (Z.of_nat j + 1) = Z.of_nat (S j)) as ->.
    { rewrite wrap_small; lia. }
    erewrite bind_Done by (apply IH; lia).
    unfold ret. rewrite (joined_drop l j x Hx). rewrite wrap_small by lia.
    destruct (Z.ltb_spec (Z.of_nat j) (Z.of_nat (length l) - 1)) as [Hlt|Hge].
    + rewrite decide_True by lia. done.
    + rewrite decide_False by lia. by rewrite drop_ge by lia.
Qed.

(** X19.  [print()] on a well-formed [Vector] writes an opening bracket,
    the elements in index order with [", "] between two of them and nothing
    after the last one, and then the size and the capacity; it reads the
    elements under the mutex and changes nothing. *)
Theorem X19_print this w d l cap :
  holds w this d l cap →
  print this w =
    Done ([OutStr "["] ++ joined l ++
          [OutStr "] (size: "; OutNum (Z.of_nat (length l)); OutStr ", capacity: ";
           OutNum cap; OutStr (")" +:+ newline)])
         (World (heap w) (next_addr w) (oracle w) (objs w)
                (trace w ++ [EvLock this; EvUnlock this])) ∧
  length (joined l) = (2 * length l - 1)%nat.
Proof.
  intros Hh. split; [|apply joined_length]. pose proof Hh as (Hobj & _).
  unfold print.
  erewrite bind_Done by apply lock_Done.
  erewrite bind_Done by (apply get_Done; exact Hobj). cbn [size_].
  rewrite Nat2Z.id.
  erewrite bind_Done.
  2:{ apply (print_loop this _ d l cap (length l) 0%nat); [exact Hh|lia]. }
  erewrite bind_Done by (apply get_Done; exact Hobj).
  erewrite bind_Done by (apply get_Done; exact Hobj).
  erewrite bind_Done by apply unlock_Done.
  unfold ret, add_event. cbn [size_ capacity_ heap next_addr oracle objs trace drop].
  by rewrite <- app_assoc.
Qed.

End Proofs.

(** * Threads *)

Lemma cstep_acquire_free s t m rest :
  threads s !! t = Some (Acquire m :: rest) → held s !! m = None →
  cstep s t = Some (CState (<[m := t]> (held s)) (<[t := rest]> (threads s))).
Proof. intros Ht Hm. unfold cstep. by rewrite Ht, Hm. Qed.

Lemma cstep_acquire_held s t m rest o :
  threads s !! t = Some (Acquire m :: rest) → held s !! m = Some o →
  cstep s t = None.
Proof. intros Ht Hm. unfold cstep. by rewrite Ht, Hm. Qed.

(** Two threads that acquire the same two mutexes in opposite orders reach,
    after one step each, a state in which neither can step. *)
Lemma opposite_orders_deadlock (a b : Z) (rest1 rest2 : list lock_op) :
  a ≠ b →
  csteps (CState ∅ [Acquire a :: Acquire b :: rest1; Acquire b :: Acquire a :: rest2])
         [0; 1]%nat
    = Some (CState (<[b := 1%nat]> (<[a := 0%nat]> ∅))
                   [Acquire b :: rest1; Acquire a :: rest2]) ∧
  deadlocked (CState (<[b := 1%nat]> (<[a := 0%nat]> ∅))
                     [Acquire b :: rest1; Acquire a :: rest2]) = true.
Proof.
  intros Hne. split.
  - cbn [csteps].
    erewrite (cstep_acquire_free _ 0%nat a) by (done || apply lookup_empty).
    cbn [threads held].
    erewrite (cstep_acquire_free _ 1%nat b);
      [done|done|cbn [held]; by rewrite lookup_insert_ne, lookup_empty].
  - unfold deadlocked. cbn [finished threads forallb negb andb length seq].
    erewrite (cstep_acquire_held _ 0%nat b) by (done || apply lookup_insert_eq).
    erewrite (cstep_acquire_held _ 1%nat a);
      [done|done|cbn [held]; by rewrite lookup_insert_ne, lookup_insert_eq].
Qed.

(** C9.  What the code does in place of an order by instance identity.
    Each of the four operations on two instances (move and copy
    construction, move and copy assignment) acquires the mutex of [this],
    the destination, first and the mutex of [other], the source, second, so
    the order depends on which instance is the destination.  Two threads
    that run [A = B] and [B = A] on well-formed instances therefore reach,
    after the first [lock] of each, a state in which neither can go on. *)
Theorem C9_destination_locked_first {T} (sizeofT : Z) (AP : AllocPolicy) :
  (∀ this other (w : world T) vo,
     objs w !! this = None → objs w !! other = Some vo →
     acquisitions (lock_ops (new_events w (Vector_move this other w))) = [this; other]) ∧
  (∀ this other (w : world T) d l cap vo,
     this ≠ other → holds w this d l cap → heap_fresh w → objs w !! other = Some vo →
     acquisitions (lock_ops (new_events w (move_assign this other w))) = [this; other]) ∧
  (∀ this other (w : world T) d l cap,
     holds w other d l cap → objs w !! this = None → heap_fresh w →
     (0 < cap → can_alloc sizeofT cap w) →
     acquisitions (lock_ops (new_events w (Vector_copy sizeofT AP this other w)))
       = [this; other]) ∧
  (∀ this other (w : world T) d l cap d0 l0 cap0,
     this ≠ other → holds w other d l cap → holds w this d0 l0 cap0 →
     (d ≠ 0 → d ≠ d0) → heap_fresh w → (0 < cap → can_alloc sizeofT cap w) →
     acquisitions (lock_ops (new_events w (copy_assign sizeofT AP this other w)))
       = [this; other]) ∧
  (∀ A B (w : world T) dA lA capA dB lB capB,
     A ≠ B → holds w A dA lA capA → holds w B dB lB capB → (dA ≠ 0 → dA ≠ dB) →
     heap_fresh w →
     (0 < capA → can_alloc sizeofT capA w) → (0 < capB → can_alloc sizeofT capB w) →
     ∃ s,
       csteps (CState ∅ [lock_ops (new_events w (copy_assign sizeofT AP A B w));
                         lock_ops (new_events w (copy_assign sizeofT AP B A w))])
              [0; 1]%nat = Some s ∧
       deadlocked s = true).
Proof.
  destruct (cross_instance_lock_ops (T:=T) sizeofT AP) as (Hmc & Hma & Hcc & Hca).
  split; [|split; [|split; [|split]]].
  - intros this other w vo Hnew Ho. by rewrite (Hmc this other w vo).
  - intros this other w d l cap vo Hne Hh Hfresh Ho.
    by rewrite (Hma this other w d l cap vo).
  - intros this other w d l cap Hh Hnew Hfresh Halloc.
    by rewrite (Hcc this other w d l cap).
  - intros this other w d l cap d0 l0 cap0 Hne Hh Hh0 Hshare Hfresh Halloc.
    by rewrite (Hca this other w d l cap d0 l0 cap0).
  - intros A B w dA lA capA dB lB capB Hne HA HB Hshare Hfresh HallocA HallocB.
    assert (dB ≠ 0 → dB ≠ dA) as Hshare' by (intros ? ->; by apply Hshare).
    rewrite (Hca A B w dB lB capB dA lA capA) by done.
    rewrite (Hca B A w dA lA capA dB lB capB) by done.
    eexists. apply (opposite_orders_deadlock A B); done.
Qed.

(** A thread that ended while it held [m] blocks every thread that wants
    [m] next. *)
Lemma abandoned_lock_blocks (m : Z) (rest : list lock_op) :
  csteps (CState ∅ [[Acquire m]; Acquire m :: rest]) [0%nat]
    = Some (CState (<[m := 0%nat]> ∅) [[]; Acquire m :: rest]) ∧
  deadlocked (CState (<[m := 0%nat]> ∅) [[]; Acquire m :: rest]) = true.
Proof.
  split.
  - cbn [csteps]. by erewrite (cstep_acquire_free _ 0%nat m) by (done || apply lookup_empty).
  - unfold deadlocked. cbn [finished threads forallb negb andb length seq].
    erewrite (cstep_acquire_held _ 1%nat m) by (done || apply lookup_insert_eq). done.
Qed.

Lemma abandoned_locks_block (a b : Z) (rest : list lock_op) :
  b ≠ a →
  csteps (CState ∅ [[Acquire b; Acquire a]; Acquire a :: rest]) [0; 0]%nat
    = Some (CState (<[a := 0%nat]> (<[b := 0%nat]> ∅)) [[]; Acquire a :: rest]) ∧
  deadlocked (CState (<[a := 0%nat]> (<[b := 0%nat]> ∅)) [[]; Acquire a :: rest]) = true.
Proof.
  intros Hne. split.
  - cbn [csteps].
    erewrite (cstep_acquire_free _ 0%nat b) by (done || apply lookup_empty).
    cbn [threads held].
    erewrite (cstep_acquire_free _ 0%nat a);
      [done|done|cbn [held]; by rewrite lookup_insert_ne, lookup_empty].
  - unfold deadlocked. cbn [finished threads forallb negb andb length seq].
    erewrite (cstep_acquire_held _ 1%nat a) by (done || apply lookup_insert_eq). done.
Qed.

(** X13.  An exception leaves the mutexes locked.  With [NewAllocator] a
    refused request makes [push_back] leave by [std::bad_alloc] with the
    heap and all data members unchanged, but between its [lock] and its
    [unlock]; the copy constructor leaves with both mutexes locked and the
    source unchanged.  Nothing unlocks them afterwards, so a thread that
    then calls a locking member function of the same [Vector] waits for
    ever. *)
Theorem X13_exception_leaves_mutex_locked {T} (sizeofT : Z) :
  (∀ this (x : T) (w : world T) d l cap,
     holds w this d l cap → Z.of_nat (length l) = cap →
     new_capacity cap * sizeofT < SIZE_MOD → cap < new_capacity cap →
     hd true (oracle w) = false →
     ∃ w',
       push_back sizeofT NewAllocator this x w = Raise w' ∧
       heap w' = heap w ∧ objs w' = objs w ∧
       lock_ops (new_events w (Raise (A:=unit) w')) = [Acquire this] ∧
       ∀ rest, ∃ s,
         csteps (CState ∅ [lock_ops (new_events w (Raise (A:=unit) w'));
                           Acquire this :: rest]) [0%nat] = Some s ∧
         deadlocked s = true) ∧
  (∀ A B (w : world T) dA l cap,
     holds w A dA l cap → objs w !! B = None →
     0 < cap → cap * sizeofT < SIZE_MOD → hd true (oracle w) = false →
     ∃ w',
       Vector_copy sizeofT NewAllocator B A w = Raise w' ∧
       heap w' = heap w ∧ holds w' A dA l cap ∧
       lock_ops (new_events w (Raise (A:=unit) w')) = [Acquire B; Acquire A] ∧
       ∀ rest, ∃ s,
         csteps (CState ∅ [lock_ops (new_events w (Raise (A:=unit) w'));
                           Acquire A :: rest]) [0; 0]%nat = Some s ∧
         deadlocked s = true).
Proof.
  split.
  - intros this x w d l cap Hh Hfull Hfit Hlt Hno.
    eexists. split; [by eapply push_back_refused_new|].
    cbn [heap objs new_events trace]. rewrite drop_app_length.
    split; [done|]. split; [done|]. split; [done|].
    intros rest. eexists. apply abandoned_lock_blocks.
  - intros A B w dA l cap Hh Hnew Hpos Hfit Hno.
    assert (B ≠ A) as Hne by (destruct Hh; congruence).
    eexists. split; [by eapply Vector_copy_refused_new|].
    cbn [heap objs new_events trace]. rewrite drop_app_length.
    split; [done|]. split; [|split; [done|]].
    + eapply holds_frame; [exact Hh| |done]. cbn [objs]. by rewrite lookup_insert_ne.
    + intros rest. eexists. by apply abandoned_locks_block.
Qed.

(** ** Threads that share one [Vector] *)

Lemma one_mutex_step m s t s' :
  one_mutex_inv m s → cstep s t = Some s' → one_mutex_inv m s'.
Proof.
  intros Hinv Hstep. unfold cstep in Hstep.
  destruct (threads s !! t) as [ops|] eqn:Ht; [|done].
  assert (t < length (threads s))%nat as Hlen by (by eapply lookup_lt_Some).
  destruct Hinv as [(Hfree & Hall)|(t0 & k0 & Hheld & Ht0 & Hall)].
  - destruct (Hall t ops Ht) as (k & ->). destruct k as [|k]; [done|].
    cbn [calls] in Hstep. rewrite Hfree, lookup_empty in Hstep. injection Hstep as <-.
    right. exists t, k. cbn [held threads]. split; [apply insert_empty|].
    split; [by apply list_lookup_insert_eq|].
    intros t' ops' Hne Ht'. rewrite list_lookup_insert_ne in Ht' by done. eauto.
  - destruct (decide (t = t0)) as [->|Hne].
    + rewrite Ht0 in Ht. injection Ht as <-. injection Hstep as <-.
      left. cbn [held threads]. split; [by rewrite Hheld, delete_singleton_eq|].
      intros t' ops' Ht'. destruct (decide (t' = t0)) as [->|Hne'].
      * rewrite list_lookup_insert_eq in Ht' by done. injection Ht' as <-. eauto.
      * rewrite list_lookup_insert_ne in Ht' by done. eauto.
    + destruct (Hall t ops Hne Ht) as (k & ->). destruct k as [|k]; [done|].
      cbn [calls] in Hstep. by rewrite Hheld, lookup_singleton_eq in Hstep.
Qed.

Lemma one_mutex_steps m schedule : ∀ s s',
  one_mutex_inv m s → csteps s schedule = Some s' → one_mutex_inv m s'.
Proof.
  induction schedule as [|t schedule IH]; intros s s' Hinv Hrun; cbn [csteps] in Hrun.
  - by injection Hrun as <-.
  - destruct (cstep s t) as [s1|] eqn:Hstep; [|done].
    eapply IH; [|exact Hrun]. by eapply one_mutex_step.
Qed.

Lemma one_mutex_not_deadlocked m s : one_mutex_inv m s → deadlocked s = false.
Proof.
  intros Hinv. unfold deadlocked.
  destruct (finished s) eqn:Hfin; [done|]. cbn [negb andb].
  assert (∃ t, (t < length (threads s))%nat ∧ is_Some (cstep s t)) as (t & Hlt & [s' Hs']).
  { destruct Hinv as [(Hfree & Hall)|(t0 & k0 & Hheld & Ht0 & Hall)].
    - unfold finished in Hfin.
      assert (∃ ops, In ops (threads s) ∧ ops ≠ []) as (ops & Hin & Hne).
      { clear Hall. induction (threads s) as [|o os IH]; [done|].
        cbn [forallb] in Hfin. destruct o as [|c o].
        - destruct (IH Hfin) as (ops & ? & ?). exists ops. split; [by right|done].
        - exists (c :: o). split; [by left|done]. }
      apply list_elem_of_In, list_elem_of_lookup in Hin as (t & Ht).
      exists t. split; [by eapply lookup_lt_Some|].
      destruct (Hall t ops Ht) as (k & ->). destruct k as [|k]; [done|].
      unfold cstep. rewrite Ht. cbn [calls]. by rewrite Hfree, lookup_empty.
    - exists t0. split; [by eapply lookup_lt_Some|]. unfold cstep. by rewrite Ht0. }
  destruct (forallb _ _) eqn:Hall; [|done].
  rewrite forallb_forall in Hall. specialize (Hall t).
  rewrite Hs' in Hall. symmetry. apply Hall. apply in_seq. lia.
Qed.

(** X20.  Threads that share one [Vector], as in [testMultiThreaded].
    When every thread runs any number of operations that lock the mutex of
    the [Vector] at their start and unlock it at their end, no schedule
    leads to a state in which some thread has calls left and none can take
    a step; and at most one thread is ever inside an operation. *)
Theorem X20_one_mutex_never_deadlocks (m : Z) (ks : list nat) (schedule : list nat) s :
  csteps (CState ∅ (calls m <$> ks)) schedule = Some s →
  deadlocked s = false ∧
  (held s = ∅ ∨ ∃ t, held s = {[m := t]}).
Proof.
  intros Hrun.
  assert (one_mutex_inv m (CState ∅ (calls m <$> ks))) as Hinit.
  { left. split; [done|]. intros t ops Ht. cbn [threads] in Ht.
    apply list_lookup_fmap_Some in Ht as (k & -> & _). by exists k. }
  pose proof (one_mutex_steps m schedule _ _ Hinit Hrun) as Hinv.
  split; [by eapply one_mutex_not_deadlocked|].
  destruct Hinv as [(? & _)|(t0 & _ & ? & _)]; [by left|right; by exists t0].
Qed.

(** * The container at [int]: instances of the theorems *)

Lemma heap_fresh_w_init : heap_fresh w_init.
Proof. split; [reflexivity|apply map_Forall_empty]. Defined.

Lemma heap_fresh_w_v1 : heap_fresh w_v1.
Proof.
  split; [reflexivity|]. apply map_Forall_insert_2; [split; reflexivity|].
  apply map_Forall_empty.
Defined.

Lemma heap_fresh_w_full : heap_fresh w_full.
Proof.
  split; [reflexivity|]. apply map_Forall_insert_2; [split; reflexivity|].
  apply map_Forall_empty.
Defined.

Lemma heap_fresh_w_two : heap_fresh w_two.
Proof.
  split; [reflexivity|]. apply map_Forall_insert_2; [split; reflexivity|].
  apply map_Forall_insert_2; [split; reflexivity|]. apply map_Forall_empty.
Defined.

Lemma holds_w_empty : holds w_empty 100 0 [] 0.
Proof. split; [reflexivity|]. split; [reflexivity|]. left. repeat split. Defined.

Lemma holds_w_v1 : holds w_v1 100 3 [10; 20; 30] 4.
Proof.
  split; [reflexivity|]. split; [reflexivity|]. right.
  split; [discriminate|]. split; [reflexivity|]. exists [None]. split; reflexivity.
Defined.

Lemma holds_w_full : holds w_full 100 1 [10; 20] 2.
Proof.
  split; [reflexivity|]. split; [reflexivity|]. right.
  split; [discriminate|]. split; [reflexivity|]. exists []. split; reflexivity.
Defined.

Lemma holds_w_two_A : holds w_two 100 1 [10; 20] 2.
Proof.
  split; [reflexivity|]. split; [reflexivity|]. right.
  split; [discriminate|]. split; [reflexivity|]. exists []. split; reflexivity.
Defined.

Lemma holds_w_two_B : holds w_two 200 2 [30] 1.
Proof.
  split; [reflexivity|]. split; [reflexivity|]. right.
  split; [discriminate|]. split; [reflexivity|]. exists []. split; reflexivity.
Defined.

Lemma can_alloc_int (n : Z) (w : world Z) :
  hd true (oracle w) = true → 0 ≤ n → n * 4 < SIZE_MOD → can_alloc int_size n w.
Proof. intros Ho Hn Hfit. split; [exact Ho|]. split; [reflexivity|]. split; assumption. Defined.

Example testSingleThreaded_pushes :
  bind (Vector_default 100)
       (λ _, push_all int_size MallocAllocator 100 [10; 20; 30]) w_init =
  Done tt (World {[3 := [Some 10; Some 20; Some 30; None]]} 4 [] {[100 := Vec 3 3 4]}
                 [EvLock 100; EvAlloc 1 1; EvCopy 1 0; EvUnlock 100;
                  EvLock 100; EvAlloc 2 2; EvMove 2 0; EvDestroy 1 0; EvDealloc 1;
                  EvCopy 2 1; EvUnlock 100;
                  EvLock 100; EvAlloc 3 4; EvMove 3 0; EvDestroy 2 0; EvMove 3 1;
                  EvDestroy 2 1; EvDealloc 2; EvCopy 3 2; EvUnlock 100]).
Proof. vm_compute. reflexivity. Qed.

Lemma C1_witness :
  ∃ w' d cap,
    bind (Vector_default 100)
         (λ _, push_all int_size MallocAllocator 100 [10; 20; 30]) w_init = Done tt w' ∧
    holds w' 100 d [10; 20; 30] cap ∧
    size 100 w' = Done 3 w' ∧
    ∀ i x, [10; 20; 30] !! i = Some x →
           ∃ w'', index_read 100 (Z.of_nat i) w' = Done x w''.
Proof.
  apply (C1_push_back_in_order int_size MallocAllocator 100 [10; 20; 30] w_init).
  - reflexivity.
  - exact heap_fresh_w_init.
  - constructor.
  - reflexivity.
  - reflexivity.
Defined.

Lemma C2_witness :
  (∃ w' d',
     push_back int_size MallocAllocator 100 30 w_full = Done tt w' ∧
     holds w' 100 d' ([10; 20] ++ [30]) (if decide (2 = 0) then 1 else 2 * 2)) ∧
  (∃ w' d cap,
     bind (Vector_default 100)
          (λ _, push_all int_size MallocAllocator 100 [10; 20; 30]) w_init = Done tt w' ∧
     holds w' 100 d [10; 20; 30] cap ∧
     capacity 100 w' = Done cap w' ∧
     cap = doubled (growths (new_events w_init (Done tt w')))).
Proof.
  split.
  - apply (proj1 (C2_doubling_law int_size MallocAllocator) 100 30 w_full 1 [10; 20] 2).
    + exact holds_w_full.
    + exact heap_fresh_w_full.
    + reflexivity.
    + reflexivity.
    + apply can_alloc_int; [reflexivity|discriminate|reflexivity].
  - apply (proj2 (C2_doubling_law int_size MallocAllocator) 100 [10; 20; 30] w_init).
    + reflexivity.
    + exact heap_fresh_w_init.
    + constructor.
    + reflexivity.
    + reflexivity.
Defined.

Lemma X22_witness :
  reserve int_size MallocAllocator 100 2 w_v1 = Done tt w_v1 ∧
  ∃ w',
    reserve int_size MallocAllocator 100 10 w_v1 = Done tt w' ∧
    holds w' 100 (next_addr w_v1) [10; 20; 30] 10 ∧
    capacity 100 w' = Done 10 w' ∧
    size 100 w' = Done (Z.of_nat (length [10; 20; 30])) w' ∧
    ∀ i x, [10; 20; 30] !! i = Some x →
           ∃ w'', index_read 100 (Z.of_nat i) w' = Done x w''.
Proof.
  split.
  - apply (proj1 (X22_reserve int_size MallocAllocator 100 2 w_v1 3 [10; 20; 30] 4 holds_w_v1)).
    discriminate.
  - apply (proj2 (X22_reserve int_size MallocAllocator 100 10 w_v1 3 [10; 20; 30] 4 holds_w_v1)).
    + reflexivity.
    + exact heap_fresh_w_v1.
    + apply can_alloc_int; [reflexivity|discriminate|reflexivity].
Defined.

Lemma C4_witness :
  (∃ w',
     Vector_move 300 100 w_v1 = Done tt w' ∧
     holds w' 300 3 [10; 20; 30] 4 ∧
     objs w' !! 100 = Some (Vec 0 0 0) ∧
     heap w' = heap w_v1 ∧
     filter is_copy (new_events w_v1 (Done tt w')) = []) ∧
  (∃ w',
     move_assign 200 100 w_two = Done tt w' ∧
     holds w' 200 1 [10; 20] 2 ∧
     objs w' !! 100 = Some (Vec 0 0 0) ∧
     heap w' !! 1 = heap w_two !! 1 ∧
     filter is_copy (new_events w_two (Done tt w')) = []).
Proof.
  split.
  - apply (proj1 C4_move_transfers 100 300 w_v1 3 [10; 20; 30] 4).
    + exact holds_w_v1.
    + reflexivity.
  - apply (proj2 C4_move_transfers 100 200 w_two 1 [10; 20] 2 2 [30] 1).
    + discriminate.
    + exact holds_w_two_A.
    + exact holds_w_two_B.
    + exact heap_fresh_w_two.
    + discriminate.
Defined.

Lemma C5_witness :
  (∃ w' dB,
     Vector_copy int_size MallocAllocator 300 100 w_v1 = Done tt w' ∧
     holds w' 300 dB [10; 20; 30] 4 ∧ holds w' 100 3 [10; 20; 30] 4 ∧
     (4 ≠ 0 → dB ≠ 3 ∧ heap w_v1 !! dB = None)) ∧
  (∃ w' dB,
     copy_assign int_size MallocAllocator 200 100 w_two = Done tt w' ∧
     holds w' 200 dB [10; 20] 2 ∧ holds w' 100 1 [10; 20] 2 ∧
     (2 ≠ 0 → dB ≠ 1 ∧ heap w_two !! dB = None)) ∧
  match mutate_all int_size MallocAllocator 200 [MPush 5; MWrite 0 7; MPop; MPop] w_two with
  | Done _ w' | Raise w' =>
      holds w' 100 1 [10; 20] 2 ∧ heap w' !! 1 = heap w_two !! 1
  | Undef => True
  end.
Proof.
  split; [|split].
  - apply (proj1 (C5_copy_independent int_size MallocAllocator) 100 300 w_v1 3 [10; 20; 30] 4).
    + exact holds_w_v1.
    + reflexivity.
    + exact heap_fresh_w_v1.
    + intros _. apply can_alloc_int; [reflexivity|discriminate|reflexivity].
  - apply (proj1 (proj2 (C5_copy_independent int_size MallocAllocator))
             100 200 w_two 1 [10; 20] 2 2 [30] 1).
    + discriminate.
    + exact holds_w_two_A.
    + exact holds_w_two_B.
    + discriminate.
    + exact heap_fresh_w_two.
    + intros _. apply can_alloc_int; [reflexivity|discriminate|reflexivity].
  - apply (proj2 (proj2 (C5_copy_independent int_size MallocAllocator))
             100 200 w_two 1 [10; 20] 2).
    + discriminate.
    + exact holds_w_two_A.
    + exact heap_fresh_w_two.
    + intros vB HB _. vm_compute in HB. injection HB as <-. discriminate.
Defined.

Example mutations_of_B_return :
  ∃ w', mutate_all int_size MallocAllocator 200 [MPush 5; MWrite 0 7; MPop; MPop] w_two
        = Done tt w' ∧ objs w' !! 200 = Some (Vec 3 0 2).
Proof. eexists. split; vm_compute; reflexivity. Qed.

Lemma C7_witness :
  (∃ b w',
     heap w_v1 !! 3 = Some b ∧
     w' = World (<[3 := <[length [10; 20] := None]> b]> (heap w_v1))
                (next_addr w_v1) (oracle w_v1)
                (<[100 := Vec 3 (Z.of_nat (length [10; 20])) 4]> (objs w_v1))
                (trace w_v1 ++
                   [EvLock 100; EvDestroy 3 (Z.of_nat (length [10; 20])); EvUnlock 100]) ∧
     pop_back 100 w_v1 = Done tt w' ∧
     holds w' 100 3 [10; 20] 4) ∧
  pop_back 100 w_empty =
    Done tt (World (heap w_empty) (next_addr w_empty) (oracle w_empty) (objs w_empty)
                   (trace w_empty ++ [EvLock 100; EvUnlock 100])).
Proof.
  split.
  - apply (proj1 C7_pop_back 100 w_v1 3 [10; 20] 30 4). exact holds_w_v1.
  - apply (proj2 C7_pop_back 100 w_empty 0 0). exact holds_w_empty.
Defined.

Lemma C9_witness :
  acquisitions (lock_ops (new_events w_two (copy_assign int_size MallocAllocator 200 100 w_two)))
    = [200; 100] ∧
  ∃ s,
    csteps (CState ∅ [lock_ops (new_events w_two (copy_assign int_size MallocAllocator 100 200 w_two));
                      lock_ops (new_events w_two (copy_assign int_size MallocAllocator 200 100 w_two))])
           [0; 1]%nat = Some s ∧
    deadlocked s = true.
Proof.
  split.
  - apply (proj1 (proj2 (proj2 (proj2 (C9_destination_locked_first int_size MallocAllocator))))
             200 100 w_two 1 [10; 20] 2 2 [30] 1).
    + discriminate.
    + exact holds_w_two_A.
    + exact holds_w_two_B.
    + discriminate.
    + exact heap_fresh_w_two.
    + intros _. apply can_alloc_int; [reflexivity|discriminate|reflexivity].
  - apply (proj2 (proj2 (proj2 (proj2 (C9_destination_locked_first int_size MallocAllocator))))
             100 200 w_two 1 [10; 20] 2 2 [30] 1).
    + discriminate.
    + exact holds_w_two_A.
    + exact holds_w_two_B.
    + discriminate.
    + exact heap_fresh_w_two.
    + intros _. apply can_alloc_int; [reflexivity|discriminate|reflexivity].
    + intros _. apply can_alloc_int; [reflexivity|discriminate|reflexivity].
Defined.

(** ** Instances of the further properties *)

Lemma heap_fresh_w_empty : heap_fresh w_empty.
Proof. split; [reflexivity|apply map_Forall_empty]. Defined.

Lemma wf_w_v1 : wf w_v1.
Proof.
  split; [exact heap_fresh_w_v1|]. split.
  - intros this v H. unfold w_v1 in H. cbn [objs] in H.
    apply lookup_singleton_Some in H as [<- <-].
    exists [10; 20; 30]. exact holds_w_v1.
  - intros a b va vb Ha Hb Hne _. unfold w_v1 in Ha, Hb. cbn [objs] in Ha, Hb.
    apply lookup_singleton_Some in Ha as [<- _].
    apply lookup_singleton_Some in Hb as [<- _]. done.
Defined.

Lemma wf_w_two : wf w_two.
Proof.
  split; [exact heap_fresh_w_two|]. split.
  - intros this v H. unfold w_two in H. cbn [objs] in H.
    apply lookup_insert_Some in H as [[<- <-]|[_ H]].
    + exists [10; 20]. exact holds_w_two_A.
    + apply lookup_singleton_Some in H as [<- <-]. exists [30]. exact holds_w_two_B.
  - intros a b va vb Ha Hb Hne _. unfold w_two in Ha, Hb. cbn [objs] in Ha, Hb.
    apply lookup_insert_Some in Ha as [[<- <-]|[_ Ha]];
      apply lookup_insert_Some in Hb as [[<- <-]|[_ Hb]]; try done.
    + apply lookup_singleton_Some in Hb as [<- <-]. done.
    + apply lookup_singleton_Some in Ha as [<- <-]. done.
    + apply lookup_singleton_Some in Ha as [<- _].
      apply lookup_singleton_Some in Hb as [<- _]. done.
Defined.

Lemma X1_witness :
  ∃ w' d,
    Vector_sized 0 int_size MallocAllocator 100 2 w_init = Done tt w' ∧
    holds w' 100 d [0; 0] 2 ∧ size 100 w' = Done 2 w'.
Proof.
  destruct (X1_sized_constructor 0 int_size MallocAllocator 100 2 w_init)
    as (w' & d & Hrun & Hh & Hsize & _).
  - reflexivity.
  - exact heap_fresh_w_init.
  - split; [discriminate|reflexivity].
  - intros _. apply can_alloc_int; [reflexivity|discriminate|reflexivity].
  - exists w', d. split; [exact Hrun|]. split; [exact Hh|exact Hsize].
Defined.

Lemma X2_witness :
  ∃ w',
    Vector_destroy 100 w_v1 = Done tt w' ∧
    new_events w_v1 (Done tt w') = [EvDestroy 3 0; EvDestroy 3 1; EvDestroy 3 2; EvDealloc 3] ∧
    heap w' !! 3 = None.
Proof.
  destruct (X2_destructor 100 w_v1 3 [10; 20; 30] 4 holds_w_v1 heap_fresh_w_v1)
    as (w' & Hrun & Hev & _ & Hgone & _).
  exists w'. split; [exact Hrun|]. split; [exact Hev|exact Hgone].
Defined.

Lemma X3_witness :
  index_read 100 1 w_v1 =
    Done 20 (World (heap w_v1) (next_addr w_v1) (oracle w_v1) (objs w_v1)
                   (trace w_v1 ++ [EvLock 100; EvUnlock 100])) ∧
  index_read 100 4 w_v1 = Undef ∧ index_write 100 4 7 w_v1 = Undef.
Proof.
  split.
  - apply (proj1 (X3_index_bounds 100 w_v1 3 [10; 20; 30] 4 holds_w_v1 heap_fresh_w_v1)
             1%nat 20).
    reflexivity.
  - apply (proj2 (X3_index_bounds 100 w_v1 3 [10; 20; 30] 4 holds_w_v1 heap_fresh_w_v1)
             4 7).
    discriminate.
Defined.

Lemma X4_witness :
  ∃ w',
    index_write 100 1 25 w_v1 = Done tt w' ∧
    holds w' 100 3 [10; 25; 30] 4 ∧
    ∃ w'', index_read 100 1 w' = Done 25 w''.
Proof.
  destruct (X4_write_then_read 100 w_v1 3 [10; 20; 30] 4 1%nat 25 20 holds_w_v1)
    as (w' & Hrun & Hh & Hread & _).
  - reflexivity.
  - exists w'. split; [exact Hrun|]. split; [exact Hh|exact Hread].
Defined.

Lemma X5_witness :
  ∃ w' evs,
    push_all int_size MallocAllocator 100 [40] w_v1 = Done tt w' ∧
    holds w' 100 3 [10; 20; 30; 40] 4 ∧
    trace w' = trace w_v1 ++ evs ∧ growths evs = 0%nat.
Proof.
  destruct (X5_push_within_capacity int_size MallocAllocator 100 [40] w_v1 3 [10; 20; 30] 4
              holds_w_v1)
    as (w' & evs & Hrun & Hh & Ht & Hg & _).
  - discriminate.
  - exists w', evs. split; [exact Hrun|]. split; [exact Hh|]. split; [exact Ht|exact Hg].
Defined.

Lemma X6_witness :
  ∃ w1 w2 d' cap',
    push_back int_size MallocAllocator 100 30 w_full = Done tt w1 ∧
    pop_back 100 w1 = Done tt w2 ∧
    holds w2 100 d' [10; 20] cap' ∧ cap' = 4.
Proof.
  destruct (X6_push_then_pop int_size MallocAllocator 100 30 w_full 1 [10; 20] 2
              holds_w_full heap_fresh_w_full)
    as (w1 & w2 & d' & cap' & Hpush & Hpop & Hh & _ & _ & Hcap).
  - intros _. split; [reflexivity|].
    apply can_alloc_int; [reflexivity|discriminate|reflexivity].
  - exists w1, w2, d', cap'. split; [exact Hpush|]. split; [exact Hpop|].
    split; [exact Hh|]. apply Hcap. reflexivity.
Defined.

Lemma X7_witness :
  ∃ w' d,
    bind (Vector_sized 0 int_size MallocAllocator 100 5)
         (λ _, push_back int_size MallocAllocator 100 3) w_init = Done tt w' ∧
    holds w' 100 d [0; 0; 0; 0; 0; 3] 10 ∧
    growths (new_events w_init (Done tt w')) = 2%nat.
Proof.
  apply (X7_sized_then_push 0 int_size MallocAllocator 100 5 3 w_init).
  - reflexivity.
  - exact heap_fresh_w_init.
  - constructor.
  - reflexivity.
  - reflexivity.
  - reflexivity.
Defined.

Lemma X8_witness :
  ∃ w' d cap,
    bind (Vector_default 100)
         (λ _, push_all int_size MallocAllocator 100 [10; 20; 30]) w_init = Done tt w' ∧
    holds w' 100 d [10; 20; 30] cap ∧
    3 ≤ cap < 6 ∧
    Z.of_nat (relocations (new_events w_init (Done tt w'))) = cap - 1.
Proof.
  destruct (X8_amortised_growth int_size MallocAllocator 100 [10; 20; 30] w_init)
    as (w' & d & cap & Hrun & Hh & Hb & Hr & _).
  - reflexivity.
  - exact heap_fresh_w_init.
  - constructor.
  - reflexivity.
  - reflexivity.
  - discriminate.
  - exists w', d, cap. split; [exact Hrun|]. split; [exact Hh|]. split; [exact Hb|exact Hr].
Defined.

Lemma X9_witness :
  ∃ w',
    bind (Vector_default 100)
      (λ _, bind (push_all int_size MallocAllocator 100 [10; 20; 30])
              (λ _, Vector_destroy 100)) w_init = Done tt w' ∧
    heap w' = heap w_init ∧ objs w' = objs w_init ∧
    releases (new_events w_init (Done tt w')) = growths (new_events w_init (Done tt w')).
Proof.
  apply (X9_lifecycle_releases_everything int_size MallocAllocator 100 [10; 20; 30] w_init).
  - reflexivity.
  - exact heap_fresh_w_init.
  - constructor.
  - reflexivity.
  - reflexivity.
Defined.

Lemma X10_witness :
  ∃ w1 w2 w3,
    Vector_move 300 100 w_v1 = Done tt w1 ∧
    Vector_destroy 100 w1 = Done tt w2 ∧
    new_events w1 (Done tt w2) = [] ∧
    holds w2 300 3 [10; 20; 30] 4 ∧
    Vector_destroy 300 w2 = Done tt w3 ∧
    heap w3 = delete 3 (heap w_v1).
Proof.
  destruct (X10_moved_from_destructor 100 300 w_v1 3 [10; 20; 30] 4 holds_w_v1)
    as (w1 & w2 & w3 & Hmove & Hd1 & Hev & _ & Hh & Hd2 & Hheap & _).
  - reflexivity.
  - exact heap_fresh_w_v1.
  - exists w1, w2, w3. split; [exact Hmove|]. split; [exact Hd1|]. split; [exact Hev|].
    split; [exact Hh|]. split; [exact Hd2|exact Hheap].
Defined.

Lemma X11_witness :
  ∃ w1 dB,
    Vector_copy int_size MallocAllocator 300 100 w_v1 = Done tt w1 ∧
    (∃ w2, Vector_destroy 100 w1 = Done tt w2 ∧ holds w2 300 dB [10; 20; 30] 4) ∧
    (∃ w2, Vector_destroy 300 w1 = Done tt w2 ∧ holds w2 100 3 [10; 20; 30] 4).
Proof.
  destruct (X11_copy_and_original_end_apart int_size MallocAllocator 100 300 w_v1 3
              [10; 20; 30] 4 holds_w_v1)
    as (w1 & dB & Hrun & _ & _ & (w2 & Hd1 & Hh1 & _) & (w2' & Hd2 & Hh2 & _)).
  - reflexivity.
  - exact heap_fresh_w_v1.
  - intros _. apply can_alloc_int; [reflexivity|discriminate|reflexivity].
  - exists w1, dB. split; [exact Hrun|]. split.
    + exists w2. split; [exact Hd1|exact Hh1].
    + exists w2'. split; [exact Hd2|exact Hh2].
Defined.

Lemma X12_witness :
  (∃ w',
     move_assign 200 100 w_two = Done tt w' ∧
     new_events w_two (Done tt w') =
       [EvLock 200; EvLock 100; EvDestroy 2 0; EvDealloc 2; EvUnlock 100; EvUnlock 200]) ∧
  (∃ w',
     copy_assign int_size MallocAllocator 200 100 w_two = Done tt w' ∧
     new_events w_two (Done tt w') =
       [EvLock 200; EvLock 100; EvDestroy 2 0; EvDealloc 2;
        EvAlloc 3 2; EvCopy 3 0; EvCopy 3 1; EvUnlock 100; EvUnlock 200] ∧
     heap w' !! 2 = None).
Proof.
  split.
  - destruct (proj1 (X12_assignment_releases_destination int_size MallocAllocator)
                100 200 w_two 1 [10; 20] 2 2 [30] 1) as (w' & Hrun & Hev & _).
    + discriminate.
    + exact holds_w_two_A.
    + exact holds_w_two_B.
    + exact heap_fresh_w_two.
    + exists w'. split; [exact Hrun|exact Hev].
  - destruct (proj2 (X12_assignment_releases_destination int_size MallocAllocator)
                100 200 w_two 1 [10; 20] 2 2 [30] 1) as (w' & Hrun & Hev & Hgone).
    + discriminate.
    + exact holds_w_two_A.
    + exact holds_w_two_B.
    + discriminate.
    + exact heap_fresh_w_two.
    + intros _. apply can_alloc_int; [reflexivity|discriminate|reflexivity].
    + exists w'. split; [exact Hrun|]. split; [exact Hev|exact Hgone].
Defined.

Lemma X13_witness :
  (∃ w',
     push_back int_size NewAllocator 100 30 w_full_refused = Raise w' ∧
     objs w' = objs w_full_refused ∧
     lock_ops (new_events w_full_refused (Raise (A:=unit) w')) = [Acquire 100]) ∧
  (∃ w',
     Vector_copy int_size NewAllocator 300 100 w_full_refused = Raise w' ∧
     lock_ops (new_events w_full_refused (Raise (A:=unit) w')) = [Acquire 300; Acquire 100]).
Proof.
  split.
  - destruct (proj1 (X13_exception_leaves_mutex_locked int_size)
                100 30 w_full_refused 1 [10; 20] 2) as (w' & Hrun & _ & Hobjs & Hlock & _).
    + exact holds_w_full.
    + reflexivity.
    + reflexivity.
    + reflexivity.
    + reflexivity.
    + exists w'. split; [exact Hrun|]. split; [exact Hobjs|exact Hlock].
  - destruct (proj2 (X13_exception_leaves_mutex_locked int_size)
                100 300 w_full_refused 1 [10; 20] 2) as (w' & Hrun & _ & _ & Hlock & _).
    + exact holds_w_full.
    + reflexivity.
    + reflexivity.
    + reflexivity.
    + reflexivity.
    + exists w'. split; [exact Hrun|exact Hlock].
Defined.

Lemma X14_witness :
  ∃ w',
    copy_assign int_size NewAllocator 200 100 w_two_refused = Raise w' ∧
    objs w' !! 200 = Some (Vec 2 2 2) ∧ heap w' !! 2 = None ∧
    Vector_destroy 200 w' = Undef.
Proof.
  destruct (X14_copy_assign_failure_leaves_dangling int_size 100 200 w_two_refused
              1 [10; 20] 2 2 [30] 1)
    as (w' & Hrun & Hobj & Hgone & _ & _ & _ & Hdtor).
  - discriminate.
  - exact holds_w_two_A.
  - exact holds_w_two_B.
  - discriminate.
  - exact heap_fresh_w_two.
  - discriminate.
  - reflexivity.
  - reflexivity.
  - reflexivity.
  - exists w'. split; [exact Hrun|]. split; [exact Hobj|]. split; [exact Hgone|exact Hdtor].
Defined.

Lemma X15_witness :
  (∃ w' b,
     reserve int_size MallocAllocator 100 (2 ^ 62) w_empty = Done tt w' ∧
     objs w' !! 100 = Some (Vec 1 0 (2 ^ 62)) ∧
     heap w' !! 1 = Some b ∧ Z.of_nat (length b) = 0 ∧
     push_back int_size MallocAllocator 100 7 w' = Undef) ∧
  reserve int_size NewAllocator 100 (2 ^ 62) w_empty = Raise w_empty.
Proof.
  destruct (X15_malloc_size_overflow int_size 100 (2 ^ 62) w_empty)
    as ((w' & b & Hrun & Hobj & Hblk & Hlen & _ & Hpush) & Hnew).
  - exact holds_w_empty.
  - exact heap_fresh_w_empty.
  - reflexivity.
  - reflexivity.
  - split; reflexivity.
  - discriminate.
  - split; [|exact Hnew].
    exists w', b. split; [exact Hrun|]. split; [exact Hobj|]. split; [exact Hblk|].
    split; [exact Hlen|]. apply Hpush. reflexivity.
Defined.

Lemma X16_witness :
  (∃ w' mid,
     push_back int_size MallocAllocator 100 30 w_full = Done tt w' ∧
     trace w' = trace w_full ++ [EvLock 100] ++ mid ++ [EvUnlock 100] ∧
     lock_ops mid = []) ∧
  (∃ w' mid,
     pop_back 100 w_full = Done tt w' ∧
     trace w' = trace w_full ++ [EvLock 100] ++ mid ++ [EvUnlock 100] ∧
     lock_ops mid = []) ∧
  index_read 100 1 w_full =
    load 1 1 (World (heap w_full) (next_addr w_full) (oracle w_full) (objs w_full)
                    (trace w_full ++ [EvLock 100; EvUnlock 100])) ∧
  (∃ w',
     reserve int_size MallocAllocator 100 8 w_full = Done tt w' ∧
     lock_ops (new_events w_full (Done tt w')) = []).
Proof.
  destruct (X16_single_instance_locking int_size MallocAllocator 100 w_full 1 [10; 20] 2
              holds_w_full heap_fresh_w_full) as (Hpush & Hpop & Hidx & Hres).
  split; [|split; [exact Hpop|split]].
  - apply Hpush. intros _. split; [reflexivity|].
    apply can_alloc_int; [reflexivity|discriminate|reflexivity].
  - apply (Hidx 1%nat 20 0). reflexivity.
  - apply Hres. intros _. apply can_alloc_int; [reflexivity|discriminate|reflexivity].
Defined.

Lemma X17_witness :
  (∃ w', Vector_default 300 w_two = Done tt w' ∧ wf w') ∧
  (∃ w', Vector_sized 0 int_size MallocAllocator 300 5 w_two = Done tt w' ∧ wf w') ∧
  (∃ w', Vector_copy int_size MallocAllocator 300 100 w_two = Done tt w' ∧ wf w') ∧
  (∃ w', copy_assign int_size MallocAllocator 200 100 w_two = Done tt w' ∧ wf w') ∧
  (∃ w', Vector_move 300 100 w_two = Done tt w' ∧ wf w') ∧
  (∃ w', move_assign 200 100 w_two = Done tt w' ∧ wf w') ∧
  (∃ w', Vector_destroy 100 w_two = Done tt w' ∧ wf w').
Proof.
  destruct (X17_lifecycle_keeps_well_formed 0 int_size MallocAllocator)
    as (H1 & H2 & H3 & H4 & H5 & H6 & H7).
  repeat apply conj.
  - destruct (H1 300 w_two wf_w_two) as (w' & Hrun & Hwf & _); [reflexivity|].
    exists w'. split; [exact Hrun|exact Hwf].
  - destruct (H2 300 5 w_two wf_w_two) as (w' & Hrun & Hwf & _).
    + reflexivity.
    + split; [discriminate|reflexivity].
    + intros _. apply can_alloc_int; [reflexivity|discriminate|reflexivity].
    + exists w'. split; [exact Hrun|exact Hwf].
  - destruct (H3 100 300 w_two (Vec 1 2 2) wf_w_two) as (w' & Hrun & Hwf & _).
    + reflexivity.
    + reflexivity.
    + intros _. apply can_alloc_int; [reflexivity|discriminate|reflexivity].
    + exists w'. split; [exact Hrun|exact Hwf].
  - destruct (H4 100 200 w_two (Vec 1 2 2) (Vec 2 1 1) wf_w_two) as (w' & Hrun & Hwf & _).
    + reflexivity.
    + reflexivity.
    + intros _. apply can_alloc_int; [reflexivity|discriminate|reflexivity].
    + exists w'. split; [exact Hrun|exact Hwf].
  - destruct (H5 100 300 w_two (Vec 1 2 2) wf_w_two) as (w' & Hrun & Hwf & _).
    + reflexivity.
    + reflexivity.
    + exists w'. split; [exact Hrun|exact Hwf].
  - destruct (H6 100 200 w_two (Vec 1 2 2) (Vec 2 1 1) wf_w_two) as (w' & Hrun & Hwf & _).
    + reflexivity.
    + reflexivity.
    + exists w'. split; [exact Hrun|exact Hwf].
  - destruct (H7 100 w_two (Vec 1 2 2) wf_w_two) as (w' & Hrun & Hwf & _).
    + reflexivity.
    + exists w'. split; [exact Hrun|exact Hwf].
Defined.

Lemma X18_witness :
  (∃ w', push_back int_size MallocAllocator 100 30 w_two = Done tt w' ∧ wf w') ∧
  (∃ w', pop_back 100 w_two = Done tt w' ∧ wf w') ∧
  (∃ w', reserve int_size MallocAllocator 100 8 w_two = Done tt w' ∧ wf w') ∧
  (∃ w', index_write 100 1 25 w_two = Done tt w' ∧ all_state_inv w').
Proof.
  destruct (X18_mutation_keeps_well_formed 0 int_size MallocAllocator)
    as (H1 & H2 & H3 & H4).
  repeat apply conj.
  - destruct (H1 100 30 w_two (Vec 1 2 2) wf_w_two) as (w' & Hrun & Hwf & _).
    + reflexivity.
    + intros _. split; [reflexivity|].
      apply can_alloc_int; [reflexivity|discriminate|reflexivity].
    + exists w'. split; [exact Hrun|exact Hwf].
  - destruct (H2 100 w_two (Vec 1 2 2) wf_w_two) as (w' & Hrun & Hwf & _).
    + reflexivity.
    + exists w'. split; [exact Hrun|exact Hwf].
  - destruct (H3 100 8 w_two (Vec 1 2 2) wf_w_two) as (w' & Hrun & Hwf & _).
    + reflexivity.
    + intros _. apply can_alloc_int; [reflexivity|discriminate|reflexivity].
    + exists w'. split; [exact Hrun|exact Hwf].
  - destruct (H4 100 1 25 w_two (Vec 1 2 2) wf_w_two) as (w' & Hrun & _ & Hinv).
    + reflexivity.
    + split; [discriminate|reflexivity].
    + exists w'. split; [exact Hrun|exact Hinv].
Defined.

Lemma X19_witness :
  print 100 w_v1 =
    Done [OutStr "["; OutElem 10; OutStr ", "; OutElem 20; OutStr ", "; OutElem 30;
          OutStr "] (size: "; OutNum 3; OutStr ", capacity: "; OutNum 4;
          OutStr (")" +:+ newline)]
         (World (heap w_v1) (next_addr w_v1) (oracle w_v1) (objs w_v1)
                (trace w_v1 ++ [EvLock 100; EvUnlock 100])).
Proof. exact (proj1 (X19_print 100 w_v1 3 [10; 20; 30] 4 holds_w_v1)). Defined.

Lemma X20_witness :
  ∃ s,
    csteps (CState ∅ (calls 100 <$> [2; 1]%nat)) [0; 0; 1; 1; 0]%nat = Some s ∧
    deadlocked s = false.
Proof.
  eexists. split; [vm_compute; reflexivity|].
  apply (X20_one_mutex_never_deadlocks 100 [2; 1]%nat [0; 0; 1; 1; 0]%nat).
  vm_compute. reflexivity.
Defined.

Lemma X21_witness :
  ∃ w',
    bind (reserve int_size MallocAllocator 100 10)
         (λ _, push_all int_size MallocAllocator 100 [40; 50]) w_v1 = Done tt w' ∧
    holds w' 100 4 [10; 20; 30; 40; 50] 10 ∧
    growths (new_events w_v1 (Done tt w')) = 1%nat.
Proof.
  apply (X21_reserve_then_push int_size MallocAllocator 100 10 [40; 50] w_v1 3 [10; 20; 30] 4).
  - exact holds_w_v1.
  - exact heap_fresh_w_v1.
  - reflexivity.
  - apply can_alloc_int; [reflexivity|discriminate|reflexivity].
  - discriminate.
Defined.

(** * Where the code departs from the specification *)

(** C3: [reserve((size_t(1) << 62) + 1)] on a [Vector<int>] when the
    system satisfies every request.  [MallocAllocator] computes
    [n * sizeof(int)] in [size_t], which wraps to [4], so the buffer has one
    slot.  On the [Vector] with the elements [10; 20] the relocation loop
    then writes the second element outside the buffer; on an empty [Vector]
    the call returns with the capacity [2^62 + 1] recorded over that one
    slot.  [NewAllocator] throws for the same request and changes
    nothing. *)
Theorem C3_reserve_size_overflow :
  reserve int_size MallocAllocator 100 (2 ^ 62 + 1) w_full = Undef ∧
  reserve int_size MallocAllocator 100 (2 ^ 62 + 1) w_empty =
    Done tt (World {[1 := [None]]} 2 [] {[100 := Vec 1 0 (2 ^ 62 + 1)]} [EvAlloc 1 1]) ∧
  reserve int_size NewAllocator 100 (2 ^ 62 + 1) w_full = Raise w_full.
Proof. repeat split; vm_compute; reflexivity. Qed.

(** C6: [Vector<int> v; v.reserve(size_t(1) << 61)] when [std::malloc]
    returns [NULL]: [reserve] returns normally, with the capacity set and a
    null buffer; the [push_back] that follows, and [reserve] on a populated
    [Vector], write through the null pointer. *)
Theorem C6_refused_malloc_changes_state :
  reserve int_size MallocAllocator 100 (2 ^ 61) w_refused =
    Done tt (World ∅ 1 [] {[100 := Vec 0 0 (2 ^ 61)]} []) ∧
  push_back int_size MallocAllocator 100 7 w_refused = Undef ∧
  reserve int_size MallocAllocator 100 8 w_v1_refused = Undef ∧
  reserve int_size NewAllocator 100 8 w_v1_refused =
    Raise (World (heap w_v1_refused) 4 [] (objs w_v1_refused) []).
Proof. repeat split; vm_compute; reflexivity. Qed.

(** C8: after the [reserve] of C6, and after a copy from a [Vector] with
    reserved storage, the buffer is null while the capacity is not [0]. *)
Theorem C8_refused_malloc_breaks_invariant :
  (∃ w' v,
     reserve int_size MallocAllocator 100 (2 ^ 61) w_refused = Done tt w' ∧
     objs w' !! 100 = Some v ∧ ¬ state_inv v) ∧
  (∃ w' v,
     Vector_copy int_size MallocAllocator 300 100 w_reserved_refused = Done tt w' ∧
     objs w' !! 300 = Some v ∧ ¬ state_inv v).
Proof.
  split.
  - exists (World ∅ 1 [] {[100 := Vec 0 0 (2 ^ 61)]} []), (Vec 0 0 (2 ^ 61)).
    split; [vm_compute; reflexivity|]. split; [reflexivity|].
    intros [_ [H _]]. specialize (H eq_refl). discriminate H.
  - eexists _, (Vec 0 0 4).
    split; [vm_compute; reflexivity|]. split; [reflexivity|].
    intros [_ [H _]]. specialize (H eq_refl). discriminate H.
Qed.

(** C9: thread [0] runs [A = B] and thread [1] runs [B = A] on the two
    [Vector]s of [w_two].  Each acquires its own mutex first; after one step
    of each, neither can take its second mutex. *)
Theorem C9_opposite_copies_deadlock :
  let a_from_b := lock_ops (new_events w_two (copy_assign int_size MallocAllocator 100 200 w_two)) in
  let b_from_a := lock_ops (new_events w_two (copy_assign int_size MallocAllocator 200 100 w_two)) in
  acquisitions a_from_b = [100; 200] ∧
  acquisitions b_from_a = [200; 100] ∧
  ∃ s, csteps (CState ∅ [a_from_b; b_from_a]) [0; 1]%nat = Some s ∧
       deadlocked s = true.
Proof.
  split; [vm_compute; reflexivity|]. split; [vm_compute; reflexivity|].
  eexists. split; vm_compute; reflexivity.
Qed.
